(** * PurgeMessages: discovery, deletion and the per-channel state machine

    A shallow embedding of [purgeMessages.tsx] (the version that splits
    discovery into [discoverMessages] and [discoverRangeMessages]) and the
    properties of its specification.

    The plugin is asynchronous JavaScript.  Every [await] of a real
    asynchronous operation (a REST call, a [sleep]) is a suspension: the
    event is recorded in a trace, a logical clock advances, and the rest of
    the program (other command handlers) may change the shared store.  The
    answers of the REST endpoints and this interference are given by a
    [World]; the [while (true)] loops take fuel, one unit per iteration. *)

From Stdlib Require Import ZArith QArith Qminmax String Ascii List Lia Lqa Bool.
From stdpp Require Import base gmap strings list.
Import ListNotations.

Local Open Scope string_scope.
Local Open Scope nat_scope.

(** ** JavaScript values *)

(** A string stands for the UTF-8 bytes of the JavaScript string: equality,
    emptiness, decimal digits and the splitting at commas and spaces read
    the same on the bytes as on the characters. *)

(** [interface Message]; [m_author] is [msg.author?.id]. *)
Record Message := {
  m_id : string;
  m_author : option string;
  m_timestamp : string
}.

(** Truthiness of a [string | undefined]: the empty string is falsy. *)
Definition truthy (s : option string) : bool :=
  match s with
  | Some x => negb (String.eqb x "")
  | None => false
  end.

(** [limit && n >= limit] for a [number | undefined] limit: 0 is falsy. *)
Definition limit_reached (limit : option Z) (n : nat) : bool :=
  match limit with
  | Some l => negb (l =? 0)%Z && (l <=? Z.of_nat n)%Z
  | None => false
  end.

(** [id === boundary] for a [string | undefined] boundary. *)
Definition id_is (boundary : option string) (x : string) : bool :=
  match boundary with
  | Some b => String.eqb x b
  | None => false
  end.

(** [!userId || msg.author?.id === userId] *)
Definition author_matches (userId : option string) (msg : Message) : bool :=
  negb (truthy userId)
  || match m_author msg with
     | Some a => id_is userId a
     | None => false
     end.

(** What a rejected REST promise carries: an object with (possibly) a
    [status] and a [retry_after], or anything else. *)
Inductive Thrown :=
| ThrownObject (status : option Z) (retry_after : option Q)
| ThrownOther.

(** The [query] object of [RestAPI.get]. *)
Record Query := {
  q_limit : string;
  q_before : option string;
  q_after : option string
}.

Inductive RestResult :=
| Resolved (body : option (list Message))
| Rejected (error : Thrown).

(** ** Per-channel state *)

Record ActivePurge := {
  stop : bool;
  deleted : nat;
  failed : nat
}.

Inductive Mode := ModeSelf | ModeUser.

Record PendingConfirmation := {
  pc_count : nat;
  pc_userId : option string;
  pc_mode : Mode;
  pc_excludeIds : option (gset string)
}.

Record ActiveScan := { scan_stop : bool }.

(** The three module-level maps.  An [ActivePurge] is a mutable object that
    [executePurge] keeps a reference to while the map may change, so the
    map holds references into [heap]; [next_ref] is the next fresh one. *)
Record Store := {
  heap : gmap nat ActivePurge;
  next_ref : nat;
  activePurges : gmap string nat;
  pendingConfirmations : gmap string PendingConfirmation;
  activeScans : gmap string ActiveScan
}.

Definition empty_store : Store :=
  {| heap := ∅; next_ref := 0; activePurges := ∅;
     pendingConfirmations := ∅; activeScans := ∅ |}.

Definition BATCH_SIZE : nat := 100.
Definition DISCOVERY_DELAY : Z := 100.
Definition MAX_CONSECUTIVE_ERRORS : nat := 3.
Definition MAX_EMPTY_BATCHES : nat := 3.
Definition PROGRESS_UPDATE_INTERVAL : Z := 2000.

(** ** Effects *)

(** Text of a [sendBotMessage]. *)
Inductive RangeText :=
| RangeBetween (afterId beforeId : string)
| RangeAfter (afterId : string)
| RangeBefore (beforeId : option string).

Inductive Reply :=
| NoPendingConfirmation     (* No pending confirmation found. Use ... first. *)
| AlreadyInProgress         (* A purge operation is already in progress in this channel. ... *)
| StartingPurge (count : nat)
| NoMessagesToDelete        (* No messages found to delete. *)
| NoMessagesFound (text : option RangeText)
| PurgeResult (deleted failed : nat)   (* formatResultMessage *)
| CountWithRange            (* Cannot use 'count' together with 'before' or 'after' options. ... *)
| NeedCountOrRange          (* Please provide either a count ('all' or number) or ... *)
| ScanningStarted           (* Scanning messages... (0 found so far) *)
| ScanProgress (found : nat)  (* Scanning messages... (N found so far) *)
| ScanComplete (found : nat)
| InvalidCount
| GuildOnly
| NeedManageMessages
| InvalidUser
| AnyNeedsPermission
| InvalidMessageId.

Inductive Event :=
| EvGet (channelId : string) (q : Query)
| EvDel (channelId : string) (messageId : string)
| EvSleep (ms : Q)
| EvProgress (count : nat)
| EvSend (channelId : string) (r : Reply).

(** The environment of one task: the answers of the REST endpoints at each
    instant, what the other handlers do to the store while the task is
    suspended, and what [Date.now()] returns the k-th time the task reads
    it. *)
Record World := {
  restGet : nat -> string -> Query -> RestResult;
  restDel : nat -> string -> string -> bool;
  interfere : nat -> Store -> Store;
  dateNow : nat -> Z
}.

Record Run := {
  clock : nat;
  store : Store;
  trace : list Event
}.

Definition M (A : Type) : Type := Run -> A * Run.

#[global] Instance M_ret : MRet M := fun A (a : A) r => (a, r).
#[global] Instance M_bind : MBind M :=
  fun A B (k : A -> M B) (c : M A) r => let '(a, r') := c r in k a r'.

Definition emit (e : Event) : M unit :=
  fun r => (tt, {| clock := clock r; store := store r; trace := trace r ++ [e] |}).

Definition getStore : M Store := fun r => (store r, r).

Definition modifyStore (f : Store -> Store) : M unit :=
  fun r => (tt, {| clock := clock r; store := f (store r); trace := trace r |}).

Definition now : M nat := fun r => (clock r, r).

(** One suspension at an [await]. *)
Definition suspend (w : World) : M unit :=
  fun r => (tt, {| clock := S (clock r);
                   store := interfere w (clock r) (store r);
                   trace := trace r |}).

Definition sendBotMessage (channelId : string) (r : Reply) : M unit :=
  emit (EvSend channelId r).

(** ** Discovery *)

(** How one iteration of a [while (true)] loop ends. *)
Inductive Ctl (S : Type) :=
| Continue (st : S)
| Break (st : S)
| Return (result : list Message).
Arguments Continue {S} st.
Arguments Break {S} st.
Arguments Return {S} result.

Section Tasks.

Variable w : World.

(** [await sleep(ms)] *)
Definition sleep (ms : Q) : M unit :=
  emit (EvSleep ms);; suspend w.

(** [await RestAPI.get({ url: MESSAGES(channelId), query })]: the promise
    resolves with a response or rejects. *)
Definition RestAPI_get (channelId : string) (q : Query) : M RestResult :=
  t ← now;
  emit (EvGet channelId q);;
  suspend w;;
  mret (restGet w t channelId q).

(** [await RestAPI.del({ url: MESSAGE(channelId, id) })]: [true] when the
    promise resolves, [false] when it rejects. *)
Definition RestAPI_del (channelId messageId : string) : M bool :=
  t ← now;
  emit (EvDel channelId messageId);;
  suspend w;;
  mret (restDel w t channelId messageId).

(** [shouldStop]: [activeScans.get(c)?.stop || activePurges.get(c)?.stop || false] *)
Definition should_stop (channelId : string) (s : Store) : bool :=
  match activeScans s !! channelId with
  | Some sc => scan_stop sc
  | None => false
  end
  || match activePurges s !! channelId with
     | Some ref =>
         match heap s !! ref with
         | Some p => stop p
         | None => false
         end
     | None => false
     end.

Definition shouldStop (channelId : string) : M bool :=
  s ← getStore; mret (should_stop channelId s).

Definition delete_scan (channelId : string) (s : Store) : Store :=
  {| heap := heap s; next_ref := next_ref s; activePurges := activePurges s;
     pendingConfirmations := pendingConfirmations s;
     activeScans := delete channelId (activeScans s) |}.

(** [activeScans.delete(channelId)] *)
Definition activeScans_delete (channelId : string) : M unit :=
  modifyStore (delete_scan channelId).

(** [fetchMessageBatch]: [before] and [after] enter the query only when
    truthy; a missing body is an empty batch; a rejection is thrown. *)
Definition fetchMessageBatch (channelId : string) (before after : option string)
  : M (Thrown + list Message) :=
  let query := {| q_limit := "100";
                  q_before := if truthy before then before else None;
                  q_after := if truthy after then after else None |} in
  response ← RestAPI_get channelId query;
  match response with
  | Resolved (Some body) => mret (inr body)
  | Resolved None => mret (inr [])
  | Rejected error => mret (inl error)
  end.

(** [error && typeof error === "object" && "status" in error && error.status === 429] *)
Definition isRateLimit (error : Thrown) : bool :=
  match error with
  | ThrownObject (Some st) _ => (st =? 429)%Z
  | _ => false
  end.

(** [isRateLimit ? (error.retry_after || 1000) : 0] *)
Definition retryAfter (error : Thrown) : Q :=
  if isRateLimit error then
    match error with
    | ThrownObject _ (Some ra) => if Qeq_bool ra 0 then 1000%Q else ra
    | _ => 1000%Q
    end
  else 0%Q.

(** The delay slept after the failed attempt number [retry] (from 0):
    [isRateLimit ? Math.max(retryAfter * 1000, 2000 * (retry + 1))
                 : 1000 * Math.pow(2, retry)] *)
Definition retry_delay (error : Thrown) (retry : nat) : Q :=
  if isRateLimit error
  then Qmax (retryAfter error * 1000) (inject_Z (2000 * (Z.of_nat retry + 1)))
  else inject_Z (1000 * 2 ^ Z.of_nat retry).

(** [for (let retry = ...; retry < 5; retry++) { try { batch = await
    fetchMessageBatch(...); success = true; break; } catch (error) { ...;
    await sleep(delay); } }] with [attempts] iterations left.  [None] is
    [success === false]. *)
Fixpoint fetch_with_retry (channelId : string) (before : option string)
    (attempts retry : nat) : M (option (list Message)) :=
  match attempts with
  | O => mret None
  | S attempts' =>
      r ← fetchMessageBatch channelId before None;
      match r with
      | inr batch => mret (Some batch)
      | inl error =>
          sleep (retry_delay error retry);;
          fetch_with_retry channelId before attempts' (S retry)
      end
  end.

(** The verification loop: up to [attempts] more fetches at the same
    cursor; it stops at the first non-empty batch and otherwise sleeps
    [unit * (verifyAttempt + 1)] after each try, failed or empty. *)
Fixpoint verify_fetch (channelId : string) (before : option string) (unit_ms : Z)
    (attempts verifyAttempt : nat) : M (option (list Message)) :=
  match attempts with
  | O => mret None
  | S attempts' =>
      r ← fetchMessageBatch channelId before None;
      match r with
      | inr (m :: verifyBatch) => mret (Some (m :: verifyBatch))
      | _ =>
          sleep (inject_Z (unit_ms * (Z.of_nat verifyAttempt + 1)));;
          verify_fetch channelId before unit_ms attempts' (S verifyAttempt)
      end
  end.

Record DiscoverOptions := {
  userId : option string;
  afterId : option string;
  beforeId : option string;
  limit : option Z;
  onProgress : bool     (* whether a callback is supplied; a call is [EvProgress] *)
}.

(** How a run ends: the function returned, or the fuel ran out with the
    loop still going ([sofar] is [messages] at that point). *)
Inductive Outcome :=
| Finished (result : list Message)
| OutOfFuel (sofar : list Message).

Definition outcome_messages (o : Outcome) : list Message :=
  match o with
  | Finished l => l
  | OutOfFuel l => l
  end.

(** The locals of [discoverMessages]. *)
Record DState := {
  messages : list Message;
  lastMessageId : option string;
  consecutiveErrors : nat;
  lastSuccessfulBatchSize : nat;
  lastReportedCount : nat;
  emptyBatchCount : nat;
  seenMessageIds : gset string
}.

Definition initial_DState : DState :=
  {| messages := []; lastMessageId := None; consecutiveErrors := 0;
     lastSuccessfulBatchSize := 0; lastReportedCount := 0;
     emptyBatchCount := 0; seenMessageIds := ∅ |}.

Definition set_messages (st : DState) (msgs : list Message) (seen : gset string) : DState :=
  {| messages := msgs; lastMessageId := lastMessageId st;
     consecutiveErrors := consecutiveErrors st;
     lastSuccessfulBatchSize := lastSuccessfulBatchSize st;
     lastReportedCount := lastReportedCount st;
     emptyBatchCount := emptyBatchCount st; seenMessageIds := seen |}.

Definition set_lastMessageId (st : DState) (c : option string) : DState :=
  {| messages := messages st; lastMessageId := c;
     consecutiveErrors := consecutiveErrors st;
     lastSuccessfulBatchSize := lastSuccessfulBatchSize st;
     lastReportedCount := lastReportedCount st;
     emptyBatchCount := emptyBatchCount st; seenMessageIds := seenMessageIds st |}.

Definition set_consecutiveErrors (st : DState) (n : nat) : DState :=
  {| messages := messages st; lastMessageId := lastMessageId st;
     consecutiveErrors := n;
     lastSuccessfulBatchSize := lastSuccessfulBatchSize st;
     lastReportedCount := lastReportedCount st;
     emptyBatchCount := emptyBatchCount st; seenMessageIds := seenMessageIds st |}.

Definition set_lastSuccessfulBatchSize (st : DState) (n : nat) : DState :=
  {| messages := messages st; lastMessageId := lastMessageId st;
     consecutiveErrors := consecutiveErrors st;
     lastSuccessfulBatchSize := n;
     lastReportedCount := lastReportedCount st;
     emptyBatchCount := emptyBatchCount st; seenMessageIds := seenMessageIds st |}.

Definition set_lastReportedCount (st : DState) (n : nat) : DState :=
  {| messages := messages st; lastMessageId := lastMessageId st;
     consecutiveErrors := consecutiveErrors st;
     lastSuccessfulBatchSize := lastSuccessfulBatchSize st;
     lastReportedCount := n;
     emptyBatchCount := emptyBatchCount st; seenMessageIds := seenMessageIds st |}.

Definition set_emptyBatchCount (st : DState) (n : nat) : DState :=
  {| messages := messages st; lastMessageId := lastMessageId st;
     consecutiveErrors := consecutiveErrors st;
     lastSuccessfulBatchSize := lastSuccessfulBatchSize st;
     lastReportedCount := lastReportedCount st;
     emptyBatchCount := n; seenMessageIds := seenMessageIds st |}.

(** [for (const msg of batch) { ... }] of [discoverMessages]: [Return] is
    the [return messages] under [shouldStop], [Break] the [break] at the
    limit, [Continue] the end of the batch. *)
Fixpoint scan_batch (channelId : string) (userId : option string) (limit : option Z)
    (batch : list Message) (st : DState) : M (Ctl DState) :=
  match batch with
  | [] => mret (Continue st)
  | msg :: rest =>
      stopped ← shouldStop channelId;
      if (stopped : bool) then
        activeScans_delete channelId;;
        mret (Return (messages st))
      else if bool_decide (m_id msg ∈ seenMessageIds st) then
        scan_batch channelId userId limit rest st
      else
        let st1 := set_messages st (messages st) ({[ m_id msg ]} ∪ seenMessageIds st) in
        if author_matches userId msg then
          let st2 := set_messages st1 (messages st1 ++ [msg]) (seenMessageIds st1) in
          if limit_reached limit (length (messages st2)) then mret (Break st2)
          else scan_batch channelId userId limit rest st2
        else scan_batch channelId userId limit rest st1
  end.

(** What the empty-batch handling makes of a fetched batch. *)
Inductive Settled :=
| SettledBatch (emptyBatchCount : nat) (batch : list Message)
| SettledContinue (emptyBatchCount : nat)
| SettledBreak (emptyBatchCount : nat).

(** [if (!batch || batch.length === 0) { emptyBatchCount++; ... } else
    { emptyBatchCount = 0; }]: the same text in both loops.  After
    [MAX_EMPTY_BATCHES] empty batches in a row the cursor, if any, is
    fetched up to three more times before the loop is left. *)
Definition settle_batch (channelId : string) (cursor : option string)
    (emptyBatchCount : nat) (batch : list Message) : M Settled :=
  match batch with
  | [] =>
      let emptyBatchCount1 := S emptyBatchCount in
      if MAX_EMPTY_BATCHES <=? emptyBatchCount1 then
        verifyBatch ← (if truthy cursor
                       then verify_fetch channelId cursor 500 3 0
                       else mret None);
        match verifyBatch with
        | Some vb => mret (SettledBatch 0 vb)
        | None => mret (SettledBreak emptyBatchCount1)
        end
      else sleep 300;; mret (SettledContinue emptyBatchCount1)
  | _ :: _ => mret (SettledBatch 0 batch)
  end.

(** [if (batch.length < BATCH_SIZE) { ...verification...; if (!batch ||
    batch.length === 0) break; }]: the same text in both loops; [true] is
    the [break]. *)
Definition verify_short (channelId : string) (cursor : option string)
    (batch : list Message) : M bool :=
  if length batch <? BATCH_SIZE then
    verifyBatch ← verify_fetch channelId cursor 300 3 0;
    mret (length (default batch verifyBatch) =? 0)
  else mret false.

(** [if (onProgress && messages.length !== lastReportedCount) { ... }] *)
Definition report_progress (opts : DiscoverOptions) (st : DState) : M DState :=
  if onProgress opts && negb (length (messages st) =? lastReportedCount st)
  then emit (EvProgress (length (messages st)));;
       mret (set_lastReportedCount st (length (messages st)))
  else mret st.

(** [if (batch.length > 0) { ... }]: the cursor moves to the id of the last
    message of the batch; [None] is the [break] taken when that id is the
    cursor already. *)
Definition advance_cursor (batch : list Message) (st : DState) : option DState :=
  match last batch with
  | Some oldest =>
      if truthy (lastMessageId st) && id_is (lastMessageId st) (m_id oldest)
      then None
      else Some (set_lastMessageId st (Some (m_id oldest)))
  | None => Some st
  end.

(** The tail of an iteration of [discoverMessages], after the [for] loop
    over [batch]: progress report, cursor update with the non-advance
    guard, verification of a short page, limit check, delay. *)
Definition after_scan (channelId : string) (opts : DiscoverOptions)
    (batch : list Message) (st : DState) : M (Ctl DState) :=
  st1 ← report_progress opts st;
  match advance_cursor batch st1 with
  | None => mret (Break st1)
  | Some st2 =>
      exhausted ← verify_short channelId (lastMessageId st2) batch;
      if (exhausted : bool) then mret (Break st2)
      else if limit_reached (limit opts) (length (messages st2)) then mret (Break st2)
      else sleep (inject_Z DISCOVERY_DELAY);; mret (Continue st2)
  end.

(** The [for] loop over a settled batch and what follows it. *)
Definition consume_batch (channelId : string) (opts : DiscoverOptions)
    (batch : list Message) (st : DState) : M (Ctl DState) :=
  let st1 := set_lastSuccessfulBatchSize st (length batch) in
  scanned ← scan_batch channelId (userId opts) (limit opts) batch st1;
  match scanned with
  | Return result => mret (Return result)
  | Continue st2 | Break st2 => after_scan channelId opts batch st2
  end.

(** One iteration of the [while (true)] of [discoverMessages]. *)
Definition discover_iteration (channelId : string) (opts : DiscoverOptions)
    (st : DState) : M (Ctl DState) :=
  stopped ← shouldStop channelId;
  if (stopped : bool) then
    activeScans_delete channelId;; mret (Break st)
  else if limit_reached (limit opts) (length (messages st)) then mret (Break st)
  else
    fetched ← fetch_with_retry channelId (lastMessageId st) 5 0;
    match fetched with
    | None =>
        let st1 := set_consecutiveErrors st (S (consecutiveErrors st)) in
        if MAX_CONSECUTIVE_ERRORS <=? consecutiveErrors st1 then mret (Break st1)
        else sleep 1000;; mret (Continue st1)
    | Some batch =>
        let st1 := set_consecutiveErrors st 0 in
        settled ← settle_batch channelId (lastMessageId st1) (emptyBatchCount st1) batch;
        match settled with
        | SettledBreak n => mret (Break (set_emptyBatchCount st1 n))
        | SettledContinue n => mret (Continue (set_emptyBatchCount st1 n))
        | SettledBatch n batch1 =>
            consume_batch channelId opts batch1 (set_emptyBatchCount st1 n)
        end
    end.

Fixpoint discover_loop (fuel : nat) (channelId : string) (opts : DiscoverOptions)
    (st : DState) : M Outcome :=
  match fuel with
  | O => mret (OutOfFuel (messages st))
  | S fuel' =>
      ctl ← discover_iteration channelId opts st;
      match ctl with
      | Continue st' => discover_loop fuel' channelId opts st'
      | Break st' => activeScans_delete channelId;; mret (Finished (messages st'))
      | Return result => mret (Finished result)
      end
  end.

(** The locals of [discoverRangeMessages]. *)
Record RState := {
  r_messages : list Message;
  r_lastMessageId : option string;
  collecting : bool;
  foundBoundary : bool;
  r_emptyBatchCount : nat;
  r_seenMessageIds : gset string
}.

(** [let collecting = afterId && !beforeId] *)
Definition initial_RState (afterId beforeId : option string) : RState :=
  {| r_messages := []; r_lastMessageId := None;
     collecting := truthy afterId && negb (truthy beforeId);
     foundBoundary := false; r_emptyBatchCount := 0; r_seenMessageIds := ∅ |}.

Definition r_see (st : RState) (x : string) : RState :=
  {| r_messages := r_messages st; r_lastMessageId := r_lastMessageId st;
     collecting := collecting st; foundBoundary := foundBoundary st;
     r_emptyBatchCount := r_emptyBatchCount st;
     r_seenMessageIds := {[ x ]} ∪ r_seenMessageIds st |}.

(** [collecting = c; foundBoundary = true; lastMessageId = msg.id] *)
Definition r_boundary (st : RState) (c : bool) (x : string) : RState :=
  {| r_messages := r_messages st; r_lastMessageId := Some x;
     collecting := c; foundBoundary := true;
     r_emptyBatchCount := r_emptyBatchCount st;
     r_seenMessageIds := r_seenMessageIds st |}.

Definition r_set_last (st : RState) (x : string) : RState :=
  {| r_messages := r_messages st; r_lastMessageId := Some x;
     collecting := collecting st; foundBoundary := foundBoundary st;
     r_emptyBatchCount := r_emptyBatchCount st;
     r_seenMessageIds := r_seenMessageIds st |}.

Definition r_push (st : RState) (msg : Message) : RState :=
  {| r_messages := r_messages st ++ [msg]; r_lastMessageId := r_lastMessageId st;
     collecting := collecting st; foundBoundary := foundBoundary st;
     r_emptyBatchCount := r_emptyBatchCount st;
     r_seenMessageIds := r_seenMessageIds st |}.

Definition r_set_empty (st : RState) (n : nat) : RState :=
  {| r_messages := r_messages st; r_lastMessageId := r_lastMessageId st;
     collecting := collecting st; foundBoundary := foundBoundary st;
     r_emptyBatchCount := n;
     r_seenMessageIds := r_seenMessageIds st |}.

(** The body of the [for] loop of [discoverRangeMessages] on a message not
    seen before: [inl] is a [break], [inr] goes on to the next message. *)
Definition range_visit (userId afterId beforeId : option string)
    (msg : Message) (st : RState) : RState + RState :=
  if truthy afterId && negb (truthy beforeId) && id_is afterId (m_id msg) then
    inl (r_boundary st false (m_id msg))
  else if truthy beforeId && negb (truthy afterId) && negb (foundBoundary st) then
    if id_is beforeId (m_id msg) then inr (r_boundary st true (m_id msg))
    else inr (r_set_last st (m_id msg))
  else if truthy afterId && truthy beforeId && id_is beforeId (m_id msg) then
    inr (r_boundary st true (m_id msg))
  else if truthy afterId && truthy beforeId && id_is afterId (m_id msg) then
    inl (r_boundary st false (m_id msg))
  else
    let st1 := if collecting st && author_matches userId msg
               then r_push st msg else st in
    inr (r_set_last st1 (m_id msg)).

(** [for (const msg of batch) { if (shouldStop(channelId)) break; ... }] *)
Fixpoint range_scan_batch (channelId : string) (userId afterId beforeId : option string)
    (batch : list Message) (st : RState) : M RState :=
  match batch with
  | [] => mret st
  | msg :: rest =>
      stopped ← shouldStop channelId;
      if (stopped : bool) then mret st
      else if bool_decide (m_id msg ∈ r_seenMessageIds st) then
        range_scan_batch channelId userId afterId beforeId rest st
      else
        match range_visit userId afterId beforeId msg (r_see st (m_id msg)) with
        | inl st' => mret st'
        | inr st' => range_scan_batch channelId userId afterId beforeId rest st'
        end
  end.

(** The checks after the [for] loop of [discoverRangeMessages]. *)
Definition after_range_scan (channelId : string) (afterId beforeId : option string)
    (batch : list Message) (st : RState) : M (Ctl RState) :=
  if truthy afterId && foundBoundary st && negb (collecting st) then
    mret (Break st)
  else if truthy afterId && truthy beforeId && foundBoundary st
          && negb (collecting st) then
    mret (Break st)
  else if truthy beforeId && negb (truthy afterId) && negb (foundBoundary st)
          && (length batch <? BATCH_SIZE) then
    mret (Break st)
  else
    exhausted ← verify_short channelId (r_lastMessageId st) batch;
    if (exhausted : bool) then mret (Break st)
    else sleep (inject_Z DISCOVERY_DELAY);; mret (Continue st).

(** One iteration of the [while (true)] of [discoverRangeMessages]. *)
Definition range_iteration (channelId : string) (userId afterId beforeId : option string)
    (st : RState) : M (Ctl RState) :=
  stopped ← shouldStop channelId;
  if (stopped : bool) then
    activeScans_delete channelId;; mret (Break st)
  else
    fetched ← fetch_with_retry channelId (r_lastMessageId st) 5 0;
    match fetched with
    | None => mret (Break st)
    | Some batch =>
        settled ← settle_batch channelId (r_lastMessageId st) (r_emptyBatchCount st) batch;
        match settled with
        | SettledBreak n => mret (Break (r_set_empty st n))
        | SettledContinue n => mret (Continue (r_set_empty st n))
        | SettledBatch n batch1 =>
            st1 ← range_scan_batch channelId userId afterId beforeId batch1
                    (r_set_empty st n);
            after_range_scan channelId afterId beforeId batch1 st1
        end
    end.

Fixpoint range_loop (fuel : nat) (channelId : string) (userId afterId beforeId : option string)
    (st : RState) : M Outcome :=
  match fuel with
  | O => mret (OutOfFuel (r_messages st))
  | S fuel' =>
      ctl ← range_iteration channelId userId afterId beforeId st;
      match ctl with
      | Continue st' => range_loop fuel' channelId userId afterId beforeId st'
      | Break st' => activeScans_delete channelId;; mret (Finished (r_messages st'))
      | Return result => mret (Finished result)
      end
  end.

Definition discoverRangeMessages (fuel : nat) (channelId : string)
    (userId afterId beforeId : option string) : M Outcome :=
  range_loop fuel channelId userId afterId beforeId (initial_RState afterId beforeId).

Definition discoverMessages (fuel : nat) (channelId : string) (opts : DiscoverOptions)
  : M Outcome :=
  stopped ← shouldStop channelId;
  if (stopped : bool) then
    activeScans_delete channelId;; mret (Finished [])
  else if truthy (afterId opts) || truthy (beforeId opts) then
    discoverRangeMessages fuel channelId (userId opts) (afterId opts) (beforeId opts)
  else discover_loop fuel channelId opts initial_DState.

End Tasks.

(** ** Deletion *)

Record Channel := { channel_type : Z }.

(** The collaborators read by the plugin: [UserStore.getCurrentUser().id],
    [ChannelStore.getChannel], [PermissionStore.can(MANAGE_MESSAGES, _)]
    and [settings.store.deleteDelay]. *)
Record Env := {
  currentUserId : string;
  getChannel : string -> option Channel;
  can_manage : Channel -> bool;
  deleteDelay : option Q
}.

Definition isDM (env : Env) (channelId : string) : bool :=
  match getChannel env channelId with
  | Some channel => (channel_type channel =? 1)%Z || (channel_type channel =? 3)%Z
  | None => false
  end.

Definition canManageMessages (env : Env) (channelId : string) : bool :=
  if isDM env channelId then false
  else match getChannel env channelId with
       | Some channel => can_manage env channel
       | None => false
       end.

(** [purge.stop], read through the reference. *)
Definition purge_stopped (purge : nat) (s : Store) : bool :=
  match heap s !! purge with
  | Some p => stop p
  | None => false
  end.

Definition update_purge (purge : nat) (f : ActivePurge -> ActivePurge) (s : Store) : Store :=
  {| heap := alter f purge (heap s); next_ref := next_ref s;
     activePurges := activePurges s;
     pendingConfirmations := pendingConfirmations s;
     activeScans := activeScans s |}.

Definition with_deleted (n : nat) (p : ActivePurge) : ActivePurge :=
  {| stop := stop p; deleted := n; failed := failed p |}.

Definition with_failed (n : nat) (p : ActivePurge) : ActivePurge :=
  {| stop := stop p; deleted := deleted p; failed := n |}.

(** [excludeIds?.has(id)] *)
Definition excluded (excludeIds : option (gset string)) (x : string) : bool :=
  match excludeIds with
  | Some ids => bool_decide (x ∈ ids)
  | None => false
  end.

(** [settings.store.deleteDelay || 200] *)
Definition deletionDelay (env : Env) : Q :=
  match deleteDelay env with
  | Some d => if Qeq_bool d 0 then 200%Q else d
  | None => 200%Q
  end.

Section Purge.

Variable w : World.
Variable env : Env.

(** [for (let i = ...; i < messages.length; i++) { ... }] of [executePurge],
    at index [i] with [rest] still to visit; [total] is [messages.length]. *)
Fixpoint purge_loop (channelId : string) (purge : nat) (canDeleteOthers : bool)
    (excludeIds : option (gset string)) (total : nat)
    (rest : list Message) (i deleted failed : nat) : M (nat * nat) :=
  match rest with
  | [] => mret (deleted, failed)
  | msg :: rest' =>
      s ← getStore;
      if purge_stopped purge s then mret (deleted, failed)
      else if excluded excludeIds (m_id msg) then
        purge_loop channelId purge canDeleteOthers excludeIds total rest' (S i) deleted failed
      else
        let isOwnMessage :=
          match m_author msg with
          | Some a => String.eqb a (currentUserId env)
          | None => false
          end in
        if negb isOwnMessage && negb canDeleteOthers then
          purge_loop channelId purge canDeleteOthers excludeIds total rest' (S i) deleted failed
        else
          ok ← RestAPI_del w channelId (m_id msg);
          if (ok : bool) then
            modifyStore (update_purge purge (with_deleted (S deleted)));;
            (if i <? total - 1 then sleep w (deletionDelay env) else mret tt);;
            purge_loop channelId purge canDeleteOthers excludeIds total rest' (S i)
              (S deleted) failed
          else
            modifyStore (update_purge purge (with_failed (S failed)));;
            purge_loop channelId purge canDeleteOthers excludeIds total rest' (S i)
              deleted (S failed)
  end.

(** [executePurge]: the pair is [{ deleted, failed }]. *)
Definition executePurge (channelId : string) (messages : list Message)
    (canDeleteOthers : bool) (excludeIds : option (gset string)) : M (nat * nat) :=
  s ← getStore;
  match activePurges s !! channelId with
  | None => mret (0, 0)
  | Some purge =>
      purge_loop channelId purge canDeleteOthers excludeIds (length messages)
        messages 0 0 0
  end.

(** ** The orchestrator *)

(** [const purge = { stop: false, deleted: 0, failed: 0 };
     activePurges.set(channelId, purge)] *)
Definition start_purge (channelId : string) (s : Store) : Store :=
  {| heap := <[ next_ref s := {| stop := false; deleted := 0; failed := 0 |} ]> (heap s);
     next_ref := S (next_ref s);
     activePurges := <[ channelId := next_ref s ]> (activePurges s);
     pendingConfirmations := pendingConfirmations s;
     activeScans := activeScans s |}.

(** [activePurges.delete(channelId)] *)
Definition end_purge (channelId : string) (s : Store) : Store :=
  {| heap := heap s; next_ref := next_ref s;
     activePurges := delete channelId (activePurges s);
     pendingConfirmations := pendingConfirmations s;
     activeScans := activeScans s |}.

(** [pendingConfirmations.delete(channelId)] *)
Definition delete_pending (channelId : string) (s : Store) : Store :=
  {| heap := heap s; next_ref := next_ref s; activePurges := activePurges s;
     pendingConfirmations := delete channelId (pendingConfirmations s);
     activeScans := activeScans s |}.

(** [pendingConfirmations.set(channelId, c)] *)
Definition set_pending (channelId : string) (c : PendingConfirmation) (s : Store) : Store :=
  {| heap := heap s; next_ref := next_ref s; activePurges := activePurges s;
     pendingConfirmations := <[ channelId := c ]> (pendingConfirmations s);
     activeScans := activeScans s |}.

(** [activeScans.set(channelId, { stop: false })] *)
Definition start_scan (channelId : string) (s : Store) : Store :=
  {| heap := heap s; next_ref := next_ref s; activePurges := activePurges s;
     pendingConfirmations := pendingConfirmations s;
     activeScans := <[ channelId := {| scan_stop := false |} ]> (activeScans s) |}.

(** Whether an asynchronous task ran to its end within the fuel. *)
Inductive TaskEnd := TaskDone | TaskRunning.

(** The [try] block of [runPurge]: discovery, deletion, report.  Nothing
    in the model throws past the retry loops, so the [catch] branch is not
    reached. *)
Definition purge_task (fuel : nat) (channelId : string) (opts : DiscoverOptions)
    (canDeleteOthers : bool) (excludeIds : option (gset string))
    (rangeText : option RangeText) : M TaskEnd :=
  found ← discoverMessages w fuel channelId opts;
  match found with
  | OutOfFuel _ => mret TaskRunning
  | Finished [] =>
      modifyStore (end_purge channelId);;
      sendBotMessage channelId (NoMessagesFound rangeText);;
      mret TaskDone
  | Finished messages =>
      result ← executePurge channelId messages canDeleteOthers excludeIds;
      modifyStore (end_purge channelId);;
      sendBotMessage channelId (PurgeResult (fst result) (snd result));;
      mret TaskDone
  end.

(** [runPurge]: the [PurgeState] is created and registered before the
    [try] block is entered, in the turn of the caller. *)
Definition runPurge (fuel : nat) (channelId : string) (opts : DiscoverOptions)
    (canDeleteOthers : bool) (excludeIds : option (gset string))
    (rangeText : option RangeText) : M TaskEnd :=
  modifyStore (start_purge channelId);;
  purge_task fuel channelId opts canDeleteOthers excludeIds rangeText.

(** [confirmation.excludeIds?.size ? messages.filter(...) : messages] *)
Definition filter_excluded (excludeIds : option (gset string)) (messages : list Message)
  : list Message :=
  match excludeIds with
  | Some ids =>
      if size ids =? 0 then messages
      else List.filter (fun msg => negb (bool_decide (m_id msg ∈ ids))) messages
  | None => messages
  end.

(** The asynchronous block started by a successful [confirm]. *)
Definition confirmed_purge (fuel : nat) (channelId : string)
    (confirmation : PendingConfirmation) : M TaskEnd :=
  found ← discoverMessages w fuel channelId
            {| userId := if truthy (pc_userId confirmation)
                         then pc_userId confirmation else None;
               afterId := None; beforeId := None; limit := None;
               onProgress := false |};
  match found with
  | OutOfFuel _ => mret TaskRunning
  | Finished messages =>
      match filter_excluded (pc_excludeIds confirmation) messages with
      | [] =>
          modifyStore (end_purge channelId);;
          sendBotMessage channelId NoMessagesToDelete;;
          mret TaskDone
      | filteredMessages =>
          result ← executePurge channelId filteredMessages
                     (canManageMessages env channelId) (pc_excludeIds confirmation);
          modifyStore (end_purge channelId);;
          sendBotMessage channelId (PurgeResult (fst result) (snd result));;
          mret TaskDone
      end
  end.

(** [count % 100 === 0 || count === 1 ||
     (now - lastUpdateTime) >= PROGRESS_UPDATE_INTERVAL]: whether the
    [onProgress] callback of an "all" request sends its message. *)
Definition progress_update (count : nat) (now lastUpdateTime : Z) : bool :=
  (count mod 100 =? 0) || (count =? 1)
  || (PROGRESS_UPDATE_INTERVAL <=? now - lastUpdateTime)%Z.

(** The calls of that callback along the events of a discovery.  Each
    [EvProgress count] is one call: it reads the clock and, when
    [progress_update] holds, sends "Scanning messages... (count found so
    far)" and sets [lastUpdateTime].  [k] counts the calls made so far. *)
Fixpoint onProgress_calls (channelId : string) (k : nat) (lastUpdateTime : Z)
    (events : list Event) : list Event :=
  match events with
  | [] => []
  | EvProgress count :: rest =>
      let now := dateNow w k in
      if progress_update count now lastUpdateTime
      then EvProgress count :: EvSend channelId (ScanProgress count)
           :: onProgress_calls channelId (S k) now rest
      else EvProgress count :: onProgress_calls channelId (S k) lastUpdateTime rest
  | e :: rest => e :: onProgress_calls channelId k lastUpdateTime rest
  end.

(** [let lastUpdateTime = 0; discoverMessages(channelId, { userId,
    onProgress: (count) => { ... } })].  The callback only reads the clock
    and sends a bot message: it neither suspends nor touches the maps, so
    discovery runs as without it and its messages enter the trace right
    after the progress event that stands for the call. *)
Definition scan_discovery (fuel : nat) (channelId : string)
    (scanUserId : option string) : M Outcome :=
  fun r =>
    let run := discoverMessages w fuel channelId
                 {| userId := scanUserId; afterId := None; beforeId := None;
                    limit := None; onProgress := true |} r in
    (run.1,
     {| clock := clock run.2; store := store run.2;
        trace := trace r
                 ++ onProgress_calls channelId 0 0%Z
                      (drop (length (trace r)) (trace run.2)) |}).

(** [discoverMessages(channelId, { userId, onProgress }).then(messages => ...)]
    of an "all" request.  As in [runPurge], nothing in the model rejects
    the promise, so the [catch] handler is not reached. *)
Definition scan_all (fuel : nat) (channelId : string) (scanUserId : option string)
    (mode : Mode) (excludeIds : gset string) : M TaskEnd :=
  found ← scan_discovery fuel channelId scanUserId;
  match found with
  | OutOfFuel _ => mret TaskRunning
  | Finished messages =>
      match List.filter (fun msg => negb (bool_decide (m_id msg ∈ excludeIds))) messages with
      | [] =>
          sendBotMessage channelId NoMessagesToDelete;;
          mret TaskDone
      | filteredMessages =>
          modifyStore (set_pending channelId
                         {| pc_count := length filteredMessages;
                            pc_userId := scanUserId; pc_mode := mode;
                            pc_excludeIds := Some excludeIds |});;
          sendBotMessage channelId (ScanComplete (length filteredMessages));;
          mret TaskDone
      end
  end.

End Purge.

(** ** The command handler *)

(** The white space removed by [trim] and skipped by [parseInt]: the
    [WhiteSpace] and [LineTerminator] characters of ECMAScript, by the
    length of their UTF-8 encoding.  One byte: TAB, LF, VT, FF, CR and
    SP. *)
Definition is_space1 (c : ascii) : bool :=
  let n := nat_of_ascii c in
  (n =? 32) || ((9 <=? n) && (n <=? 13)).

(** Two bytes: U+00A0 (C2 A0). *)
Definition is_space2 (c1 c2 : ascii) : bool :=
  (nat_of_ascii c1 =? 194) && (nat_of_ascii c2 =? 160).

(** Three bytes: U+1680 (E1 9A 80), U+2000 to U+200A (E2 80 80 to
    E2 80 8A), U+2028, U+2029 and U+202F (E2 80 A8, A9 and AF), U+205F
    (E2 81 9F), U+3000 (E3 80 80) and U+FEFF (EF BB BF). *)
Definition is_space3 (c1 c2 c3 : ascii) : bool :=
  let n1 := nat_of_ascii c1 in
  let n2 := nat_of_ascii c2 in
  let n3 := nat_of_ascii c3 in
  ((n1 =? 225) && (n2 =? 154) && (n3 =? 128))
  || ((n1 =? 226) && (n2 =? 128)
      && (((128 <=? n3) && (n3 <=? 138)) || (n3 =? 168) || (n3 =? 169) || (n3 =? 175)))
  || ((n1 =? 226) && (n2 =? 129) && (n3 =? 159))
  || ((n1 =? 227) && (n2 =? 128) && (n3 =? 128))
  || ((n1 =? 239) && (n2 =? 187) && (n3 =? 191)).

(** The number of bytes of the white-space character [l] begins with; 0
    when it begins with none.  [p1], [p2] and [p3] recognise the
    encodings of one, two and three bytes. *)
Definition space_ahead (p1 : ascii -> bool) (p2 : ascii -> ascii -> bool)
    (p3 : ascii -> ascii -> ascii -> bool) (l : list ascii) : nat :=
  match l with
  | c1 :: l1 =>
      if p1 c1 then 1
      else match l1 with
           | c2 :: l2 =>
               if p2 c1 c2 then 2
               else match l2 with
                    | c3 :: _ => if p3 c1 c2 c3 then 3 else 0
                    | [] => 0
                    end
           | [] => 0
           end
  | [] => 0
  end.

Fixpoint drop_ahead (p1 : ascii -> bool) (p2 : ascii -> ascii -> bool)
    (p3 : ascii -> ascii -> ascii -> bool) (l : list ascii) : list ascii :=
  match l with
  | c1 :: l1 =>
      if p1 c1 then drop_ahead p1 p2 p3 l1
      else match l1 with
           | c2 :: l2 =>
               if p2 c1 c2 then drop_ahead p1 p2 p3 l2
               else match l2 with
                    | c3 :: l3 => if p3 c1 c2 c3 then drop_ahead p1 p2 p3 l3 else l
                    | [] => l
                    end
           | [] => l
           end
  | [] => []
  end.

(** White space at the start of a text. *)
Definition leading_space (l : list ascii) : nat :=
  space_ahead is_space1 is_space2 is_space3 l.

Definition drop_spaces (l : list ascii) : list ascii :=
  drop_ahead is_space1 is_space2 is_space3 l.

(** White space at the end of a text, read backwards. *)
Definition trailing_space (l : list ascii) : nat :=
  space_ahead is_space1 (fun c2 c1 => is_space2 c1 c2)
    (fun c3 c2 c1 => is_space3 c1 c2 c3) (rev l).

Definition drop_spaces_back (l : list ascii) : list ascii :=
  rev (drop_ahead is_space1 (fun c2 c1 => is_space2 c1 c2)
         (fun c3 c2 c1 => is_space3 c1 c2 c3) (rev l)).

(** [s.trim()] *)
Definition trim (l : list ascii) : list ascii :=
  drop_spaces_back (drop_spaces l).

(** [s.split(sep)] for a one-character separator class. *)
Fixpoint split_chars (sep : ascii -> bool) (cur : list ascii) (l : list ascii)
  : list (list ascii) :=
  match l with
  | [] => [rev cur]
  | c :: l' =>
      if sep c then rev cur :: split_chars sep [] l'
      else split_chars sep (c :: cur) l'
  end.

Definition is_separator (c : ascii) : bool :=
  (nat_of_ascii c =? 44) || (nat_of_ascii c =? 32).

(** [parseExcludeIds]: splitting at every separator instead of at every
    run of separators only adds empty pieces, which the filter drops. *)
Definition parseExcludeIds (excludeStr : option string) : gset string :=
  if truthy excludeStr then
    list_to_set
      (List.map string_of_list_ascii
         (List.filter (fun piece => negb (length piece =? 0))
            (List.map trim
               (split_chars is_separator []
                  (list_ascii_of_string (default "" excludeStr))))))
  else ∅.

Definition digit_of (c : ascii) : option Z :=
  let n := nat_of_ascii c in
  if (48 <=? n) && (n <=? 57) then Some (Z.of_nat (n - 48)) else None.

Fixpoint parse_digits (l : list ascii) (acc : option Z) : option Z :=
  match l with
  | [] => acc
  | c :: l' =>
      match digit_of c with
      | Some d => parse_digits l' (Some (10 * default 0%Z acc + d)%Z)
      | None => acc
      end
  end.

(** [parseInt(s, 10)]: leading white space is skipped; [None] is [NaN]. *)
Definition parseInt (s : string) : option Z :=
  match drop_spaces (list_ascii_of_string s) with
  | "-"%char :: l => Z.opp <$> parse_digits l None
  | "+"%char :: l => parse_digits l None
  | l => parse_digits l None
  end.

Definition lower (c : ascii) : ascii :=
  let n := nat_of_ascii c in
  if (65 <=? n) && (n <=? 90) then ascii_of_nat (n + 32) else c.

(** [s.toLowerCase()], exact on ASCII text.  The handler only compares the
    result with "all": a text with a character outside ASCII never
    lower-cases to that, and here it keeps a byte above 127, so the
    comparison reads the same. *)
Definition toLowerCase (s : string) : string :=
  string_of_list_ascii (List.map lower (list_ascii_of_string s)).

(** [formatRangeText] *)
Definition formatRangeText (afterId beforeId : option string) : RangeText :=
  if truthy afterId && truthy beforeId
  then RangeBetween (default "" afterId) (default "" beforeId)
  else if truthy afterId then RangeAfter (default "" afterId)
  else RangeBefore beforeId.

(** The value of the [target] option: a string, or an object with an [id]. *)
Inductive Target :=
| TargetString (s : string)
| TargetObject (id : option string).

(** [opts[0]], typed by the option schema of the command: every option but
    [target] is a STRING and may be missing. *)
Inductive Subcommand :=
| CmdSelf (count after before exclude : option string)
| CmdUser (target : option Target) (count after before exclude : option string)
| CmdAfter (message_id before exclude : option string)
| CmdBefore (message_id after exclude : option string)
| CmdAny (count after before exclude : option string)
| CmdConfirm
| CmdOther.

(** The asynchronous work a command hands over to: the [try] block of
    [runPurge], the block of a confirmed purge, or the scan of an "all"
    request, each from its call of the discovery function.  (The first
    steps of that call, up to the first [await], still run before the
    handler returns; the task starts with them.) *)
Inductive Task :=
| TaskConfirmed (confirmation : PendingConfirmation)
| TaskRunPurge (opts : DiscoverOptions) (canDeleteOthers : bool)
    (excludeIds : gset string) (rangeText : option RangeText)
| TaskScan (scanUserId : option string) (mode : Mode) (excludeIds : gset string).

Definition has_purge (channelId : string) (s : Store) : bool :=
  bool_decide (is_Some (activePurges s !! channelId)).

(** The text shared by the [self], [user] and [any] branches once the
    author filter, the permission and the mode of the branch are fixed.
    [modifyStore (start_purge channelId)] is the first statement of the
    [runPurge] they call. *)
Definition count_or_range (channelId : string) (filterId : option string)
    (canDeleteOthers : bool) (mode : Mode)
    (countStr afterId beforeId excludeStr : option string) : M (option Task) :=
  let excludeIds := parseExcludeIds excludeStr in
  if truthy afterId || truthy beforeId then
    if truthy countStr then
      sendBotMessage channelId CountWithRange;; mret None
    else
      modifyStore (start_purge channelId);;
      mret (Some (TaskRunPurge
                    {| userId := filterId; afterId := afterId; beforeId := beforeId;
                       limit := None; onProgress := false |}
                    canDeleteOthers excludeIds
                    (Some (formatRangeText afterId beforeId))))
  else if negb (truthy countStr) then
    sendBotMessage channelId NeedCountOrRange;; mret None
  else if String.eqb (toLowerCase (default "" countStr)) "all" then
    sendBotMessage channelId ScanningStarted;;
    modifyStore (start_scan channelId);;
    mret (Some (TaskScan filterId mode excludeIds))
  else
    match parseInt (default "" countStr) with
    | Some count =>
        if (count <? 1)%Z then sendBotMessage channelId InvalidCount;; mret None
        else
          modifyStore (start_purge channelId);;
          mret (Some (TaskRunPurge
                        {| userId := filterId; afterId := None; beforeId := None;
                           limit := Some count; onProgress := false |}
                        canDeleteOthers excludeIds None))
    | None => sendBotMessage channelId InvalidCount;; mret None
    end.

(** [execute], from its entry to the call of the discovery function: the
    replies sent and the changes made to the three maps before discovery
    starts.  For a direct purge this includes the start of [runPurge],
    which is called without [await] and registers the [PurgeState] before
    anything else. *)
Definition execute (env : Env) (subcommand : Subcommand) (channelId : string)
  : M (option Task) :=
  match subcommand with
  | CmdConfirm =>
      s ← getStore;
      match pendingConfirmations s !! channelId with
      | None => sendBotMessage channelId NoPendingConfirmation;; mret None
      | Some confirmation =>
          modifyStore (delete_pending channelId);;
          s1 ← getStore;
          if has_purge channelId s1 then
            sendBotMessage channelId AlreadyInProgress;; mret None
          else
            modifyStore (start_purge channelId);;
            sendBotMessage channelId (StartingPurge (pc_count confirmation));;
            mret (Some (TaskConfirmed confirmation))
      end
  | _ =>
      s ← getStore;
      if has_purge channelId s then
        sendBotMessage channelId AlreadyInProgress;; mret None
      else
        match subcommand with
        | CmdSelf countStr afterId beforeId excludeStr =>
            count_or_range channelId (Some (currentUserId env)) false ModeSelf
              countStr afterId beforeId excludeStr
        | CmdUser targetUser countStr afterId beforeId excludeStr =>
            if isDM env channelId then
              sendBotMessage channelId GuildOnly;; mret None
            else if negb (canManageMessages env channelId) then
              sendBotMessage channelId NeedManageMessages;; mret None
            else
              match targetUser with
              | Some (TargetString targetUserId) =>
                  count_or_range channelId (Some targetUserId) true ModeUser
                    countStr afterId beforeId excludeStr
              | Some (TargetObject (Some targetUserId)) =>
                  if truthy (Some targetUserId) then
                    count_or_range channelId (Some targetUserId) true ModeUser
                      countStr afterId beforeId excludeStr
                  else sendBotMessage channelId InvalidUser;; mret None
              | _ => sendBotMessage channelId InvalidUser;; mret None
              end
        | CmdAny countStr afterId beforeId excludeStr =>
            let canDeleteOthers :=
              negb (isDM env channelId) && canManageMessages env channelId in
            if negb canDeleteOthers then
              sendBotMessage channelId AnyNeedsPermission;; mret None
            else
              count_or_range channelId None canDeleteOthers ModeSelf
                countStr afterId beforeId excludeStr
        | CmdAfter messageId beforeId excludeStr =>
            let excludeIds := parseExcludeIds excludeStr in
            if negb (truthy messageId) then
              sendBotMessage channelId InvalidMessageId;; mret None
            else
              let canDeleteOthers :=
                negb (isDM env channelId) && canManageMessages env channelId in
              modifyStore (start_purge channelId);;
              mret (Some (TaskRunPurge
                            {| userId := if canDeleteOthers then None
                                         else Some (currentUserId env);
                               afterId := messageId; beforeId := beforeId;
                               limit := None; onProgress := false |}
                            canDeleteOthers excludeIds
                            (Some (formatRangeText messageId beforeId))))
        | CmdBefore messageId afterId excludeStr =>
            let excludeIds := parseExcludeIds excludeStr in
            if negb (truthy messageId) then
              sendBotMessage channelId InvalidMessageId;; mret None
            else
              let canDeleteOthers :=
                negb (isDM env channelId) && canManageMessages env channelId in
              modifyStore (start_purge channelId);;
              mret (Some (TaskRunPurge
                            {| userId := if canDeleteOthers then None
                                         else Some (currentUserId env);
                               afterId := if truthy afterId then afterId else None;
                               beforeId := messageId;
                               limit := None; onProgress := false |}
                            canDeleteOthers excludeIds
                            (Some (formatRangeText afterId messageId))))
        | _ => mret None
        end
  end.

(** The work of a task, from its start. *)
Definition run_task (w : World) (env : Env) (fuel : nat) (channelId : string)
    (task : Task) : M TaskEnd :=
  match task with
  | TaskConfirmed confirmation => confirmed_purge w env fuel channelId confirmation
  | TaskRunPurge opts canDeleteOthers excludeIds rangeText =>
      purge_task w env fuel channelId opts canDeleteOthers (Some excludeIds) rangeText
  | TaskScan scanUserId mode excludeIds =>
      scan_all w fuel channelId scanUserId mode excludeIds
  end.

(** A command run to the end of its task, with nothing else interleaved
    but the world's interference. *)
Definition handle (w : World) (env : Env) (fuel : nat) (subcommand : Subcommand)
    (channelId : string) : M TaskEnd :=
  task ← execute env subcommand channelId;
  match task with
  | Some t => run_task w env fuel channelId t
  | None => mret TaskDone
  end.

Local Close Scope string_scope.

(** * Reasoning about runs *)

(** [triple I c Q]: from a run satisfying [I], the computation [c] returns
    a value satisfying [Q] and leaves a run satisfying [I]. *)
Definition triple {A} (I : Run -> Prop) (c : M A) (Q : A -> Prop) : Prop :=
  forall r, I r -> Q (c r).1 /\ I (c r).2.

Lemma triple_ret {A} (I : Run -> Prop) (a : A) (Q : A -> Prop) :
  Q a -> triple I (mret a) Q.
Proof. intros Ha r Hr. split; assumption. Qed.

Lemma triple_bind {A B} (I : Run -> Prop) (c : M A) (k : A -> M B)
    (P : A -> Prop) (Q : B -> Prop) :
  triple I c P ->
  (forall a, P a -> triple I (k a) Q) ->
  triple I (c ≫= k) Q.
Proof.
  intros Hc Hk r Hr. unfold mbind, M_bind.
  destruct (Hc r Hr) as [Ha Hr']. destruct (c r) as [a r']. simpl in *.
  apply Hk; assumption.
Qed.

Lemma triple_weaken {A} (I : Run -> Prop) (c : M A) (P Q : A -> Prop) :
  triple I c P -> (forall a, P a -> Q a) -> triple I c Q.
Proof. intros Hc HPQ r Hr. destruct (Hc r Hr). split; auto. Qed.

(** Sequencing after a computation of which only the invariant matters. *)
Lemma triple_seq {A B} (I : Run -> Prop) (c : M A) (k : A -> M B) (Q : B -> Prop) :
  triple I c (fun _ => True) ->
  (forall a, triple I (k a) Q) ->
  triple I (c ≫= k) Q.
Proof.
  intros Hc Hk. apply triple_bind with (P := fun _ => True);
    [exact Hc | intros a _; apply Hk].
Qed.

Definition quiet_event (e : Event) : Prop :=
  match e with
  | EvProgress _ => False
  | _ => True
  end.

(** Invariants that the steps of a discovery keep: a suspension, an event
    other than a progress report, the removal of the scan state. *)
Record stable (w : World) (I : Run -> Prop) : Prop := {
  stable_suspend : forall r, I r -> I (suspend w r).2;
  stable_emit : forall e r, quiet_event e -> I r -> I (emit e r).2;
  stable_delete_scan : forall c r, I r -> I (modifyStore (delete_scan c) r).2
}.

Definition any_run : Run -> Prop := fun _ => True.

Lemma stable_any_run w : stable w any_run.
Proof. split; intros; exact I. Qed.

Section StableSteps.

Variable w : World.
Variable I : Run -> Prop.
Hypothesis HI : stable w I.

(** A property of every message the list endpoint ever returns. *)
Variable Pm : Message -> Prop.
Hypothesis HPm : forall t channelId q body,
  restGet w t channelId q = Resolved (Some body) -> Forall Pm body.

Lemma shouldStop_keeps channelId : triple I (shouldStop channelId) (fun _ => True).
Proof. intros r Hr. split; [exact Logic.I | exact Hr]. Qed.

Lemma activeScans_delete_keeps channelId :
  triple I (activeScans_delete channelId) (fun _ => True).
Proof. intros r Hr. split; [exact Logic.I | apply (stable_delete_scan w I HI), Hr]. Qed.

Lemma emit_keeps e : quiet_event e -> triple I (emit e) (fun _ => True).
Proof. intros He r Hr. split; [exact Logic.I | apply (stable_emit w I HI); assumption]. Qed.

Lemma suspend_keeps : triple I (suspend w) (fun _ => True).
Proof. intros r Hr. split; [exact Logic.I | apply (stable_suspend w I HI), Hr]. Qed.

Lemma sleep_keeps ms : triple I (sleep w ms) (fun _ => True).
Proof.
  unfold sleep. apply triple_seq; [apply emit_keeps; exact Logic.I |].
  intros _. apply suspend_keeps.
Qed.

(** The answer to a [get] is the world's, at some instant. *)
Lemma RestAPI_get_keeps channelId q :
  triple I (RestAPI_get w channelId q) (fun v => exists t, v = restGet w t channelId q).
Proof.
  intros r Hr. unfold RestAPI_get, now, mbind, M_bind, mret, M_ret. simpl.
  split; [exists (clock r); reflexivity |].
  apply (stable_suspend w I HI (emit (EvGet channelId q) r).2).
  apply (stable_emit w I HI); [exact Logic.I | exact Hr].
Qed.

Definition fetched_ok (v : Thrown + list Message) : Prop :=
  match v with
  | inr batch => Forall Pm batch
  | inl _ => True
  end.

Lemma fetchMessageBatch_keeps channelId before after :
  triple I (fetchMessageBatch w channelId before after) fetched_ok.
Proof.
  unfold fetchMessageBatch. eapply triple_bind; [apply RestAPI_get_keeps |].
  intros v [t ->]. destruct (restGet w t channelId _) as [[body |] | error] eqn:E;
    apply triple_ret; simpl; [eapply HPm, E | apply Forall_nil_2 | exact Logic.I].
Qed.

Definition batch_ok (v : option (list Message)) : Prop :=
  match v with
  | Some batch => Forall Pm batch
  | None => True
  end.

Lemma fetch_with_retry_keeps channelId before attempts : forall retry,
  triple I (fetch_with_retry w channelId before attempts retry) batch_ok.
Proof.
  induction attempts as [| n IH]; intros retry; simpl.
  - apply triple_ret. exact Logic.I.
  - eapply triple_bind; [apply fetchMessageBatch_keeps |].
    intros [error | batch] Hb.
    + apply triple_seq; [apply sleep_keeps | intros _; apply IH].
    + apply triple_ret. exact Hb.
Qed.

Definition verified_ok (v : option (list Message)) : Prop :=
  match v with
  | Some vb => vb <> [] /\ Forall Pm vb
  | None => True
  end.

Lemma verify_fetch_keeps channelId before unit_ms attempts : forall k,
  triple I (verify_fetch w channelId before unit_ms attempts k) verified_ok.
Proof.
  induction attempts as [| n IH]; intros k; simpl.
  - apply triple_ret. exact Logic.I.
  - eapply triple_bind; [apply fetchMessageBatch_keeps |].
    intros [error | [| m vb]] Hb.
    + apply triple_seq; [apply sleep_keeps | intros _; apply IH].
    + apply triple_seq; [apply sleep_keeps | intros _; apply IH].
    + apply triple_ret. split; [discriminate | exact Hb].
Qed.

Definition settled_ok (v : Settled) : Prop :=
  match v with
  | SettledBatch _ batch => batch <> [] /\ Forall Pm batch
  | _ => True
  end.

Lemma settle_batch_keeps channelId cursor n batch :
  Forall Pm batch ->
  triple I (settle_batch w channelId cursor n batch) settled_ok.
Proof.
  intros Hb. unfold settle_batch. destruct batch as [| m batch].
  - destruct (MAX_EMPTY_BATCHES <=? S n).
    + eapply triple_bind with (P := verified_ok).
      * destruct (truthy cursor).
        -- apply verify_fetch_keeps.
        -- apply triple_ret. exact Logic.I.
      * intros [vb |] Hv; apply triple_ret; [exact Hv | exact Logic.I].
    + apply triple_seq; [apply sleep_keeps |]. intros _. apply triple_ret. exact Logic.I.
  - apply triple_ret. split; [discriminate | exact Hb].
Qed.

Lemma verify_short_keeps channelId cursor batch :
  triple I (verify_short w channelId cursor batch) (fun _ => True).
Proof.
  unfold verify_short. destruct (length batch <? BATCH_SIZE).
  - apply triple_seq.
    + eapply triple_weaken; [apply verify_fetch_keeps | trivial].
    + intros v. apply triple_ret. exact Logic.I.
  - apply triple_ret. exact Logic.I.
Qed.

End StableSteps.

(** Nothing is asked of the responses. *)
Definition any_message : Message -> Prop := fun _ => True.

Lemma any_response (w : World) t channelId q body :
  restGet w t channelId q = Resolved (Some body) -> Forall any_message body.
Proof. intros _. apply Forall_forall. intros m _. exact Logic.I. Qed.

(** * Invariants of the pagination loop *)

Section PlainInvariant.

Variable w : World.
Variable I : Run -> Prop.
Hypothesis HI : stable w I.
Hypothesis HIp : forall n r, I r -> I (emit (EvProgress n) r).2.

Variable channelId : string.
Variable opts : DiscoverOptions.

(** A property of the collected messages and the seen set that every
    visit of a new message keeps; a push only happens below the limit. *)
Variable Inv : list Message -> gset string -> Prop.
Hypothesis Inv_see : forall msgs seen msg,
  Inv msgs seen -> m_id msg ∉ seen -> Inv msgs ({[ m_id msg ]} ∪ seen).
Hypothesis Inv_push : forall msgs seen msg,
  Inv msgs seen -> m_id msg ∉ seen ->
  limit_reached (limit opts) (length msgs) = false ->
  Inv (msgs ++ [msg]) ({[ m_id msg ]} ∪ seen).

Definition holds (st : DState) : Prop := Inv (messages st) (seenMessageIds st).

Definition below (st : DState) : Prop :=
  limit_reached (limit opts) (length (messages st)) = false.

Definition result_holds (msgs : list Message) : Prop := exists seen, Inv msgs seen.

Definition scanned_holds (c : Ctl DState) : Prop :=
  match c with
  | Continue st => holds st /\ below st
  | Break st => holds st
  | Return result => result_holds result
  end.

Definition ctl_holds (c : Ctl DState) : Prop :=
  match c with
  | Continue st | Break st => holds st
  | Return result => result_holds result
  end.

Lemma scan_batch_inv batch : forall st,
  holds st -> below st ->
  triple I (scan_batch channelId (userId opts) (limit opts) batch st) scanned_holds.
Proof.
  induction batch as [| msg rest IH]; intros st Hst Hlim; simpl.
  - apply triple_ret. split; assumption.
  - apply triple_seq; [apply shouldStop_keeps |]. intros [|].
    + apply triple_seq; [apply (activeScans_delete_keeps w I HI) |].
      intros _. apply triple_ret. exists (seenMessageIds st). exact Hst.
    + destruct (bool_decide_reflect (m_id msg ∈ seenMessageIds st)) as [Hin | Hnew].
      * apply IH; assumption.
      * destruct (author_matches (userId opts) msg); simpl.
        -- pose proof (Inv_push _ _ msg Hst Hnew Hlim) as Hok.
           destruct (limit_reached (limit opts) (length (messages st ++ [msg]))) eqn:E.
           ++ apply triple_ret. exact Hok.
           ++ apply IH; [exact Hok | exact E].
        -- apply IH; [apply Inv_see; assumption | exact Hlim].
Qed.

Lemma report_progress_inv st :
  holds st -> triple I (report_progress opts st) holds.
Proof.
  intros Hst. unfold report_progress.
  destruct (onProgress opts && negb (length (messages st) =? lastReportedCount st)).
  - apply triple_seq.
    + intros r Hr. split; [exact Logic.I | apply HIp, Hr].
    + intros _. apply triple_ret. exact Hst.
  - apply triple_ret. exact Hst.
Qed.

Lemma advance_cursor_inv batch st st' :
  holds st -> advance_cursor batch st = Some st' -> holds st'.
Proof.
  unfold advance_cursor. intros Hst.
  destruct (last batch) as [oldest |]; [| intros [= <-]; exact Hst].
  destruct (truthy (lastMessageId st) && id_is (lastMessageId st) (m_id oldest));
    [discriminate | intros [= <-]; exact Hst].
Qed.

Lemma after_scan_inv batch st :
  holds st -> triple I (after_scan w channelId opts batch st) ctl_holds.
Proof.
  intros Hst. unfold after_scan.
  eapply triple_bind; [apply report_progress_inv, Hst |].
  intros st1 Hst1. destruct (advance_cursor batch st1) as [st2 |] eqn:E.
  - pose proof (advance_cursor_inv _ _ _ Hst1 E) as Hst2.
    apply triple_seq;
      [apply (verify_short_keeps w I HI any_message (any_response w)) |].
    intros [|]; [apply triple_ret; exact Hst2 |].
    destruct (limit_reached (limit opts) (length (messages st2)));
      [apply triple_ret; exact Hst2 |].
    apply triple_seq; [apply (sleep_keeps w I HI) |].
    intros _. apply triple_ret. exact Hst2.
  - apply triple_ret. exact Hst1.
Qed.

Lemma consume_batch_inv batch st :
  holds st -> below st ->
  triple I (consume_batch w channelId opts batch st) ctl_holds.
Proof.
  intros Hst Hlim. unfold consume_batch.
  eapply triple_bind; [apply scan_batch_inv; [exact Hst | exact Hlim] |].
  intros [st2 | st2 | result] H2.
  - apply after_scan_inv, H2.
  - apply after_scan_inv, H2.
  - apply triple_ret. exact H2.
Qed.

Lemma discover_iteration_inv st :
  holds st -> triple I (discover_iteration w channelId opts st) ctl_holds.
Proof.
  intros Hst. unfold discover_iteration.
  apply triple_seq; [apply shouldStop_keeps |]. intros [|].
  { apply triple_seq; [apply (activeScans_delete_keeps w I HI) |].
    intros _. apply triple_ret. exact Hst. }
  destruct (limit_reached (limit opts) (length (messages st))) eqn:Hlim;
    [apply triple_ret; exact Hst |].
  eapply triple_bind;
    [apply (fetch_with_retry_keeps w I HI any_message (any_response w)) |].
  intros [batch |] Hb.
  - apply triple_seq;
      [eapply triple_weaken;
         [apply (settle_batch_keeps w I HI any_message (any_response w)), Hb
         | trivial] |].
    intros [n batch1 | n | n].
    + apply consume_batch_inv; [exact Hst | exact Hlim].
    + apply triple_ret. exact Hst.
    + apply triple_ret. exact Hst.
  - cbv zeta.
    match goal with |- context [if ?b then _ else _] => destruct b end;
      [apply triple_ret; exact Hst |].
    apply triple_seq; [apply (sleep_keeps w I HI) |].
    intros _. apply triple_ret. exact Hst.
Qed.

Lemma discover_loop_inv fuel : forall st,
  holds st ->
  triple I (discover_loop w fuel channelId opts st)
    (fun o => result_holds (outcome_messages o)).
Proof.
  induction fuel as [| fuel IH]; intros st Hst; simpl.
  - apply triple_ret. exists (seenMessageIds st). exact Hst.
  - eapply triple_bind; [apply discover_iteration_inv, Hst |].
    intros [st' | st' | result] H'.
    + apply IH, H'.
    + apply triple_seq; [apply (activeScans_delete_keeps w I HI) |].
      intros _. apply triple_ret. exists (seenMessageIds st'). exact H'.
    + apply triple_ret. exact H'.
Qed.

End PlainInvariant.

(** * Invariants of the range loop *)

Section RangeInvariant.

Variable w : World.
Variable I : Run -> Prop.
Hypothesis HI : stable w I.
Variable Pm : Message -> Prop.
Hypothesis HPm : forall t channelId q body,
  restGet w t channelId q = Resolved (Some body) -> Forall Pm body.

Variable channelId : string.
Variables uid aid bid : option string.

(** A property of the locals that the visit of a new message keeps. *)
Variable Inv : RState -> Prop.
Hypothesis Inv_empty : forall st n, Inv st -> Inv (r_set_empty st n).
Hypothesis Inv_visit : forall st msg,
  Inv st -> Pm msg -> m_id msg ∉ r_seenMessageIds st ->
  match range_visit uid aid bid msg (r_see st (m_id msg)) with
  | inl st' | inr st' => Inv st'
  end.

Definition r_ctl_holds (c : Ctl RState) : Prop :=
  match c with
  | Continue st | Break st => Inv st
  | Return _ => False
  end.

Lemma range_scan_batch_inv batch : forall st,
  Inv st -> Forall Pm batch ->
  triple I (range_scan_batch channelId uid aid bid batch st) Inv.
Proof.
  induction batch as [| msg rest IH]; intros st Hst Hb; simpl.
  - apply triple_ret. exact Hst.
  - apply Forall_cons in Hb. destruct Hb as [Hm Hrest].
    apply triple_seq; [apply shouldStop_keeps |]. intros [|].
    + apply triple_ret. exact Hst.
    + destruct (bool_decide_reflect (m_id msg ∈ r_seenMessageIds st)) as [Hin | Hnew].
      * apply IH; assumption.
      * pose proof (Inv_visit st msg Hst Hm Hnew) as Hv.
        destruct (range_visit uid aid bid msg (r_see st (m_id msg))) as [st' | st'].
        -- apply triple_ret. exact Hv.
        -- apply IH; assumption.
Qed.

Lemma after_range_scan_inv batch st :
  Inv st -> triple I (after_range_scan w channelId aid bid batch st) r_ctl_holds.
Proof.
  intros Hst. unfold after_range_scan.
  repeat match goal with
         | |- triple _ (if ?b then mret _ else _) _ =>
             destruct b; [apply triple_ret; exact Hst |]
         end.
  apply triple_seq; [apply (verify_short_keeps w I HI Pm HPm) |].
  intros [|]; [apply triple_ret; exact Hst |].
  apply triple_seq; [apply (sleep_keeps w I HI) |].
  intros _. apply triple_ret. exact Hst.
Qed.

Lemma range_iteration_inv st :
  Inv st -> triple I (range_iteration w channelId uid aid bid st) r_ctl_holds.
Proof.
  intros Hst. unfold range_iteration.
  apply triple_seq; [apply shouldStop_keeps |]. intros [|].
  { apply triple_seq; [apply (activeScans_delete_keeps w I HI) |].
    intros _. apply triple_ret. exact Hst. }
  eapply triple_bind; [apply (fetch_with_retry_keeps w I HI Pm HPm) |].
  intros [batch |] Hb; [| apply triple_ret; exact Hst].
  eapply triple_bind; [apply (settle_batch_keeps w I HI Pm HPm), Hb |].
  intros [n batch1 | n | n] Hs.
  - destruct Hs as [_ Hb1].
    eapply triple_bind;
      [apply range_scan_batch_inv; [apply Inv_empty, Hst | exact Hb1] |].
    intros st1 Hst1. apply after_range_scan_inv, Hst1.
  - apply triple_ret. apply Inv_empty, Hst.
  - apply triple_ret. apply Inv_empty, Hst.
Qed.

Lemma range_loop_inv fuel : forall st,
  Inv st ->
  triple I (range_loop w fuel channelId uid aid bid st)
    (fun o => exists st', Inv st' /\ outcome_messages o = r_messages st').
Proof.
  induction fuel as [| fuel IH]; intros st Hst; simpl.
  - apply triple_ret. exists st. split; [exact Hst | reflexivity].
  - eapply triple_bind; [apply range_iteration_inv, Hst |].
    intros [st' | st' | result] H'.
    + apply IH, H'.
    + apply triple_seq; [apply (activeScans_delete_keeps w I HI) |].
      intros _. apply triple_ret. exists st'. split; [exact H' | reflexivity].
    + destruct H'.
Qed.

End RangeInvariant.

(** * No duplicate in a discovery result *)

Definition ids (l : list Message) : list string := List.map m_id l.

(** The collected messages have distinct ids, all of them in the seen set. *)
Definition collected_ok (msgs : list Message) (seen : gset string) : Prop :=
  NoDup (ids msgs) /\ forall x, x ∈ ids msgs -> x ∈ seen.

Lemma collected_ok_see msgs seen x :
  collected_ok msgs seen -> collected_ok msgs ({[ x ]} ∪ seen).
Proof.
  intros [Hnd Hsub]. split; [assumption |].
  intros y Hy. apply elem_of_union_r, Hsub, Hy.
Qed.

Lemma collected_ok_push msgs seen msg :
  collected_ok msgs seen -> m_id msg ∉ seen ->
  collected_ok (msgs ++ [msg]) ({[ m_id msg ]} ∪ seen).
Proof.
  intros [Hnd Hsub] Hnew. split.
  - unfold ids. rewrite map_app. simpl. apply NoDup_app. split; [assumption |].
    split; [| apply NoDup_singleton].
    intros y Hy Hy'. apply list_elem_of_singleton in Hy'. subst y.
    apply Hnew, Hsub, Hy.
  - intros y Hy. unfold ids in Hy. rewrite map_app in Hy. simpl in Hy.
    apply elem_of_app in Hy. destruct Hy as [Hy | Hy].
    + apply elem_of_union_r, Hsub, Hy.
    + apply list_elem_of_singleton in Hy. subst y.
      apply elem_of_union_l, elem_of_singleton. reflexivity.
Qed.

Definition RState_ok (st : RState) : Prop :=
  collected_ok (r_messages st) (r_seenMessageIds st).

Lemma range_visit_ok uid aid bid st msg :
  RState_ok st -> m_id msg ∉ r_seenMessageIds st ->
  match range_visit uid aid bid msg (r_see st (m_id msg)) with
  | inl st' | inr st' => RState_ok st'
  end.
Proof.
  intros Hst Hnew. pose proof (collected_ok_see _ _ (m_id msg) Hst) as Hsee.
  pose proof (collected_ok_push _ _ msg Hst Hnew) as Hpush.
  unfold range_visit.
  repeat match goal with
         | |- context [if ?b then _ else _] => destruct b; simpl
         end; first [exact Hsee | exact Hpush].
Qed.

Lemma progress_any_run n r : any_run r -> any_run (emit (EvProgress n) r).2.
Proof. intros _. exact I. Qed.

Lemma range_no_duplicate w fuel channelId uid aid bid :
  triple any_run (discoverRangeMessages w fuel channelId uid aid bid)
    (fun o => NoDup (ids (outcome_messages o))).
Proof.
  unfold discoverRangeMessages. eapply triple_weaken.
  - apply (range_loop_inv w any_run (stable_any_run w) any_message (any_response w)
             channelId uid aid bid RState_ok).
    + intros st n Hst. exact Hst.
    + intros st msg Hst _ Hnew. apply range_visit_ok; assumption.
    + split; [apply NoDup_nil_2 | intros x Hx; inversion Hx].
  - intros o (st' & Hst' & ->). apply Hst'.
Qed.

Lemma plain_no_duplicate w fuel channelId opts :
  triple any_run (discover_loop w fuel channelId opts initial_DState)
    (fun o => NoDup (ids (outcome_messages o))).
Proof.
  eapply triple_weaken.
  - apply (discover_loop_inv w any_run (stable_any_run w) progress_any_run
             channelId opts collected_ok).
    + intros msgs seen msg H _. apply collected_ok_see, H.
    + intros msgs seen msg H Hnew _. apply collected_ok_push; assumption.
    + split; [apply NoDup_nil_2 | intros x Hx; inversion Hx].
  - intros o [seen Hok]. apply Hok.
Qed.

(** C3: whatever the pages fetched are (overlapping, repeated, failing),
    whenever the stop flag is raised and however long the walk has run,
    the records collected by the pagination engine and by the range
    extractor have pairwise distinct ids. *)
Theorem C3_discovery_has_no_duplicate_id
    (w : World) (fuel : nat) (channelId : string) (opts : DiscoverOptions)
    (uid aid bid : option string) (r : Run) :
  NoDup (ids (outcome_messages (discoverMessages w fuel channelId opts r).1)) /\
  NoDup (ids (outcome_messages
                (discoverRangeMessages w fuel channelId uid aid bid r).1)).
Proof.
  split.
  - assert (H : triple any_run (discoverMessages w fuel channelId opts)
                  (fun o => NoDup (ids (outcome_messages o)))).
    { unfold discoverMessages.
      apply triple_seq; [apply shouldStop_keeps |]. intros [|].
      - apply triple_seq;
          [apply (activeScans_delete_keeps w any_run (stable_any_run w)) |].
        intros _. apply triple_ret. apply NoDup_nil_2.
      - destruct (truthy (afterId opts) || truthy (beforeId opts)).
        + apply range_no_duplicate.
        + apply plain_no_duplicate. }
    apply (H r I).
  - apply (range_no_duplicate w fuel channelId uid aid bid r I).
Qed.

(** * A channel history behind the list endpoint *)

(** [BigInt(snowflake)] for a non-empty string of decimal digits. *)
Fixpoint digits_value (l : list ascii) (acc : N) : option N :=
  match l with
  | [] => Some acc
  | c :: l' =>
      match digit_of c with
      | Some d => digits_value l' (10 * acc + Z.to_N d)%N
      | None => None
      end
  end.

Definition snowflake (s : string) : option N :=
  match list_ascii_of_string s with
  | [] => None
  | l => digits_value l 0%N
  end.

(** [a] sorts newer than [b]: both are snowflakes and [a] is the larger. *)
Definition newerb (a b : string) : bool :=
  match snowflake a, snowflake b with
  | Some x, Some y => (y <? x)%N
  | _, _ => false
  end.

Definition newer (a b : string) : Prop := newerb a b = true.

(** A history as the endpoint lists it: snowflake ids, newest first. *)
Fixpoint newest_first (h : list Message) : bool :=
  match h with
  | [] => true
  | m :: h' =>
      bool_decide (is_Some (snowflake (m_id m)))
      && forallb (fun m' => newerb (m_id m) (m_id m')) h'
      && newest_first h'
  end.

(** Modelled from the spec: the list endpoint, which is not part of the
    plugin ("listMessages(channelId, {beforeCursor?, limit<=100}) -> ordered
    sequence of Record (newest->oldest)").  The page answered to a query is
    the (at most) [BATCH_SIZE] newest messages, among those older than
    [before] when it is given.  ([after] is never set by this program.) *)
Definition history_page (h : list Message) (q : Query) : list Message :=
  take BATCH_SIZE
    match q_before q with
    | Some c => List.filter (fun m => newerb c (m_id m)) h
    | None => h
    end.

(** The list endpoint serves the history [h] and never fails. *)
Definition serves (h : list Message) (w : World) : Prop :=
  forall t channelId q, restGet w t channelId q = Resolved (Some (history_page h q)).

(** Nothing raises a stop flag of the channel while the task is suspended. *)
Definition uncancelled (channelId : string) (w : World) : Prop :=
  forall t s, should_stop channelId s = false ->
              should_stop channelId (interfere w t s) = false.

Definition history_world (h : list Message) : World :=
  {| restGet := fun _ _ q => Resolved (Some (history_page h q));
     restDel := fun _ _ _ => true;
     interfere := fun _ s => s;
     dateNow := fun _ => 1700000000000%Z |}.

Lemma history_world_serves h : serves h (history_world h).
Proof. intros t c q. reflexivity. Qed.

Lemma history_world_uncancelled channelId h : uncancelled channelId (history_world h).
Proof. intros t s H. exact H. Qed.

(** The page fetched at a cursor. *)
Definition page_at (h : list Message) (cursor : option string) : list Message :=
  history_page h {| q_limit := "100"%string;
                    q_before := if truthy cursor then cursor else None;
                    q_after := None |}.

Lemma newerb_irrefl a : newerb a a = false.
Proof.
  unfold newerb. destruct (snowflake a); [apply N.ltb_irrefl | reflexivity].
Qed.

Lemma newerb_asym a b : newerb a b = true -> newerb b a = false.
Proof.
  unfold newerb. destruct (snowflake a), (snowflake b); try discriminate.
  intros H. apply N.ltb_lt in H. apply N.ltb_ge. lia.
Qed.

Lemma snowflake_truthy x : is_Some (snowflake x) -> truthy (Some x) = true.
Proof.
  intros [n Hn]. unfold truthy. destruct (String.eqb_spec x ""%string); [| reflexivity].
  subst x. discriminate.
Qed.

Lemma newest_first_cons m h :
  newest_first (m :: h) = true ->
  is_Some (snowflake (m_id m))
  /\ Forall (fun m' => newer (m_id m) (m_id m')) h
  /\ newest_first h = true.
Proof.
  simpl. intros H. apply andb_prop in H. destruct H as [H H3].
  apply andb_prop in H. destruct H as [H1 H2].
  split; [apply bool_decide_eq_true in H1; exact H1 |].
  split; [| exact H3].
  apply Forall_forall. intros m' Hm'. unfold newer.
  rewrite forallb_forall in H2. apply H2. apply list_elem_of_In, Hm'.
Qed.

Lemma newest_first_app pre rest :
  newest_first (pre ++ rest) = true ->
  newest_first pre = true /\ newest_first rest = true
  /\ Forall (fun m => Forall (fun m' => newer (m_id m) (m_id m')) rest) pre.
Proof.
  induction pre as [| m pre IH]; intros H.
  - split; [reflexivity |]. split; [exact H | apply Forall_nil_2].
  - change ((m :: pre) ++ rest)%list with (m :: (pre ++ rest))%list in H.
    apply newest_first_cons in H. destruct H as (Hm & Hall & Hrest).
    destruct (IH Hrest) as (Hpre & Hr & Hcross).
    apply Forall_app in Hall. destruct Hall as [Hall1 Hall2].
    split.
    + simpl. rewrite Hpre, andb_true_r. apply andb_true_intro. split.
      * apply bool_decide_eq_true. exact Hm.
      * apply forallb_forall. intros m' Hm'.
        rewrite Forall_forall in Hall1. apply Hall1, list_elem_of_In, Hm'.
    + split; [exact Hr |]. apply Forall_cons. split; assumption.
Qed.

Lemma newest_first_valid h m :
  newest_first h = true -> m ∈ h -> is_Some (snowflake (m_id m)).
Proof.
  induction h as [| m0 h IH]; intros H Hin; [inversion Hin |].
  apply newest_first_cons in H. destruct H as (H0 & _ & Hh).
  apply elem_of_cons in Hin. destruct Hin as [-> | Hin]; [exact H0 | apply IH; assumption].
Qed.

Lemma newest_first_NoDup h : newest_first h = true -> NoDup (ids h).
Proof.
  induction h as [| m h IH]; intros H; [apply NoDup_nil_2 |].
  apply newest_first_cons in H. destruct H as (_ & Hall & Hh).
  simpl. apply NoDup_cons. split; [| apply IH, Hh].
  intros Hin. unfold ids in Hin. apply list_elem_of_fmap in Hin.
  destruct Hin as (m' & Heq & Hm').
  rewrite Forall_forall in Hall. specialize (Hall m' Hm').
  unfold newer in Hall. rewrite Heq, newerb_irrefl in Hall. discriminate.
Qed.

(** Behind a message of the history, the endpoint lists what follows it. *)
Lemma older_than_split pre m rest :
  newest_first (pre ++ m :: rest) = true ->
  List.filter (fun m' => newerb (m_id m) (m_id m')) (pre ++ m :: rest) = rest.
Proof.
  intros H. apply newest_first_app in H. destruct H as (_ & Hmr & Hcross).
  apply newest_first_cons in Hmr. destruct Hmr as (_ & Hall & _).
  rewrite List.filter_app. simpl. rewrite newerb_irrefl.
  assert (Hpre : List.filter (fun m' => newerb (m_id m) (m_id m')) pre = []).
  { clear -Hcross. induction pre as [| p pre IH]; [reflexivity |].
    apply Forall_cons in Hcross. destruct Hcross as [Hp Hrest]. simpl.
    apply Forall_cons in Hp. destruct Hp as [Hp _].
    rewrite (newerb_asym _ _ Hp). apply IH, Hrest. }
  rewrite Hpre. simpl.
  clear -Hall. induction rest as [| p rest IH]; [reflexivity |].
  apply Forall_cons in Hall. destruct Hall as [Hp Hrest]. simpl.
  unfold newer in Hp. rewrite Hp. f_equal. apply IH, Hrest.
Qed.

(** The cursor after the messages [pre] have been walked. *)
Definition cursor_after (pre : list Message) : option string :=
  m_id <$> last pre.

Lemma page_at_cursor pre rest :
  newest_first (pre ++ rest) = true ->
  page_at (pre ++ rest) (cursor_after pre) = take BATCH_SIZE rest.
Proof.
  intros H. unfold page_at, history_page, cursor_after.
  destruct (last pre) as [m |] eqn:E.
  - apply last_Some in E. destruct E as [pre' ->].
    assert (Hm : is_Some (snowflake (m_id m))).
    { apply (newest_first_valid _ m H). apply elem_of_app. left.
      apply elem_of_app. right. apply list_elem_of_singleton. reflexivity. }
    cbn [fmap option_fmap option_map]. rewrite (snowflake_truthy _ Hm). cbn [q_before].
    rewrite <- app_assoc in *. simpl in *. rewrite (older_than_split _ _ _ H).
    reflexivity.
  - apply last_None in E. subst pre. reflexivity.
Qed.

(** * Runs against a history, without cancellation *)

(** No stop flag of the channel is raised. *)
Definition calm (channelId : string) : Run -> Prop :=
  fun r => should_stop channelId (store r) = false.

Lemma should_stop_delete_scan channelId c s :
  should_stop channelId s = false ->
  should_stop channelId (delete_scan c s) = false.
Proof.
  unfold should_stop, delete_scan. simpl. intros H.
  apply orb_false_elim in H. destruct H as [H1 H2]. rewrite H2, orb_false_r.
  destruct (decide (c = channelId)) as [-> | Hne].
  - rewrite lookup_delete_eq. reflexivity.
  - rewrite lookup_delete_ne by exact Hne. exact H1.
Qed.

Lemma calm_stable w channelId : uncancelled channelId w -> stable w (calm channelId).
Proof.
  intros Hw. split.
  - intros r Hr. apply Hw, Hr.
  - intros e r _ Hr. exact Hr.
  - intros c r Hr. apply should_stop_delete_scan, Hr.
Qed.

Lemma calm_progress channelId n r :
  calm channelId r -> calm channelId (emit (EvProgress n) r).2.
Proof. intros Hr. exact Hr. Qed.

(** The [for] loop of [discoverMessages] when no stop flag is raised. *)
Fixpoint scan_pure (uid : option string) (lim : option Z)
    (batch : list Message) (st : DState) : Ctl DState :=
  match batch with
  | [] => Continue st
  | msg :: rest =>
      if bool_decide (m_id msg ∈ seenMessageIds st) then scan_pure uid lim rest st
      else
        let st1 := set_messages st (messages st) ({[ m_id msg ]} ∪ seenMessageIds st) in
        if author_matches uid msg then
          let st2 := set_messages st1 (messages st1 ++ [msg]) (seenMessageIds st1) in
          if limit_reached lim (length (messages st2)) then Break st2
          else scan_pure uid lim rest st2
        else scan_pure uid lim rest st1
  end.

(** The [for] loop of [discoverRangeMessages] when no stop flag is raised. *)
Fixpoint range_scan_pure (uid aid bid : option string)
    (batch : list Message) (st : RState) : RState :=
  match batch with
  | [] => st
  | msg :: rest =>
      if bool_decide (m_id msg ∈ r_seenMessageIds st) then
        range_scan_pure uid aid bid rest st
      else
        match range_visit uid aid bid msg (r_see st (m_id msg)) with
        | inl st' => st'
        | inr st' => range_scan_pure uid aid bid rest st'
        end
  end.

Section Calm.

Variable w : World.
Variable h : list Message.
Variable channelId : string.
Hypothesis Hserves : serves h w.
Hypothesis Hquiet : uncancelled channelId w.

Let HI : stable w (calm channelId) := calm_stable w channelId Hquiet.

Lemma shouldStop_calm :
  triple (calm channelId) (shouldStop channelId) (fun b => b = false).
Proof. intros r Hr. split; [exact Hr | exact Hr]. Qed.

Lemma fetchMessageBatch_calm cursor :
  triple (calm channelId) (fetchMessageBatch w channelId cursor None)
    (fun v => v = inr (page_at h cursor)).
Proof.
  unfold fetchMessageBatch. eapply triple_bind; [apply (RestAPI_get_keeps w _ HI) |].
  intros v [t ->]. rewrite Hserves. apply triple_ret. reflexivity.
Qed.

Lemma fetch_with_retry_calm cursor attempts retry :
  triple (calm channelId) (fetch_with_retry w channelId cursor (S attempts) retry)
    (fun v => v = Some (page_at h cursor)).
Proof.
  simpl. eapply triple_bind; [apply fetchMessageBatch_calm |].
  intros v ->. apply triple_ret. reflexivity.
Qed.

Lemma verify_fetch_calm_empty cursor unit_ms attempts : forall k,
  page_at h cursor = [] ->
  triple (calm channelId) (verify_fetch w channelId cursor unit_ms attempts k)
    (fun v => v = None).
Proof.
  induction attempts as [| n IH]; intros k Hp; simpl.
  - apply triple_ret. reflexivity.
  - eapply triple_bind; [apply fetchMessageBatch_calm |].
    intros v ->. rewrite Hp.
    apply triple_seq; [apply (sleep_keeps w _ HI) |]. intros _. apply IH, Hp.
Qed.

Lemma settle_batch_calm cursor n :
  triple (calm channelId) (settle_batch w channelId cursor n (page_at h cursor))
    (fun v => v = match page_at h cursor with
                  | [] => if MAX_EMPTY_BATCHES <=? S n then SettledBreak (S n)
                          else SettledContinue (S n)
                  | _ :: _ => SettledBatch 0 (page_at h cursor)
                  end).
Proof.
  unfold settle_batch. destruct (page_at h cursor) as [| m page] eqn:Hp.
  - destruct (MAX_EMPTY_BATCHES <=? S n).
    + eapply triple_bind with (P := fun v => v = None).
      * destruct (truthy cursor).
        -- apply verify_fetch_calm_empty, Hp.
        -- apply triple_ret. reflexivity.
      * intros v ->. apply triple_ret. reflexivity.
    + apply triple_seq; [apply (sleep_keeps w _ HI) |].
      intros _. apply triple_ret. reflexivity.
  - apply triple_ret. reflexivity.
Qed.

(** After a non-empty batch the verification never ends the walk. *)
Lemma verify_short_calm cursor batch :
  batch <> [] ->
  triple (calm channelId) (verify_short w channelId cursor batch) (fun b => b = false).
Proof.
  intros Hb. unfold verify_short. destruct (length batch <? BATCH_SIZE).
  - eapply triple_bind;
      [apply (verify_fetch_keeps w _ HI any_message (any_response w)) |].
    intros [vb |] Hv; apply triple_ret; simpl.
    + destruct Hv as [Hvb _]. destruct vb; [congruence | reflexivity].
    + destruct batch; [congruence | reflexivity].
  - apply triple_ret. reflexivity.
Qed.

Lemma scan_batch_calm uid lim batch : forall st,
  triple (calm channelId) (scan_batch channelId uid lim batch st)
    (fun c => c = scan_pure uid lim batch st).
Proof.
  induction batch as [| msg rest IH]; intros st; simpl.
  - apply triple_ret. reflexivity.
  - eapply triple_bind; [apply shouldStop_calm |]. intros b ->.
    destruct (bool_decide (m_id msg ∈ seenMessageIds st)); [apply IH |].
    destruct (author_matches uid msg); [| apply IH].
    cbv zeta. destruct (limit_reached lim _); [apply triple_ret; reflexivity | apply IH].
Qed.

Lemma range_scan_batch_calm uid aid bid batch : forall st,
  triple (calm channelId) (range_scan_batch channelId uid aid bid batch st)
    (fun st' => st' = range_scan_pure uid aid bid batch st).
Proof.
  induction batch as [| msg rest IH]; intros st; simpl.
  - apply triple_ret. reflexivity.
  - eapply triple_bind; [apply shouldStop_calm |]. intros b ->.
    destruct (bool_decide (m_id msg ∈ r_seenMessageIds st)); [apply IH |].
    destruct (range_visit uid aid bid msg (r_see st (m_id msg)));
      [apply triple_ret; reflexivity | apply IH].
Qed.

End Calm.

(** * The pagination engine against a history *)

(** What the walk has collected after the messages [l], starting from
    [acc], and whether the limit has ended it. *)
Fixpoint collect (uid : option string) (lim : option Z) (acc l : list Message)
  : list Message * bool :=
  match l with
  | [] => (acc, false)
  | m :: l' =>
      if author_matches uid m then
        if limit_reached lim (length (acc ++ [m])) then (acc ++ [m], true)
        else collect uid lim (acc ++ [m]) l'
      else collect uid lim acc l'
  end.

Lemma collect_app uid lim l1 : forall acc l2,
  collect uid lim acc (l1 ++ l2) =
  if (collect uid lim acc l1).2 then collect uid lim acc l1
  else collect uid lim (collect uid lim acc l1).1 l2.
Proof.
  induction l1 as [| m l1 IH]; intros acc l2; simpl; [reflexivity |].
  destruct (author_matches uid m); [| apply IH].
  destruct (limit_reached lim (length (acc ++ [m]))); [reflexivity | apply IH].
Qed.

Lemma collect_below uid lim l : forall acc acc',
  limit_reached lim (length acc) = false ->
  collect uid lim acc l = (acc', false) ->
  limit_reached lim (length acc') = false.
Proof.
  induction l as [| m l IH]; intros acc acc' Hb; simpl.
  - intros [= <-]. exact Hb.
  - destruct (author_matches uid m); [| apply IH, Hb].
    destruct (limit_reached lim (length (acc ++ [m]))) eqn:E; [discriminate |].
    apply IH, E.
Qed.

Lemma collect_reached uid lim l : forall acc acc',
  collect uid lim acc l = (acc', true) ->
  limit_reached lim (length acc') = true.
Proof.
  induction l as [| m l IH]; intros acc acc'; simpl; [discriminate |].
  destruct (author_matches uid m); [| apply IH].
  destruct (limit_reached lim (length (acc ++ [m]))) eqn:E; [| apply IH].
  intros [= <-]. exact E.
Qed.

(** With a positive limit, the walk collects the first [n] matching
    messages. *)
Lemma collect_take uid (n : nat) l : forall acc,
  length acc < n ->
  (collect uid (Some (Z.of_nat n)) acc l).1
  = (acc ++ take (n - length acc) (List.filter (author_matches uid) l))%list.
Proof.
  induction l as [| m l IH]; intros acc Hacc; simpl.
  - rewrite take_nil, app_nil_r. reflexivity.
  - destruct (author_matches uid m); [| apply IH, Hacc].
    unfold limit_reached. rewrite length_app. simpl.
    destruct (Z.eqb_spec (Z.of_nat n) 0) as [E | _]; [lia |]. simpl.
    destruct (Z.leb_spec (Z.of_nat n) (Z.of_nat (length acc + 1))) as [Hle | Hlt].
    + simpl. replace (n - length acc) with 1 by lia. reflexivity.
    + rewrite IH by (rewrite length_app; simpl; lia).
      rewrite length_app. simpl. rewrite <- app_assoc. simpl.
      replace (n - length acc) with (S (n - (length acc + 1))) by lia.
      reflexivity.
Qed.

(** Without a limit, it collects every matching message. *)
Lemma collect_all uid lim l : forall acc,
  (forall n, limit_reached lim n = false) ->
  collect uid lim acc l = ((acc ++ List.filter (author_matches uid) l)%list, false).
Proof.
  induction l as [| m l IH]; intros acc Hlim; simpl.
  - rewrite app_nil_r. reflexivity.
  - destruct (author_matches uid m); [| apply IH, Hlim].
    rewrite Hlim, IH by exact Hlim. rewrite <- app_assoc. reflexivity.
Qed.

(** A state that differs from [st] in the collected messages and the seen
    set only. *)
Definition same_but_collected (st st' : DState) : Prop :=
  st' = set_messages st (messages st') (seenMessageIds st').

(** The [for] loop over messages none of which has been seen. *)
Lemma scan_pure_fresh uid lim page : forall st,
  NoDup (ids page) ->
  (forall x, x ∈ ids page -> x ∉ seenMessageIds st) ->
  match scan_pure uid lim page st with
  | Continue st' =>
      collect uid lim (messages st) page = (messages st', false)
      /\ seenMessageIds st' = list_to_set (ids page) ∪ seenMessageIds st
      /\ same_but_collected st st'
  | Break st' =>
      collect uid lim (messages st) page = (messages st', true)
      /\ same_but_collected st st'
  | Return _ => False
  end.
Proof.
  induction page as [| msg rest IH]; intros st Hnd Hfresh; simpl.
  - split; [reflexivity |]. split.
    + rewrite (left_id_L ∅ (∪)). reflexivity.
    + destruct st; reflexivity.
  - simpl in Hnd. apply NoDup_cons in Hnd. destruct Hnd as [Hhead Hnd].
    rewrite bool_decide_eq_false_2 by (apply Hfresh; left).
    assert (Hfresh' : forall x, x ∈ ids rest -> x ∉ {[m_id msg]} ∪ seenMessageIds st).
    { intros x Hx Hin. apply elem_of_union in Hin. destruct Hin as [Hin | Hin].
      - apply elem_of_singleton in Hin. subst x. exact (Hhead Hx).
      - apply (Hfresh x); [right; exact Hx | exact Hin]. }
    destruct (author_matches uid msg).
    + destruct (limit_reached lim (length (messages st ++ [msg]))) eqn:E.
      * split; [reflexivity | destruct st; reflexivity].
      * specialize (IH (set_messages
                          (set_messages st (messages st) ({[m_id msg]} ∪ seenMessageIds st))
                          (messages st ++ [msg]) ({[m_id msg]} ∪ seenMessageIds st))
                       Hnd Hfresh').
        simpl in IH. cbv zeta. simpl.
        destruct (scan_pure uid lim rest _) as [st' | st' | ?]; [| | exact IH].
        -- destruct IH as (Hc & Hs & Hsame). split; [exact Hc |]. split.
           ++ rewrite Hs. rewrite (assoc_L (∪)).
              rewrite (comm_L (∪) (list_to_set (ids rest)) {[m_id msg]}). reflexivity.
           ++ unfold same_but_collected in *. rewrite Hsame at 1. reflexivity.
        -- destruct IH as (Hc & Hsame). split; [exact Hc |].
           unfold same_but_collected in *. rewrite Hsame at 1. reflexivity.
    + specialize (IH (set_messages st (messages st) ({[m_id msg]} ∪ seenMessageIds st))
                     Hnd Hfresh').
      simpl in IH. cbv zeta.
      destruct (scan_pure uid lim rest _) as [st' | st' | ?]; [| | exact IH].
      * destruct IH as (Hc & Hs & Hsame). split; [exact Hc |]. split.
        -- rewrite Hs. rewrite (assoc_L (∪)).
           rewrite (comm_L (∪) (list_to_set (ids rest)) {[m_id msg]}). reflexivity.
        -- unfold same_but_collected in *. rewrite Hsame at 1. reflexivity.
      * destruct IH as (Hc & Hsame). split; [exact Hc |].
        unfold same_but_collected in *. rewrite Hsame at 1. reflexivity.
Qed.

Ltac dstate_simpl :=
  cbn [messages lastMessageId consecutiveErrors lastSuccessfulBatchSize
       lastReportedCount emptyBatchCount seenMessageIds set_messages
       set_lastMessageId set_consecutiveErrors set_lastSuccessfulBatchSize
       set_lastReportedCount set_emptyBatchCount] in *.

Section PlainWalk.

Variable w : World.
Variable h : list Message.
Variable channelId : string.
Variable opts : DiscoverOptions.
Hypothesis Hserves : serves h w.
Hypothesis Hquiet : uncancelled channelId w.
Hypothesis Hh : newest_first h = true.

Let HI : stable w (calm channelId) := calm_stable w channelId Hquiet.

(** The locals after the messages [pre] of the history have been walked
    and the walk goes on. *)
Definition walked (pre : list Message) (st : DState) : Prop :=
  collect (userId opts) (limit opts) [] pre = (messages st, false)
  /\ limit_reached (limit opts) (length (messages st)) = false
  /\ seenMessageIds st = list_to_set (ids pre)
  /\ lastMessageId st = cursor_after pre.

Lemma after_scan_calm page st m :
  last page = Some m ->
  lastMessageId st <> Some (m_id m) ->
  triple (calm channelId) (after_scan w channelId opts page st)
    (fun c => exists st2,
       messages st2 = messages st
       /\ seenMessageIds st2 = seenMessageIds st
       /\ lastMessageId st2 = Some (m_id m)
       /\ emptyBatchCount st2 = emptyBatchCount st
       /\ c = if limit_reached (limit opts) (length (messages st))
              then Break st2 else Continue st2).
Proof.
  intros Hlast Hcur. unfold after_scan.
  eapply triple_bind with
    (P := fun st1 => messages st1 = messages st
                     /\ seenMessageIds st1 = seenMessageIds st
                     /\ lastMessageId st1 = lastMessageId st
                     /\ emptyBatchCount st1 = emptyBatchCount st).
  { unfold report_progress.
    destruct (onProgress opts && negb (length (messages st) =? lastReportedCount st)).
    - apply triple_seq.
      + intros r Hr. split; [exact I | exact Hr].
      + intros _. apply triple_ret. repeat split.
    - apply triple_ret. repeat split. }
  intros st1 (Hm & Hs & Hl & He).
  unfold advance_cursor. rewrite Hlast, Hl.
  assert (Hne : truthy (lastMessageId st) && id_is (lastMessageId st) (m_id m) = false).
  { destruct (lastMessageId st) as [c |]; [| reflexivity].
    apply andb_false_intro2. simpl. apply String.eqb_neq. congruence. }
  rewrite Hne.
  assert (Hp : page <> []) by (intros ->; discriminate).
  eapply triple_bind; [apply (verify_short_calm w channelId Hquiet), Hp |].
  intros b ->. simpl. rewrite Hm.
  destruct (limit_reached (limit opts) (length (messages st))).
  - apply triple_ret. exists (set_lastMessageId st1 (Some (m_id m))).
    simpl. auto.
  - apply triple_seq; [apply (sleep_keeps w _ HI) |]. intros _.
    apply triple_ret. exists (set_lastMessageId st1 (Some (m_id m))).
    simpl. auto.
Qed.

(** At the end of the history the loop is left after at most three empty
    batches. *)
Lemma plain_end_phase fuel : forall st,
  lastMessageId st = cursor_after h ->
  limit_reached (limit opts) (length (messages st)) = false ->
  3 - emptyBatchCount st <= fuel -> 1 <= fuel ->
  triple (calm channelId) (discover_loop w fuel channelId opts st)
    (fun o => o = Finished (messages st)).
Proof.
  induction fuel as [| fuel IH]; intros st Hcur Hlim Hfuel Hpos; [lia |].
  assert (Hpage : page_at h (lastMessageId st) = []).
  { rewrite Hcur. rewrite <- (app_nil_r h) at 1.
    rewrite page_at_cursor by (rewrite app_nil_r; exact Hh). apply take_nil. }
  cbn [discover_loop]. unfold discover_iteration.
  eapply triple_bind with
    (P := fun c =>
       c = if MAX_EMPTY_BATCHES <=? S (emptyBatchCount st)
           then Break (set_emptyBatchCount (set_consecutiveErrors st 0)
                         (S (emptyBatchCount st)))
           else Continue (set_emptyBatchCount (set_consecutiveErrors st 0)
                            (S (emptyBatchCount st)))).
  { eapply triple_bind; [apply shouldStop_calm |]. intros b ->. rewrite Hlim.
    eapply triple_bind; [apply (fetch_with_retry_calm w h channelId Hserves Hquiet) |].
    intros v ->. cbv zeta.
    eapply triple_bind; [apply (settle_batch_calm w h channelId Hserves Hquiet) |].
    intros v ->. dstate_simpl. rewrite Hpage.
    destruct (MAX_EMPTY_BATCHES <=? S (emptyBatchCount st));
      apply triple_ret; reflexivity. }
  intros c ->.
  destruct (Nat.leb_spec MAX_EMPTY_BATCHES (S (emptyBatchCount st))) as [Hge | Hlt].
  - apply triple_seq; [apply (activeScans_delete_keeps w _ HI) |].
    intros _. apply triple_ret. reflexivity.
  - unfold MAX_EMPTY_BATCHES in Hlt.
    eapply triple_weaken; [apply IH |]; simpl; try assumption; try lia.
    intros o ->. reflexivity.
Qed.

Lemma cursor_after_app pre page m :
  last page = Some m -> cursor_after (pre ++ page) = Some (m_id m).
Proof.
  intros Hl. unfold cursor_after. apply last_Some in Hl. destruct Hl as [page' ->].
  rewrite app_assoc, last_snoc. reflexivity.
Qed.

(** A page cut from the not yet walked part of a history without
    duplicate: its ids are distinct, none was walked, and its last id is
    not the cursor. *)
Lemma fresh_page pre page rest' :
  NoDup (ids (pre ++ page ++ rest')) ->
  NoDup (ids page)
  /\ (forall x, x ∈ ids page -> x ∉ (list_to_set (ids pre) : gset string))
  /\ (forall m, last page = Some m -> cursor_after pre <> Some (m_id m)).
Proof.
  unfold ids. rewrite !map_app. intros Hnd.
  apply NoDup_app in Hnd. destruct Hnd as (_ & Hdisj & Hnd).
  apply NoDup_app in Hnd. destruct Hnd as (Hpage & _ & _).
  split; [exact Hpage |]. split.
  - intros x Hx Hin. apply elem_of_list_to_set in Hin.
    apply (Hdisj x Hin). apply elem_of_app. left. exact Hx.
  - intros m Hl Hc. unfold cursor_after in Hc.
    destruct (last pre) as [p |] eqn:Ep; [| discriminate].
    injection Hc as Hc.
    apply last_Some in Ep. destruct Ep as [pre' ->].
    apply last_Some in Hl. destruct Hl as [page' ->].
    apply (Hdisj (m_id p)).
    + rewrite map_app. apply elem_of_app. right. simpl. left.
    + apply elem_of_app. left. rewrite map_app. apply elem_of_app. right.
      simpl. rewrite Hc. left.
Qed.

Lemma take_batch_nonempty (rest : list Message) :
  rest <> [] -> take BATCH_SIZE rest <> [].
Proof. destruct rest; [congruence | discriminate]. Qed.

Lemma nonempty_last {A} (l : list A) : l <> [] -> exists x, last l = Some x.
Proof.
  intros Hl. destruct (last l) as [x |] eqn:E; [exists x; reflexivity |].
  apply last_None in E. contradiction.
Qed.

(** One iteration over a non-empty remainder of the history. *)
Lemma plain_iteration pre rest st :
  h = (pre ++ rest)%list -> rest <> [] -> walked pre st ->
  triple (calm channelId) (discover_iteration w channelId opts st)
    (fun c => match c with
              | Continue st2 =>
                  walked (pre ++ take BATCH_SIZE rest) st2 /\ emptyBatchCount st2 = 0
              | Break st2 =>
                  collect (userId opts) (limit opts) [] (pre ++ take BATCH_SIZE rest)
                  = (messages st2, true)
              | Return _ => False
              end).
Proof.
  intros Hsplit Hrest (Hcol & Hlim & Hseen & Hcur).
  pose proof (take_batch_nonempty rest Hrest) as Hpage.
  destruct (nonempty_last _ Hpage) as [mlast Hlast].
  assert (Hfetch : page_at h (lastMessageId st) = take BATCH_SIZE rest).
  { rewrite Hcur, Hsplit. apply page_at_cursor. rewrite <- Hsplit. exact Hh. }
  pose proof (newest_first_NoDup h Hh) as Hnd.
  rewrite Hsplit, <- (take_drop BATCH_SIZE rest) in Hnd.
  destruct (fresh_page _ _ _ Hnd) as (Hnd_page & Hfresh & Hadvance).
  unfold discover_iteration.
  eapply triple_bind; [apply shouldStop_calm |]. intros b ->. rewrite Hlim.
  eapply triple_bind; [apply (fetch_with_retry_calm w h channelId Hserves Hquiet) |].
  intros v ->. cbv zeta.
  eapply triple_bind; [apply (settle_batch_calm w h channelId Hserves Hquiet) |].
  intros v ->. dstate_simpl. rewrite Hfetch.
  destruct (take BATCH_SIZE rest) as [| p0 page0] eqn:Epage; [congruence |].
  rewrite <- Epage in *. cbv iota. unfold consume_batch.
  eapply triple_bind; [apply (scan_batch_calm channelId) |]. intros c ->.
  match goal with |- context [scan_pure ?u ?l ?p ?s] =>
    pose proof (scan_pure_fresh u l p s Hnd_page) as Hscan;
    destruct (scan_pure u l p s) as [st' | st' | ?]
  end.
  - dstate_simpl. destruct Hscan as (Hc' & Hs' & Hsame);
      [rewrite Hseen; exact Hfresh |].
    eapply triple_weaken.
    + apply (after_scan_calm _ st' mlast Hlast).
      rewrite Hsame. dstate_simpl. rewrite Hcur. apply Hadvance, Hlast.
    + intros c (st2 & Hm2 & Hs2 & Hl2 & He2 & ->).
      assert (Hcol' : collect (userId opts) (limit opts) [] (pre ++ take BATCH_SIZE rest)
                      = (messages st', false)).
      { rewrite collect_app, Hcol. exact Hc'. }
      rewrite (collect_below _ _ _ _ _ Hlim Hc').
      split; [| rewrite He2, Hsame; reflexivity].
      split; [rewrite Hm2; exact Hcol' |].
      split; [rewrite Hm2; exact (collect_below _ _ _ _ _ Hlim Hc') |].
      split.
      * rewrite Hs2, Hs', Hseen. unfold ids. rewrite map_app, list_to_set_app_L.
        apply (comm_L (∪)).
      * rewrite Hl2. symmetry. apply cursor_after_app, Hlast.
  - dstate_simpl. destruct Hscan as (Hc' & Hsame);
      [rewrite Hseen; exact Hfresh |].
    eapply triple_weaken.
    + apply (after_scan_calm _ st' mlast Hlast).
      rewrite Hsame. dstate_simpl. rewrite Hcur. apply Hadvance, Hlast.
    + intros c (st2 & Hm2 & Hs2 & Hl2 & He2 & ->).
      rewrite (collect_reached _ _ _ _ _ Hc').
      rewrite collect_app, Hcol, Hm2. exact Hc'.
  - dstate_simpl. destruct Hscan. rewrite Hseen. exact Hfresh.
Qed.

(** Against a history, the pagination engine returns what [collect] says
    of the whole history, within [length h + 3] iterations. *)
Lemma plain_walk fuel : forall pre rest st,
  h = (pre ++ rest)%list -> walked pre st -> emptyBatchCount st = 0 ->
  length rest + 3 <= fuel ->
  triple (calm channelId) (discover_loop w fuel channelId opts st)
    (fun o => o = Finished (collect (userId opts) (limit opts) [] h).1).
Proof.
  induction fuel as [| fuel IH]; intros pre rest st Hsplit Hw He Hfuel; [lia |].
  destruct rest as [| m0 rest0].
  - rewrite app_nil_r in Hsplit. subst pre.
    destruct Hw as (Hcol & Hlim & _ & Hcur).
    eapply triple_weaken; [apply plain_end_phase; [exact Hcur | exact Hlim | lia | lia] |].
    intros o ->. rewrite Hcol. reflexivity.
  - cbn [discover_loop].
    eapply triple_bind;
      [apply (plain_iteration pre (m0 :: rest0) st Hsplit); [discriminate | exact Hw] |].
    assert (Hh' : h = ((pre ++ take BATCH_SIZE (m0 :: rest0))
                       ++ drop BATCH_SIZE (m0 :: rest0))%list).
    { rewrite <- app_assoc, take_drop. exact Hsplit. }
    intros [st2 | st2 | ?] H2.
    + destruct H2 as [Hw2 He2]. apply (IH _ _ _ Hh' Hw2 He2).
      rewrite length_drop. simpl in *. lia.
    + apply triple_seq; [apply (activeScans_delete_keeps w _ HI) |].
      intros _. apply triple_ret. rewrite Hh', collect_app, H2. reflexivity.
    + destruct H2.
Qed.

End PlainWalk.

(** The run in which a task starts when nothing is going on. *)
Definition idle_run : Run := {| clock := 0; store := empty_store; trace := [] |}.

Definition message (i author : string) : Message :=
  {| m_id := i; m_author := Some author; m_timestamp := EmptyString |}.

(** C4: with [limit = N], [N] positive, and no boundary, the pagination
    engine never holds more than [N] records, whatever the transport and
    the stop flags do; and against a history served newest first, without
    cancellation, it returns the first [N] records of the history that
    pass the author filter (all of them when there are fewer than [N]),
    within [length h + 3] iterations. *)
Theorem C4_count_limit
    (channelId : string) (uid aid bid : option string) (progress : bool) (N : nat)
    (HN : 1 <= N) (Haid : truthy aid = false) (Hbid : truthy bid = false) :
  let opts := {| userId := uid; afterId := aid; beforeId := bid;
                 limit := Some (Z.of_nat N); onProgress := progress |} in
  (forall w fuel r,
     length (outcome_messages (discoverMessages w fuel channelId opts r).1) <= N)
  /\ (forall w h r fuel,
        newest_first h = true -> serves h w -> uncancelled channelId w ->
        should_stop channelId (store r) = false ->
        length h + 3 <= fuel ->
        (discoverMessages w fuel channelId opts r).1
        = Finished (take N (List.filter (author_matches uid) h))).
Proof.
  intros opts. split.
  - intros w fuel r.
    assert (H : triple any_run (discoverMessages w fuel channelId opts)
                  (fun o => length (outcome_messages o) <= N)).
    { unfold discoverMessages.
      apply triple_seq; [apply shouldStop_keeps |]. intros [|].
      - apply triple_seq;
          [apply (activeScans_delete_keeps w any_run (stable_any_run w)) |].
        intros _. apply triple_ret. simpl. lia.
      - simpl. rewrite Haid, Hbid. simpl.
        eapply triple_weaken.
        + apply (discover_loop_inv w any_run (stable_any_run w) progress_any_run
                   channelId opts (fun msgs _ => length msgs <= N)).
          * intros msgs seen msg Hle _. exact Hle.
          * intros msgs seen msg Hle _ Hlim. rewrite length_app. simpl.
            unfold opts, limit_reached in Hlim. simpl in Hlim.
            destruct (Z.eqb_spec (Z.of_nat N) 0); [lia |]. simpl in Hlim.
            apply Z.leb_gt in Hlim. lia.
          * unfold holds. simpl. lia.
        + intros o [_ Hle]. exact Hle. }
    apply (H r I).
  - intros w h r fuel Hh Hserves Hquiet Hcalm Hfuel.
    assert (H : triple (calm channelId) (discoverMessages w fuel channelId opts)
                  (fun o => o = Finished (take N (List.filter (author_matches uid) h)))).
    { unfold discoverMessages.
      eapply triple_bind; [apply shouldStop_calm |]. intros b ->.
      simpl. rewrite Haid, Hbid. simpl.
      eapply triple_weaken.
      - apply (plain_walk w h channelId opts Hserves Hquiet Hh fuel [] h initial_DState).
        + reflexivity.
        + repeat split. unfold opts, limit_reached. simpl.
          destruct (Z.eqb_spec (Z.of_nat N) 0); [lia |]. simpl.
          apply Z.leb_gt. lia.
        + reflexivity.
        + exact Hfuel.
      - intros o ->. unfold opts. simpl.
        rewrite (collect_take uid N h []) by (simpl; lia).
        simpl. rewrite Nat.sub_0_r. reflexivity. }
    apply (H r Hcalm).
Qed.

Definition sample_authors_history : list Message :=
  [message "30" "u1"; message "20" "u2"; message "10" "u1"; message "5" "u1"]%string.

Lemma C4_count_limit_witness :
  (discoverMessages (history_world sample_authors_history) 7 "c"%string
     {| userId := Some "u1"%string; afterId := None; beforeId := None;
        limit := Some 2%Z; onProgress := false |} idle_run).1
  = Finished [message "30" "u1"; message "10" "u1"]%string.
Proof.
  apply (proj2 (C4_count_limit "c"%string (Some "u1"%string) None None false 2
                  ltac:(lia) eq_refl eq_refl)
           (history_world sample_authors_history) sample_authors_history idle_run 7).
  - reflexivity.
  - apply history_world_serves.
  - apply history_world_uncancelled.
  - reflexivity.
  - simpl. lia.
Defined.

(** * The range extractor against a history *)

(** The walk of the range extractor over messages none of which was seen
    before: the locals at the end, and whether a [break] ended the walk. *)
Fixpoint range_fold (uid aid bid : option string) (l : list Message) (st : RState)
  : RState * bool :=
  match l with
  | [] => (st, false)
  | m :: l' =>
      match range_visit uid aid bid m (r_see st (m_id m)) with
      | inl st' => (st', true)
      | inr st' => range_fold uid aid bid l' st'
      end
  end.

Ltac rstate_simpl :=
  cbn [r_messages r_lastMessageId collecting foundBoundary r_emptyBatchCount
       r_seenMessageIds r_see r_boundary r_set_last r_push r_set_empty] in *.

Ltac range_visit_cases :=
  unfold range_visit;
  repeat match goal with
         | |- context [if ?b then _ else _] => destruct b eqn:?; rstate_simpl
         end.

(** The flag that orders a [break] after the [for] loop. *)
Definition settled_range (st : RState) : Prop :=
  foundBoundary st = true -> collecting st = true.

Lemma range_visit_inr uid aid bid m st st' :
  range_visit uid aid bid m (r_see st (m_id m)) = inr st' ->
  r_seenMessageIds st' = {[ m_id m ]} ∪ r_seenMessageIds st
  /\ r_lastMessageId st' = Some (m_id m)
  /\ r_emptyBatchCount st' = r_emptyBatchCount st
  /\ (settled_range st -> settled_range st').
Proof.
  unfold settled_range. range_visit_cases; intros [= <-]; rstate_simpl; auto.
Qed.

Lemma range_visit_inl uid aid bid m st st' :
  range_visit uid aid bid m (r_see st (m_id m)) = inl st' ->
  truthy aid = true /\ foundBoundary st' = true /\ collecting st' = false
  /\ r_messages st' = r_messages st.
Proof.
  range_visit_cases; intros [= <-]; rstate_simpl;
    repeat match goal with
           | H : _ && _ = true |- _ => apply andb_prop in H; destruct H
           end; auto.
Qed.

Lemma range_visit_set_empty uid aid bid m st n :
  range_visit uid aid bid m (r_see (r_set_empty st n) (m_id m))
  = match range_visit uid aid bid m (r_see st (m_id m)) with
    | inl st' => inl (r_set_empty st' n)
    | inr st' => inr (r_set_empty st' n)
    end.
Proof. range_visit_cases; reflexivity. Qed.

Lemma range_fold_set_empty uid aid bid l n : forall st,
  range_fold uid aid bid l (r_set_empty st n)
  = (r_set_empty (range_fold uid aid bid l st).1 n, (range_fold uid aid bid l st).2).
Proof.
  induction l as [| m l IH]; intros st; simpl; [reflexivity |].
  rewrite range_visit_set_empty.
  destruct (range_visit uid aid bid m (r_see st (m_id m))); [reflexivity | apply IH].
Qed.

Lemma range_fold_app uid aid bid l1 : forall l2 st,
  range_fold uid aid bid (l1 ++ l2) st =
  if (range_fold uid aid bid l1 st).2 then range_fold uid aid bid l1 st
  else range_fold uid aid bid l2 (range_fold uid aid bid l1 st).1.
Proof.
  induction l1 as [| m l1 IH]; intros l2 st; simpl; [reflexivity |].
  destruct (range_visit uid aid bid m (r_see st (m_id m))); [reflexivity | apply IH].
Qed.

Lemma range_fold_unbroken uid aid bid l : forall st,
  (range_fold uid aid bid l st).2 = false ->
  r_seenMessageIds (range_fold uid aid bid l st).1
  = list_to_set (ids l) ∪ r_seenMessageIds st
  /\ r_lastMessageId (range_fold uid aid bid l st).1
     = match cursor_after l with
       | Some c => Some c
       | None => r_lastMessageId st
       end
  /\ r_emptyBatchCount (range_fold uid aid bid l st).1 = r_emptyBatchCount st
  /\ (settled_range st -> settled_range (range_fold uid aid bid l st).1).
Proof.
  induction l as [| m l IH]; intros st; simpl.
  - intros _. split; [rewrite (left_id_L ∅ (∪)); reflexivity |]. auto.
  - destruct (range_visit uid aid bid m (r_see st (m_id m))) as [st' | st'] eqn:E;
      [discriminate |].
    intros Hflag. destruct (IH st' Hflag) as (Hs & Hl & He & Hset).
    destruct (range_visit_inr _ _ _ _ _ _ E) as (Hs1 & Hl1 & He1 & Hset1).
    split.
    { rewrite Hs, Hs1, (assoc_L (∪)).
      rewrite (comm_L (∪) (list_to_set (ids l)) {[m_id m]}). reflexivity. }
    split.
    { rewrite Hl, Hl1. unfold cursor_after.
      destruct l as [| m' l']; [reflexivity |].
      change (last (m :: m' :: l')) with (last (m' :: l')).
      destruct (last (m' :: l')) eqn:El; [reflexivity |].
      apply last_None in El. discriminate. }
    split; [congruence | auto].
Qed.

Lemma range_fold_broken uid aid bid l : forall st,
  (range_fold uid aid bid l st).2 = true ->
  truthy aid = true
  /\ foundBoundary (range_fold uid aid bid l st).1 = true
  /\ collecting (range_fold uid aid bid l st).1 = false.
Proof.
  induction l as [| m l IH]; intros st; simpl; [discriminate |].
  destruct (range_visit uid aid bid m (r_see st (m_id m))) as [st' | st'] eqn:E.
  - intros _. apply range_visit_inl in E. tauto.
  - apply IH.
Qed.

(** The [for] loop over messages none of which has been seen. *)
Lemma range_scan_pure_fresh uid aid bid page : forall st,
  NoDup (ids page) ->
  (forall x, x ∈ ids page -> x ∉ r_seenMessageIds st) ->
  range_scan_pure uid aid bid page st = (range_fold uid aid bid page st).1.
Proof.
  induction page as [| m page IH]; intros st Hnd Hfresh; simpl; [reflexivity |].
  simpl in Hnd. apply NoDup_cons in Hnd. destruct Hnd as [Hhead Hnd].
  rewrite bool_decide_eq_false_2 by (apply Hfresh; left).
  destruct (range_visit uid aid bid m (r_see st (m_id m))) as [st' | st'] eqn:E;
    [reflexivity |].
  apply IH; [exact Hnd |].
  intros x Hx. destruct (range_visit_inr _ _ _ _ _ _ E) as (Hs & _). rewrite Hs.
  intros Hin. apply elem_of_union in Hin. destruct Hin as [Hin | Hin].
  - apply elem_of_singleton in Hin. subst x. exact (Hhead Hx).
  - apply (Hfresh x); [right; exact Hx | exact Hin].
Qed.

(** Whether the checks after the [for] loop leave the [while] loop. *)
Definition break_after (aid bid : option string) (batch : list Message) (st : RState)
  : bool :=
  (truthy aid && foundBoundary st && negb (collecting st))
  || (truthy aid && truthy bid && foundBoundary st && negb (collecting st))
  || (truthy bid && negb (truthy aid) && negb (foundBoundary st)
      && (length batch <? BATCH_SIZE)).

Section RangeWalk.

Variable w : World.
Variable h : list Message.
Variable channelId : string.
Variables uid aid bid : option string.
Hypothesis Hserves : serves h w.
Hypothesis Hquiet : uncancelled channelId w.
Hypothesis Hh : newest_first h = true.

Let HI : stable w (calm channelId) := calm_stable w channelId Hquiet.

Definition range_result (l : list Message) : RState * bool :=
  range_fold uid aid bid l (initial_RState aid bid).

(** The locals after the messages [pre] of the history have been walked
    without a [break]. *)
Definition r_walked (pre : list Message) (st : RState) : Prop :=
  (range_result pre).2 = false
  /\ st = r_set_empty (range_result pre).1 (r_emptyBatchCount st).

Lemma r_walked_facts pre st :
  r_walked pre st ->
  r_seenMessageIds st = list_to_set (ids pre)
  /\ r_lastMessageId st = cursor_after pre.
Proof.
  intros [Hflag ->]. rstate_simpl.
  destruct (range_fold_unbroken _ _ _ _ _ Hflag) as (Hs & Hl & _).
  unfold range_result. rewrite Hs, Hl. simpl.
  split; [apply (right_id_L ∅ (∪)) |].
  destruct (cursor_after pre); reflexivity.
Qed.

Lemma after_range_scan_calm page st :
  page <> [] ->
  triple (calm channelId) (after_range_scan w channelId aid bid page st)
    (fun c => c = if break_after aid bid page st then Break st else Continue st).
Proof.
  intros Hp. unfold after_range_scan, break_after.
  destruct (truthy aid && foundBoundary st && negb (collecting st));
    [apply triple_ret; reflexivity |].
  destruct (truthy aid && truthy bid && foundBoundary st && negb (collecting st));
    [apply triple_ret; reflexivity |].
  destruct (truthy bid && negb (truthy aid) && negb (foundBoundary st)
            && (length page <? BATCH_SIZE));
    [apply triple_ret; reflexivity |].
  eapply triple_bind; [apply (verify_short_calm w channelId Hquiet), Hp |].
  intros b ->. apply triple_seq; [apply (sleep_keeps w _ HI) |].
  intros _. apply triple_ret. reflexivity.
Qed.

Lemma range_end_phase fuel : forall st,
  r_lastMessageId st = cursor_after h ->
  3 - r_emptyBatchCount st <= fuel -> 1 <= fuel ->
  triple (calm channelId) (range_loop w fuel channelId uid aid bid st)
    (fun o => o = Finished (r_messages st)).
Proof.
  induction fuel as [| fuel IH]; intros st Hcur Hfuel Hpos; [lia |].
  assert (Hpage : page_at h (r_lastMessageId st) = []).
  { rewrite Hcur. rewrite <- (app_nil_r h) at 1.
    rewrite page_at_cursor by (rewrite app_nil_r; exact Hh). apply take_nil. }
  cbn [range_loop]. unfold range_iteration.
  eapply triple_bind with
    (P := fun c =>
       c = if MAX_EMPTY_BATCHES <=? S (r_emptyBatchCount st)
           then Break (r_set_empty st (S (r_emptyBatchCount st)))
           else Continue (r_set_empty st (S (r_emptyBatchCount st)))).
  { eapply triple_bind; [apply shouldStop_calm |]. intros b ->.
    eapply triple_bind; [apply (fetch_with_retry_calm w h channelId Hserves Hquiet) |].
    intros v ->.
    eapply triple_bind; [apply (settle_batch_calm w h channelId Hserves Hquiet) |].
    intros v ->. rewrite Hpage.
    destruct (MAX_EMPTY_BATCHES <=? S (r_emptyBatchCount st));
      apply triple_ret; reflexivity. }
  intros c ->.
  destruct (Nat.leb_spec MAX_EMPTY_BATCHES (S (r_emptyBatchCount st))) as [Hge | Hlt].
  - apply triple_seq; [apply (activeScans_delete_keeps w _ HI) |].
    intros _. apply triple_ret. reflexivity.
  - unfold MAX_EMPTY_BATCHES in Hlt.
    eapply triple_weaken; [apply IH |]; simpl; try assumption; try lia.
    intros o ->. reflexivity.
Qed.

(** One iteration over a non-empty remainder of the history. *)
Lemma range_iteration_walk pre rest st :
  h = (pre ++ rest)%list -> rest <> [] -> r_walked pre st ->
  triple (calm channelId) (range_iteration w channelId uid aid bid st)
    (fun c => match c with
              | Continue st2 =>
                  r_walked (pre ++ take BATCH_SIZE rest) st2
                  /\ r_emptyBatchCount st2 = 0
              | Break st2 => r_messages st2 = r_messages (range_result h).1
              | Return _ => False
              end).
Proof.
  intros Hsplit Hrest Hw.
  destruct (r_walked_facts pre st Hw) as (Hseen & Hcur).
  destruct Hw as (Hflag & Hst).
  pose proof (take_batch_nonempty rest Hrest) as Hpage.
  assert (Hfetch : page_at h (r_lastMessageId st) = take BATCH_SIZE rest).
  { rewrite Hcur, Hsplit. apply page_at_cursor. rewrite <- Hsplit. exact Hh. }
  pose proof (newest_first_NoDup h Hh) as Hnd.
  rewrite Hsplit, <- (take_drop BATCH_SIZE rest) in Hnd.
  destruct (fresh_page _ _ _ Hnd) as (Hnd_page & Hfresh & _).
  assert (Hh' : h = ((pre ++ take BATCH_SIZE rest) ++ drop BATCH_SIZE rest)%list).
  { rewrite <- app_assoc, take_drop. exact Hsplit. }
  (* the locals after the page *)
  set (page := take BATCH_SIZE rest) in *.
  assert (Hfold : range_fold uid aid bid page (r_set_empty st 0)
                  = (r_set_empty (range_result (pre ++ page)).1 0,
                     (range_result (pre ++ page)).2)).
  { rewrite Hst at 1. unfold range_result at 2 3. rewrite range_fold_app.
    fold (range_result pre). rewrite Hflag.
    change (r_set_empty (r_set_empty (range_result pre).1 (r_emptyBatchCount st)) 0)
      with (r_set_empty (range_result pre).1 0).
    apply range_fold_set_empty. }
  unfold range_iteration.
  eapply triple_bind; [apply shouldStop_calm |]. intros b ->.
  eapply triple_bind; [apply (fetch_with_retry_calm w h channelId Hserves Hquiet) |].
  intros v ->.
  eapply triple_bind; [apply (settle_batch_calm w h channelId Hserves Hquiet) |].
  intros v ->. rewrite Hfetch.
  destruct page as [| p0 page0] eqn:Epage; [congruence |].
  rewrite <- Epage in *. cbv iota.
  eapply triple_bind; [apply (range_scan_batch_calm channelId) |]. intros st1 ->.
  rewrite range_scan_pure_fresh
    by first [exact Hnd_page | rstate_simpl; rewrite Hseen; exact Hfresh].
  rewrite Hfold. cbn [fst].
  eapply triple_weaken; [apply after_range_scan_calm, Hpage |].
  intros c ->.
  destruct (range_result (pre ++ page)).2 eqn:Eflag.
  - (* a [break] in the page *)
    destruct (range_fold_broken _ _ _ _ _ Eflag) as (Ha & Hf & Hc).
    fold (range_result (pre ++ page)) in Hf, Hc.
    unfold break_after. rstate_simpl. rewrite Ha, Hf, Hc. simpl.
    unfold range_result at 2. rewrite Hh', range_fold_app.
    fold (range_result (pre ++ page)). rewrite Eflag. reflexivity.
  - destruct (range_fold_unbroken _ _ _ _ _ Eflag) as (_ & _ & _ & Hset).
    fold (range_result (pre ++ page)) in Hset.
    assert (Hsettled : foundBoundary (range_result (pre ++ page)).1
                       && negb (collecting (range_result (pre ++ page)).1) = false).
    { destruct (foundBoundary (range_result (pre ++ page)).1) eqn:Ef; [| reflexivity].
      assert (Hinit : settled_range (initial_RState aid bid))
        by (intros H; discriminate H).
      rewrite (Hset Hinit Ef). reflexivity. }
    unfold break_after. rstate_simpl.
    rewrite <- !andb_assoc, Hsettled, !andb_false_r. cbn [orb].
    destruct (truthy bid && (negb (truthy aid)
              && (negb (foundBoundary (range_result (pre ++ page)).1)
                  && (length page <? BATCH_SIZE)))) eqn:Eshort.
    + (* a short page without the [before] boundary *)
      rstate_simpl.
      assert (Hlen : length page < BATCH_SIZE).
      { apply andb_prop in Eshort. destruct Eshort as [_ E].
        apply andb_prop in E. destruct E as [_ E].
        apply andb_prop in E. destruct E as [_ E]. apply Nat.ltb_lt, E. }
      assert (Hdrop : drop BATCH_SIZE rest = []).
      { apply drop_ge. unfold page in Hlen. rewrite length_take in Hlen. lia. }
      rewrite Hh', Hdrop, app_nil_r. reflexivity.
    + split; [| reflexivity]. split; [exact Eflag | reflexivity].
Qed.

(** Against a history, the range extractor returns what [range_fold] says
    of the whole history, within [length h + 3] iterations. *)
Lemma range_walk fuel : forall pre rest st,
  h = (pre ++ rest)%list -> r_walked pre st -> r_emptyBatchCount st = 0 ->
  length rest + 3 <= fuel ->
  triple (calm channelId) (range_loop w fuel channelId uid aid bid st)
    (fun o => o = Finished (r_messages (range_result h).1)).
Proof.
  induction fuel as [| fuel IH]; intros pre rest st Hsplit Hw He Hfuel; [lia |].
  destruct rest as [| m0 rest0].
  - rewrite app_nil_r in Hsplit. subst pre.
    destruct (r_walked_facts h st Hw) as (_ & Hcur). destruct Hw as (_ & Hst).
    eapply triple_weaken; [apply range_end_phase; [exact Hcur | lia | lia] |].
    intros o ->. rewrite Hst. reflexivity.
  - cbn [range_loop].
    eapply triple_bind;
      [apply (range_iteration_walk pre (m0 :: rest0) st Hsplit);
         [discriminate | exact Hw] |].
    assert (Hh' : h = ((pre ++ take BATCH_SIZE (m0 :: rest0))
                       ++ drop BATCH_SIZE (m0 :: rest0))%list).
    { rewrite <- app_assoc, take_drop. exact Hsplit. }
    intros [st2 | st2 | ?] H2.
    + destruct H2 as [Hw2 He2]. apply (IH _ _ _ Hh' Hw2 He2).
      rewrite length_drop. simpl in *. lia.
    + apply triple_seq; [apply (activeScans_delete_keeps w _ HI) |].
      intros _. apply triple_ret. rewrite H2. reflexivity.
    + destruct H2.
Qed.

End RangeWalk.

(** * What the range extractor collects *)

(** The messages listed before the one with id [B]: the whole list when
    there is none. *)
Fixpoint newer_part (B : string) (l : list Message) : list Message :=
  match l with
  | [] => []
  | m :: l' => if String.eqb (m_id m) B then [] else m :: newer_part B l'
  end.

(** The messages listed after the one with id [B] and before the one with
    id [A]; none when [A] is listed first or [B] is not listed. *)
Fixpoint range_part (A B : string) (l : list Message) : list Message :=
  match l with
  | [] => []
  | m :: l' =>
      if String.eqb (m_id m) B then newer_part A l'
      else if String.eqb (m_id m) A then []
      else range_part A B l'
  end.

Lemma newer_part_absent B l : B ∉ ids l -> newer_part B l = l.
Proof.
  induction l as [| m l IH]; intros Hn; simpl; [reflexivity |].
  destruct (String.eqb_spec (m_id m) B) as [E | _].
  - exfalso. apply Hn. simpl. rewrite E. left.
  - f_equal. apply IH. intros Hin. apply Hn. simpl. right. exact Hin.
Qed.

Lemma newer_part_excludes B l : B ∉ ids (newer_part B l).
Proof.
  induction l as [| m l IH]; simpl; [inversion 1 |].
  destruct (String.eqb_spec (m_id m) B) as [E | Hne]; [inversion 1 |].
  simpl. intros Hin. apply elem_of_cons in Hin. destruct Hin as [Hin | Hin].
  - apply Hne. symmetry. exact Hin.
  - exact (IH Hin).
Qed.

Lemma newer_part_split B pre m post :
  m_id m = B -> B ∉ ids pre -> newer_part B (pre ++ m :: post) = pre.
Proof.
  intros Hm. induction pre as [| p pre IH]; intros Hn; simpl.
  - rewrite Hm, String.eqb_refl. reflexivity.
  - destruct (String.eqb_spec (m_id p) B) as [E | _].
    + exfalso. apply Hn. simpl. rewrite E. left.
    + f_equal. apply IH. intros Hin. apply Hn. simpl. right. exact Hin.
Qed.

(** In a history, what is listed before [B] is newer than [B]. *)
Lemma newer_part_newer B h :
  newest_first h = true -> B ∈ ids h ->
  Forall (fun m => newer (m_id m) B) (newer_part B h).
Proof.
  induction h as [| m h IH]; intros Hh Hin; simpl; [apply Forall_nil_2 |].
  apply newest_first_cons in Hh. destruct Hh as (_ & Hall & Hh).
  destruct (String.eqb_spec (m_id m) B) as [E | Hne]; [apply Forall_nil_2 |].
  simpl in Hin. apply elem_of_cons in Hin.
  destruct Hin as [Hin | Hin]; [congruence |].
  apply Forall_cons. split; [| apply IH; assumption].
  unfold ids in Hin. apply list_elem_of_fmap in Hin. destruct Hin as (mb & -> & Hmb).
  rewrite Forall_forall in Hall. apply Hall, Hmb.
Qed.

Lemma range_part_between A B pre mb mid ma post :
  m_id mb = B -> m_id ma = A ->
  NoDup (ids (pre ++ mb :: mid ++ ma :: post)) ->
  range_part A B (pre ++ mb :: mid ++ ma :: post) = mid.
Proof.
  intros Hb Ha. induction pre as [| p pre IH]; intros Hnd; simpl.
  - rewrite Hb, String.eqb_refl. apply newer_part_split; [exact Ha |].
    simpl in Hnd. apply NoDup_cons in Hnd. destruct Hnd as [_ Hnd].
    unfold ids in Hnd. rewrite map_app in Hnd. apply NoDup_app in Hnd.
    destruct Hnd as (_ & Hdisj & _). intros Hin. apply (Hdisj A Hin).
    simpl. rewrite Ha. left.
  - simpl in Hnd. apply NoDup_cons in Hnd. destruct Hnd as [Hp Hnd].
    assert (HpB : m_id p <> B).
    { intros E. apply Hp. unfold ids. rewrite map_app. apply elem_of_app. right.
      simpl. rewrite Hb, E. left. }
    assert (HpA : m_id p <> A).
    { intros E. apply Hp. unfold ids. rewrite map_app. apply elem_of_app. right.
      simpl. right. rewrite map_app. apply elem_of_app. right.
      simpl. rewrite Ha, E. left. }
    destruct (String.eqb_spec (m_id p) B); [contradiction |].
    destruct (String.eqb_spec (m_id p) A); [contradiction |].
    apply IH, Hnd.
Qed.

Lemma range_part_after_first A B pre ma post :
  m_id ma = A -> A <> B -> B ∉ ids pre ->
  range_part A B (pre ++ ma :: post) = [].
Proof.
  intros Ha Hab. induction pre as [| p pre IH]; intros Hn; simpl.
  - rewrite Ha. destruct (String.eqb_spec A B); [contradiction |].
    rewrite String.eqb_refl. reflexivity.
  - destruct (String.eqb_spec (m_id p) B) as [E | _].
    + exfalso. apply Hn. simpl. rewrite E. left.
    + destruct (String.eqb (m_id p) A); [reflexivity |].
      apply IH. intros Hin. apply Hn. simpl. right. exact Hin.
Qed.

Lemma range_part_absent A B l : B ∉ ids l -> range_part A B l = [].
Proof.
  induction l as [| m l IH]; intros Hn; simpl; [reflexivity |].
  destruct (String.eqb_spec (m_id m) B) as [E | _].
  - exfalso. apply Hn. simpl. rewrite E. left.
  - destruct (String.eqb (m_id m) A); [reflexivity |].
    apply IH. intros Hin. apply Hn. simpl. right. exact Hin.
Qed.

Section RangeFolds.

Variable uid : option string.

(** While collecting up to the boundary [A]: the after-only mode, and the
    two-boundary mode once [B] has been met. *)
Lemma fold_collecting A aid bid l : forall st,
  aid = Some A -> truthy aid = true ->
  collecting st = true ->
  (truthy bid = true -> forall x, bid = Some x -> x ∉ ids l) ->
  r_messages (range_fold uid aid bid l st).1
  = (r_messages st ++ List.filter (author_matches uid) (newer_part A l))%list.
Proof.
  intros st -> HA. revert st.
  induction l as [| m l IH]; intros st Hc Hb; simpl.
  - rewrite app_nil_r. reflexivity.
  - unfold range_visit. rewrite HA. rstate_simpl. cbn [id_is andb].
    assert (Hb' : truthy bid = true -> forall x, bid = Some x -> x ∉ ids l).
    { intros Ht x Hx Hin. apply (Hb Ht x Hx). simpl. right. exact Hin. }
    assert (Hm : truthy bid = true -> id_is bid (m_id m) = false).
    { intros Ht. destruct bid as [x |]; [| reflexivity]. simpl.
      apply String.eqb_neq. intros E. apply (Hb Ht x eq_refl). simpl.
      rewrite E. left. }
    destruct (truthy bid) eqn:Hbid; cbn [negb andb].
    + rewrite (Hm eq_refl). cbn [negb andb].
      destruct (String.eqb (m_id m) A); [rewrite app_nil_r; reflexivity |].
      rewrite Hc. cbn [andb].
      destruct (author_matches uid m) eqn:Ea.
      * rewrite IH by (rstate_simpl; auto). rstate_simpl. simpl. rewrite Ea.
        rewrite <- app_assoc. reflexivity.
      * rewrite IH by (rstate_simpl; auto). rstate_simpl. simpl. rewrite Ea.
        reflexivity.
    + destruct (String.eqb (m_id m) A); [rewrite app_nil_r; reflexivity |].
      rewrite Hc. cbn [andb].
      destruct (author_matches uid m) eqn:Ea.
      * rewrite IH by (rstate_simpl; auto; discriminate). rstate_simpl. simpl.
        rewrite Ea, <- app_assoc. reflexivity.
      * rewrite IH by (rstate_simpl; auto; discriminate). rstate_simpl. simpl.
        rewrite Ea. reflexivity.
Qed.

(** In the two-boundary mode, before [B] has been met. *)
Lemma fold_searching A B l : forall st,
  truthy (Some A) = true -> truthy (Some B) = true ->
  collecting st = false -> NoDup (ids l) ->
  r_messages (range_fold uid (Some A) (Some B) l st).1
  = (r_messages st ++ List.filter (author_matches uid) (range_part A B l))%list.
Proof.
  intros st HA HB. revert st.
  induction l as [| m l IH]; intros st Hc Hnd; simpl.
  - rewrite app_nil_r. reflexivity.
  - simpl in Hnd. apply NoDup_cons in Hnd. destruct Hnd as [Hm Hnd].
    unfold range_visit. rewrite HA, HB. rstate_simpl. cbn [id_is andb negb].
    destruct (String.eqb_spec (m_id m) B) as [E | Hne].
    + rewrite (fold_collecting A (Some A) (Some B) l); rstate_simpl; auto.
      intros _ x [= <-]. rewrite <- E. exact Hm.
    + destruct (String.eqb (m_id m) A); [rewrite app_nil_r; reflexivity |].
      rewrite Hc. cbn [andb]. rewrite IH by (rstate_simpl; auto).
      reflexivity.
Qed.

End RangeFolds.

(** * After-only boundaries *)

Lemma after_only_visit_excludes uid B bid st msg :
  truthy (Some B) = true -> truthy bid = false ->
  B ∉ ids (r_messages st) ->
  match range_visit uid (Some B) bid msg (r_see st (m_id msg)) with
  | inl st' | inr st' => B ∉ ids (r_messages st')
  end.
Proof.
  intros HB Hbid Hst. unfold range_visit. rewrite HB, Hbid. rstate_simpl.
  cbn [id_is andb negb].
  destruct (String.eqb_spec (m_id msg) B) as [E | Hne]; [exact Hst |].
  destruct (collecting st && author_matches uid msg); rstate_simpl; [| exact Hst].
  unfold ids. rewrite map_app. intros Hin. apply elem_of_app in Hin.
  destruct Hin as [Hin | Hin]; [exact (Hst Hin) |].
  apply list_elem_of_singleton in Hin. congruence.
Qed.

Definition sample_gap_history : list Message :=
  [message "30" "u"; message "10" "u"]%string.

Ltac not_in_list :=
  let H := fresh in
  intros H;
  repeat (apply elem_of_cons in H; destruct H as [H | H]; [discriminate H |]);
  inversion H.

(** What after-only discovery returns.  With an after-only boundary [B],
    the record with id [B] is never collected, whatever the transport and
    the stop flags do; and against a history served newest first, without
    cancellation, range discovery returns, within [length h + 3]
    iterations, the records listed before the one with id [B] that pass
    the author filter.  When a record has the id [B] these all sort newer
    than [B]; when none has, the walk never stops collecting and they are
    all the records of the history. *)
Lemma after_only_walk
    (channelId : string) (uid bid : option string) (B : string)
    (HB : truthy (Some B) = true) (Hbid : truthy bid = false) :
  (forall w fuel r,
     B ∉ ids (outcome_messages
                (discoverRangeMessages w fuel channelId uid (Some B) bid r).1))
  /\ (forall w h r fuel,
        newest_first h = true -> serves h w -> uncancelled channelId w ->
        should_stop channelId (store r) = false ->
        length h + 3 <= fuel ->
        (discoverRangeMessages w fuel channelId uid (Some B) bid r).1
        = Finished (List.filter (author_matches uid) (newer_part B h))
        /\ (B ∈ ids h -> Forall (fun m => newer (m_id m) B) (newer_part B h))
        /\ (B ∉ ids h -> newer_part B h = h)).
Proof.
  split.
  - intros w fuel r.
    assert (H : triple any_run (discoverRangeMessages w fuel channelId uid (Some B) bid)
                  (fun o => B ∉ ids (outcome_messages o))).
    { unfold discoverRangeMessages. eapply triple_weaken.
      - apply (range_loop_inv w any_run (stable_any_run w) any_message (any_response w)
                 channelId uid (Some B) bid (fun st => B ∉ ids (r_messages st))).
        + intros st n Hst. exact Hst.
        + intros st msg Hst _ _. apply after_only_visit_excludes; assumption.
        + simpl. inversion 1.
      - intros o (st' & Hst' & ->). exact Hst'. }
    apply (H r I).
  - intros w h r fuel Hh Hserves Hquiet Hcalm Hfuel.
    split; [| split; [apply newer_part_newer, Hh | apply newer_part_absent]].
    assert (H : triple (calm channelId)
                  (discoverRangeMessages w fuel channelId uid (Some B) bid)
                  (fun o => o = Finished (List.filter (author_matches uid)
                                            (newer_part B h)))).
    { unfold discoverRangeMessages. eapply triple_weaken.
      - apply (range_walk w h channelId uid (Some B) bid Hserves Hquiet Hh fuel [] h).
        + reflexivity.
        + split; reflexivity.
        + reflexivity.
        + exact Hfuel.
      - intros o ->. f_equal. unfold range_result.
        rewrite (fold_collecting uid B (Some B) bid h); auto.
        + unfold initial_RState. cbn [collecting]. rewrite HB, Hbid. reflexivity.
        + rewrite Hbid. discriminate. }
    apply (H r Hcalm).
Qed.

(** C1, at the input where the code departs from it: the history holds
    the records 30 and 10 and the after-only boundary is 20, the id of no
    record.  The claim promises the empty result; range discovery returns
    both records, the second of them older than the boundary, because
    collecting starts switched on and only meeting the boundary record
    switches it off.  The before-only walk of the same function, given
    the same unmet boundary, returns nothing. *)
Theorem C1_unmet_after_boundary :
  ("20"%string ∉ ids sample_gap_history)
  /\ (discoverRangeMessages (history_world sample_gap_history) 5 "c"%string
        None (Some "20"%string) None idle_run).1
     = Finished [message "30" "u"; message "10" "u"]%string
  /\ newerb "10" "20" = false
  /\ (discoverRangeMessages (history_world sample_gap_history) 5 "c"%string
        None None (Some "20"%string) idle_run).1
     = Finished [].
Proof.
  split; [unfold sample_gap_history; simpl; not_in_list |].
  repeat split; vm_compute; reflexivity.
Qed.

Definition sample_history : list Message :=
  [message "40" "u1"; message "30" "u2"; message "20" "u1"; message "10" "u1"]%string.

(** * Two boundaries *)

Lemma both_visit_idle uid A B st msg :
  truthy (Some A) = true -> truthy (Some B) = true ->
  m_id msg <> B ->
  collecting st = false /\ r_messages st = [] ->
  match range_visit uid (Some A) (Some B) msg (r_see st (m_id msg)) with
  | inl st' | inr st' => collecting st' = false /\ r_messages st' = []
  end.
Proof.
  intros HA HB Hne [Hc Hm]. unfold range_visit. rewrite HA, HB. rstate_simpl.
  cbn [id_is andb negb].
  destruct (String.eqb_spec (m_id msg) B); [contradiction |].
  destruct (String.eqb (m_id msg) A); rstate_simpl; [split; auto |].
  rewrite Hc. simpl. split; assumption.
Qed.

(** In a history, a boundary [A] newer than [B] is listed before [B]. *)
Lemma range_part_newer_after A B h :
  newest_first h = true -> A ∈ ids h -> newer A B -> range_part A B h = [].
Proof.
  intros Hh Hin Hnewer.
  assert (Hab : A <> B).
  { intros ->. unfold newer in Hnewer. rewrite newerb_irrefl in Hnewer. discriminate. }
  induction h as [| m h IH]; [reflexivity |].
  apply newest_first_cons in Hh. destruct Hh as (_ & Hall & Hh). simpl.
  destruct (String.eqb_spec (m_id m) B) as [E | _].
  - (* [B] listed first: then it is newer than [A] *)
    exfalso. simpl in Hin. apply elem_of_cons in Hin. destruct Hin as [Hin | Hin].
    + apply Hab. congruence.
    + unfold ids in Hin. apply list_elem_of_fmap in Hin. destruct Hin as (ma & -> & Hma).
      rewrite Forall_forall in Hall. specialize (Hall ma Hma). unfold newer in *.
      rewrite E in Hall. rewrite (newerb_asym _ _ Hall) in Hnewer. discriminate.
  - destruct (String.eqb_spec (m_id m) A) as [_ | Hne]; [reflexivity |].
    apply IH; [exact Hh |]. simpl in Hin. apply elem_of_cons in Hin.
    destruct Hin as [Hin | Hin]; [congruence | exact Hin].
Qed.

(** [x] lies strictly between [A] and [B]: older than [B], newer than [A]. *)
Definition strictly_between (A B : string) (m : Message) : bool :=
  newerb B (m_id m) && newerb (m_id m) A.

(** C2, as the specification states it, fails: with [after = 40] newer
    than [before = 10], the records 30 and 20 lie strictly between the
    boundaries, and nothing is returned, because the walk meets the
    [after] boundary first and stops there. *)
Lemma C2_newer_after_boundary_counterexample :
  newer "40" "10"
  /\ List.filter (strictly_between "10" "40") sample_history
     = [message "30" "u2"; message "20" "u1"]%string
  /\ (discoverRangeMessages (history_world sample_history) 7 "c"%string
        None (Some "40"%string) (Some "10"%string) idle_run).1
     = Finished [].
Proof. repeat split; vm_compute; reflexivity. Qed.

(** What discovery with both boundaries returns against a history: the
    records listed after the one with id [B] and before the one with id
    [A] that pass the author filter. *)
Lemma two_boundaries_walk
    (w : World) (h : list Message) (channelId : string) (uid : option string)
    (A B : string) (r : Run) (fuel : nat)
    (HA : truthy (Some A) = true) (HB : truthy (Some B) = true) :
  newest_first h = true -> serves h w -> uncancelled channelId w ->
  should_stop channelId (store r) = false ->
  length h + 3 <= fuel ->
  (discoverRangeMessages w fuel channelId uid (Some A) (Some B) r).1
  = Finished (List.filter (author_matches uid) (range_part A B h)).
Proof.
  intros Hh Hserves Hquiet Hcalm Hfuel.
  assert (H : triple (calm channelId)
                (discoverRangeMessages w fuel channelId uid (Some A) (Some B))
                (fun o => o = Finished (List.filter (author_matches uid)
                                          (range_part A B h)))).
  { unfold discoverRangeMessages. eapply triple_weaken.
    - apply (range_walk w h channelId uid (Some A) (Some B)
               Hserves Hquiet Hh fuel [] h).
      + reflexivity.
      + split; reflexivity.
      + reflexivity.
      + exact Hfuel.
    - intros o ->. f_equal. unfold range_result.
      rewrite (fold_searching uid A B h); auto.
      + unfold initial_RState. cbn [collecting]. rewrite HA, HB. reflexivity.
      + apply newest_first_NoDup, Hh. }
  apply (H r Hcalm).
Qed.

Lemma filter_andb {X} (f g : X -> bool) (l : list X) :
  List.filter (fun x => f x && g x) l = List.filter g (List.filter f l).
Proof.
  induction l as [| x l IH]; [reflexivity |]. simpl.
  destruct (f x); simpl; [destruct (g x); rewrite IH; reflexivity | exact IH].
Qed.

(** In a history, the records strictly between two listed records are
    those listed between them. *)
Lemma strictly_between_split A B pre mb mid ma post :
  newest_first (pre ++ mb :: mid ++ ma :: post) = true ->
  m_id mb = B -> m_id ma = A ->
  List.filter (strictly_between A B) (pre ++ mb :: mid ++ ma :: post) = mid.
Proof.
  intros Hh Hmb Hma. unfold strictly_between.
  rewrite (filter_andb (fun m => newerb B (m_id m)) (fun m => newerb (m_id m) A)).
  rewrite <- Hmb, (older_than_split pre mb (mid ++ ma :: post) Hh).
  apply newest_first_app in Hh. destruct Hh as (_ & Hh & _).
  apply newest_first_cons in Hh. destruct Hh as (_ & _ & Hh).
  apply newest_first_app in Hh. destruct Hh as (_ & Hpost & Hcross).
  apply newest_first_cons in Hpost. destruct Hpost as (_ & Hall & _).
  rewrite List.filter_app. simpl. rewrite <- Hma, newerb_irrefl.
  assert (Hmid : List.filter (fun m => newerb (m_id m) (m_id ma)) mid = mid).
  { clear -Hcross. induction mid as [| m mid IH]; [reflexivity |].
    apply Forall_cons in Hcross. destruct Hcross as [Hm Hrest].
    apply Forall_cons in Hm. destruct Hm as [Hm _]. simpl.
    unfold newer in Hm. rewrite Hm. f_equal. apply IH, Hrest. }
  assert (Hp : List.filter (fun m => newerb (m_id m) (m_id ma)) post = []).
  { clear -Hall. induction post as [| q post IH]; [reflexivity |].
    apply Forall_cons in Hall. destruct Hall as [Hq Hrest]. simpl.
    rewrite (newerb_asym _ _ Hq). apply IH, Hrest. }
  rewrite Hmid, Hp, app_nil_r. reflexivity.
Qed.

(** In a history, a listed [A] older than a listed [B] is listed after it. *)
Lemma older_listed_after A B h :
  newest_first h = true -> A ∈ ids h -> B ∈ ids h -> newer B A ->
  exists pre mb mid ma post,
    h = (pre ++ mb :: mid ++ ma :: post)%list /\ m_id mb = B /\ m_id ma = A.
Proof.
  intros Hh HinA HinB Hnewer.
  unfold ids in HinB. apply list_elem_of_fmap in HinB. destruct HinB as (mb & HB & Hmb).
  apply list_elem_of_split in Hmb. destruct Hmb as (pre & rest & ->).
  unfold ids in HinA. rewrite map_app in HinA. apply elem_of_app in HinA.
  pose proof Hh as Hh'. apply newest_first_app in Hh'. destruct Hh' as (_ & Hrest & Hcross).
  destruct HinA as [HinA | HinA].
  - exfalso. apply list_elem_of_fmap in HinA. destruct HinA as (ma & HA & Hma).
    rewrite Forall_forall in Hcross. specialize (Hcross ma Hma).
    apply Forall_cons in Hcross. destruct Hcross as [Hc _].
    unfold newer in Hc, Hnewer. rewrite <- HA, <- HB in Hc.
    rewrite (newerb_asym _ _ Hc) in Hnewer. discriminate.
  - simpl in HinA. apply elem_of_cons in HinA. destruct HinA as [HinA | HinA].
    + exfalso. unfold newer in Hnewer. rewrite HinA, <- HB, newerb_irrefl in Hnewer.
      discriminate.
    + apply list_elem_of_fmap in HinA. destruct HinA as (ma & HA & Hma).
      apply list_elem_of_split in Hma. destruct Hma as (mid & post & ->).
      exists pre, mb, mid, ma, post. split; [reflexivity |]. split; congruence.
Qed.

(** C2, amended: with both boundaries, [after = A] and [before = B].
    Whenever no fetched page holds a record with id [B], the result is
    empty, whatever else the transport does.  Against a history served
    newest first, without cancellation, within [length h + 3] iterations:
    when records with the ids [A] and [B] both occur and [A] is the older
    of the two, range discovery returns exactly the records strictly
    between them (older than [B], newer than [A]) that pass the author
    filter; when a record with id [A] occurs and [A] is newer than [B], it
    returns nothing; when no record has the id [B], it returns nothing.
    (What is returned when [B] occurs and [A] does not is left out
    here.) *)
Theorem C2_two_boundaries
    (channelId : string) (uid : option string) (A B : string)
    (HA : truthy (Some A) = true) (HB : truthy (Some B) = true) :
  (forall w,
     (forall t c q body, restGet w t c q = Resolved (Some body) ->
                         Forall (fun m => m_id m <> B) body) ->
     forall fuel r,
       outcome_messages
         (discoverRangeMessages w fuel channelId uid (Some A) (Some B) r).1 = [])
  /\ (forall w h r fuel,
        newest_first h = true -> serves h w -> uncancelled channelId w ->
        should_stop channelId (store r) = false ->
        length h + 3 <= fuel ->
        let result := (discoverRangeMessages w fuel channelId uid (Some A) (Some B) r).1 in
        (A ∈ ids h -> B ∈ ids h -> newer B A ->
         result = Finished (List.filter (author_matches uid)
                              (List.filter (strictly_between A B) h)))
        /\ (A ∈ ids h -> newer A B -> result = Finished [])
        /\ (B ∉ ids h -> result = Finished [])).
Proof.
  split.
  - intros w Hw fuel r.
    assert (H : triple any_run
                  (discoverRangeMessages w fuel channelId uid (Some A) (Some B))
                  (fun o => outcome_messages o = [])).
    { unfold discoverRangeMessages. eapply triple_weaken.
      - apply (range_loop_inv w any_run (stable_any_run w)
                 (fun m => m_id m <> B) Hw channelId uid (Some A) (Some B)
                 (fun st => collecting st = false /\ r_messages st = [])).
        + intros st n Hst. exact Hst.
        + intros st msg Hst Hm _. apply both_visit_idle; assumption.
        + unfold initial_RState. cbn [collecting r_messages]. rewrite HA, HB.
          split; reflexivity.
      - intros o (st' & [_ Hst'] & ->). exact Hst'. }
    apply (H r I).
  - intros w h r fuel Hh Hserves Hquiet Hcalm Hfuel result.
    assert (Hresult : result = Finished (List.filter (author_matches uid)
                                           (range_part A B h))).
    { apply two_boundaries_walk; assumption. }
    rewrite Hresult. split; [| split].
    + intros HinA HinB Hnewer.
      destruct (older_listed_after A B h Hh HinA HinB Hnewer)
        as (pre & mb & mid & ma & post & -> & Hmb & Hma).
      rewrite (strictly_between_split A B pre mb mid ma post Hh Hmb Hma).
      rewrite (range_part_between A B pre mb mid ma post Hmb Hma
                 (newest_first_NoDup _ Hh)).
      reflexivity.
    + intros HinA Hnewer. rewrite (range_part_newer_after A B h Hh HinA Hnewer).
      reflexivity.
    + intros Hout. rewrite (range_part_absent A B h Hout). reflexivity.
Qed.

Lemma C2_two_boundaries_witness :
  (discoverRangeMessages (history_world sample_history) 7 "c"%string
     None (Some "10"%string) (Some "40"%string) idle_run).1
  = Finished [message "30" "u2"; message "20" "u1"]%string.
Proof.
  pose proof (proj2 (C2_two_boundaries "c"%string None "10"%string "40"%string
                       eq_refl eq_refl)
                (history_world sample_history) sample_history idle_run 7
                eq_refl (history_world_serves sample_history)
                (history_world_uncancelled "c"%string sample_history)
                eq_refl ltac:(simpl; lia)) as H.
  cbv zeta in H. destruct H as (H & _ & _).
  apply H.
  - right. right. right. left.
  - left.
  - reflexivity.
Defined.

(** * The command handler and the purge in progress *)

Definition with_trace (r : Run) (t : list Event) : Run :=
  {| clock := clock r; store := store r; trace := t |}.

(** A store with a purge in progress in channel [c], without and with a
    pending confirmation. *)
Definition purging_store : Store :=
  start_purge "c"%string empty_store.

Definition sample_confirmation : PendingConfirmation :=
  {| pc_count := 3; pc_userId := Some "u1"%string; pc_mode := ModeSelf;
     pc_excludeIds := Some ∅ |}.

Definition purging_pending_store : Store :=
  set_pending "c"%string sample_confirmation purging_store.

Definition sample_env : Env :=
  {| currentUserId := "u1"%string;
     getChannel := fun _ => Some {| channel_type := 0 |};
     can_manage := fun _ => true;
     deleteDelay := None |}.

Definition run_from (s : Store) : Run := {| clock := 0; store := s; trace := [] |}.

(** While a purge is in progress, every subcommand other than confirm is
    answered that an operation is in progress, and nothing else happens. *)
Lemma execute_rejected env subcommand channelId r :
  subcommand <> CmdConfirm ->
  has_purge channelId (store r) = true ->
  execute env subcommand channelId r
  = (None, with_trace r (trace r ++ [EvSend channelId AlreadyInProgress])).
Proof.
  intros Hcmd Hp.
  destruct subcommand; try contradiction;
    unfold execute, mbind, M_bind, getStore; rewrite Hp; reflexivity.
Qed.

(** C5, at the input where the code departs from it: a confirm in a
    channel with a purge in progress and a confirmation pending.  The
    confirm is answered that an operation is in progress and starts
    nothing, as claimed; but the pending confirmation has been removed
    before the check for a purge in progress, so the per-channel state is
    not left unchanged.  Any other subcommand, in the same state, is
    answered the same and changes nothing. *)
Theorem C5_confirm_while_purging_drops_pending :
  has_purge "c"%string purging_pending_store = true
  /\ pendingConfirmations purging_pending_store !! "c"%string = Some sample_confirmation
  /\ execute sample_env CmdConfirm "c"%string (run_from purging_pending_store)
     = (None, {| clock := 0;
                 store := delete_pending "c"%string purging_pending_store;
                 trace := [EvSend "c"%string AlreadyInProgress] |})
  /\ pendingConfirmations
       (store (execute sample_env CmdConfirm "c"%string
                 (run_from purging_pending_store)).2) !! "c"%string
     = None
  /\ execute sample_env (CmdSelf (Some "5"%string) None None None) "c"%string
       (run_from purging_pending_store)
     = (None, {| clock := 0; store := purging_pending_store;
                 trace := [EvSend "c"%string AlreadyInProgress] |}).
Proof. repeat split; vm_compute; reflexivity. Qed.

(** * Confirming twice *)

(** No confirmation is pending for the channel. *)
Definition no_pending (channelId : string) : Run -> Prop :=
  fun r => pendingConfirmations (store r) !! channelId = None.

(** No scan of the channel completes while the task is suspended. *)
Definition no_new_scan (channelId : string) (w : World) : Prop :=
  forall t s, pendingConfirmations s !! channelId = None ->
              pendingConfirmations (interfere w t s) !! channelId = None.

Lemma no_pending_stable w channelId :
  no_new_scan channelId w -> stable w (no_pending channelId).
Proof.
  intros Hw. split.
  - intros r Hr. apply Hw, Hr.
  - intros e r _ Hr. exact Hr.
  - intros c r Hr. exact Hr.
Qed.

Section KeepsPending.

Variable w : World.
Variable env : Env.
Variable channelId : string.
Hypothesis Hw : no_new_scan channelId w.

Let HI : stable w (no_pending channelId) := no_pending_stable w channelId Hw.

Lemma discoverMessages_keeps_pending fuel opts :
  triple (no_pending channelId) (discoverMessages w fuel channelId opts) (fun _ => True).
Proof.
  unfold discoverMessages.
  apply triple_seq; [apply shouldStop_keeps |]. intros [|].
  - apply triple_seq; [apply (activeScans_delete_keeps w _ HI) |].
    intros _. apply triple_ret. exact I.
  - destruct (truthy (afterId opts) || truthy (beforeId opts)).
    + eapply triple_weaken.
      * apply (range_loop_inv w _ HI any_message (any_response w) channelId
                 (userId opts) (afterId opts) (beforeId opts) (fun _ => True)).
        -- trivial.
        -- intros st msg _ _ _. destruct (range_visit _ _ _ _ _); exact I.
        -- exact I.
      * trivial.
    + eapply triple_weaken.
      * apply (discover_loop_inv w _ HI (fun n r Hr => Hr) channelId opts
                 (fun _ _ => True)); unfold holds; trivial.
      * trivial.
Qed.

Lemma purge_loop_keeps_pending purge canDeleteOthers excludeIds total rest :
  forall i deleted failed,
  triple (no_pending channelId)
    (purge_loop w env channelId purge canDeleteOthers excludeIds total rest
       i deleted failed)
    (fun _ => True).
Proof.
  induction rest as [| msg rest IH]; intros i deleted failed; simpl.
  - apply triple_ret. exact I.
  - apply triple_seq; [intros r Hr; split; [exact I | exact Hr] |]. intros s.
    destruct (purge_stopped purge s); [apply triple_ret; exact I |].
    destruct (excluded excludeIds (m_id msg)); [apply IH |].
    match goal with |- context [if ?b then _ else _] => destruct b end; [apply IH |].
    apply triple_seq.
    { unfold RestAPI_del. intros r Hr. split; [exact I |].
      unfold mbind, M_bind, now, mret, M_ret. simpl. apply Hw, Hr. }
    intros [|].
    + apply triple_seq; [intros r Hr; split; [exact I | exact Hr] |]. intros _.
      apply triple_seq.
      { destruct (i <? total - 1); [apply (sleep_keeps w _ HI) |].
        apply triple_ret. exact I. }
      intros _. apply IH.
    + apply triple_seq; [intros r Hr; split; [exact I | exact Hr] |]. intros _.
      apply IH.
Qed.

Lemma run_task_keeps_pending fuel confirmation :
  triple (no_pending channelId)
    (run_task w env fuel channelId (TaskConfirmed confirmation)) (fun _ => True).
Proof.
  simpl. unfold confirmed_purge.
  apply triple_seq; [apply discoverMessages_keeps_pending |].
  intros [messages | sofar]; [| apply triple_ret; exact I].
  assert (Hend : forall (k : M TaskEnd),
             triple (no_pending channelId) k (fun _ => True) ->
             triple (no_pending channelId)
               (modifyStore (end_purge channelId) ≫= fun _ => k) (fun _ => True)).
  { intros k Hk. apply triple_seq; [| intros _; exact Hk].
    intros r Hr. split; [exact I | exact Hr]. }
  assert (Hsend : forall reply,
             triple (no_pending channelId)
               (sendBotMessage channelId reply ≫= fun _ => mret TaskDone)
               (fun _ => True)).
  { intros reply. apply triple_seq; [apply (emit_keeps w _ HI); exact I |].
    intros _. apply triple_ret. exact I. }
  destruct (filter_excluded (pc_excludeIds confirmation) messages).
  - apply Hend, Hsend.
  - apply triple_seq.
    + unfold executePurge.
      apply triple_seq; [intros r Hr; split; [exact I | exact Hr] |]. intros s.
      destruct (activePurges s !! channelId); [apply purge_loop_keeps_pending |].
      apply triple_ret. exact I.
    + intros result. apply Hend, Hsend.
Qed.

End KeepsPending.

Lemma confirm_nothing_pending env channelId r :
  pendingConfirmations (store r) !! channelId = None ->
  execute env CmdConfirm channelId r
  = (None, with_trace r (trace r ++ [EvSend channelId NoPendingConfirmation])).
Proof.
  intros H. unfold execute, mbind, M_bind, getStore. rewrite H. reflexivity.
Qed.

Lemma confirm_consumes env channelId r :
  pendingConfirmations (store (execute env CmdConfirm channelId r).2) !! channelId = None.
Proof.
  unfold execute, mbind, M_bind, getStore.
  destruct (pendingConfirmations (store r) !! channelId) as [c |] eqn:E.
  - cbn -[has_purge]. destruct (has_purge channelId _); cbn; apply lookup_delete_eq.
  - cbn. exact E.
Qed.

Lemma confirm_task env channelId r task :
  (execute env CmdConfirm channelId r).1 = Some task ->
  exists confirmation, task = TaskConfirmed confirmation.
Proof.
  unfold execute, mbind, M_bind, getStore.
  destruct (pendingConfirmations (store r) !! channelId) as [c |]; [| discriminate].
  cbn -[has_purge]. destruct (has_purge channelId _); cbn; [discriminate |].
  intros [= <-]. exists c. reflexivity.
Qed.

(** C6: a confirm leaves no confirmation pending for the channel; a second
    confirm right after it, or after the purge it started has run for any
    length of time while no scan of the channel completes, is answered
    that nothing is pending: it starts no task and changes no state, so no
    [PurgeState] is created and no second deletion run begins. *)
Theorem C6_confirm_twice (env : Env) (channelId : string) (r : Run) :
  let first := execute env CmdConfirm channelId r in
  pendingConfirmations (store first.2) !! channelId = None
  /\ execute env CmdConfirm channelId first.2
     = (None, with_trace first.2
                (trace first.2 ++ [EvSend channelId NoPendingConfirmation]))
  /\ (forall w fuel task,
        first.1 = Some task -> no_new_scan channelId w ->
        let later := (run_task w env fuel channelId task first.2).2 in
        execute env CmdConfirm channelId later
        = (None, with_trace later
                   (trace later ++ [EvSend channelId NoPendingConfirmation]))).
Proof.
  intros first. pose proof (confirm_consumes env channelId r) as Hnone.
  fold first in Hnone. split; [exact Hnone |].
  split; [apply confirm_nothing_pending, Hnone |].
  intros w fuel task Htask Hw later. apply confirm_nothing_pending.
  destruct (confirm_task env channelId r task Htask) as [c ->].
  apply (run_task_keeps_pending w env channelId Hw fuel c first.2 Hnone).
Qed.

Definition pending_store : Store :=
  set_pending "c"%string sample_confirmation empty_store.

Lemma C6_confirm_twice_witness :
  execute sample_env CmdConfirm "c"%string
    (run_task (history_world sample_history) sample_env 7 "c"%string
       (TaskConfirmed sample_confirmation)
       (execute sample_env CmdConfirm "c"%string (run_from pending_store)).2).2
  = (None,
     with_trace
       (run_task (history_world sample_history) sample_env 7 "c"%string
          (TaskConfirmed sample_confirmation)
          (execute sample_env CmdConfirm "c"%string (run_from pending_store)).2).2
       (trace
          (run_task (history_world sample_history) sample_env 7 "c"%string
             (TaskConfirmed sample_confirmation)
             (execute sample_env CmdConfirm "c"%string (run_from pending_store)).2).2
        ++ [EvSend "c"%string NoPendingConfirmation])).
Proof.
  apply (proj2 (proj2 (C6_confirm_twice sample_env "c"%string (run_from pending_store)))
           (history_world sample_history) 7 (TaskConfirmed sample_confirmation)).
  - reflexivity.
  - intros t s H. exact H.
Defined.

(** * The deletion executor and excluded ids *)

(** [RestAPI.del] is never called on the message [X] after the events [t0]. *)
Definition never_deletes (X : string) (t0 : list Event) (r : Run) : Prop :=
  exists events, trace r = (t0 ++ events)%list
                 /\ forall c, EvDel c X ∉ events.

(** How many of the records have the id [X]. *)
Definition occurrences (X : string) (l : list Message) : nat :=
  length (List.filter (fun m => String.eqb (m_id m) X) l).

(** The record is the current user's or others' records may be deleted. *)
Definition eligible (env : Env) (canDeleteOthers : bool) (m : Message) : Prop :=
  m_author m = Some (currentUserId env) \/ canDeleteOthers = true.

Lemma occurrences_unique X l :
  NoDup (ids l) -> X ∈ ids l -> occurrences X l = 1.
Proof.
  unfold occurrences. induction l as [| m l IH]; intros Hnd Hin; [inversion Hin |].
  simpl in Hnd. apply NoDup_cons in Hnd. destruct Hnd as [Hm Hnd]. simpl.
  destruct (String.eqb_spec (m_id m) X) as [E | Hne].
  - simpl. f_equal. rewrite <- E in *. clear -Hm.
    induction l as [| m' l IH]; [reflexivity |]. simpl.
    destruct (String.eqb_spec (m_id m') (m_id m)) as [E | _].
    + exfalso. apply Hm. simpl. rewrite E. left.
    + apply IH. intros Hin. apply Hm. simpl. right. exact Hin.
  - apply IH; [exact Hnd |]. simpl in Hin. apply elem_of_cons in Hin.
    destruct Hin as [Hin | Hin]; [congruence | exact Hin].
Qed.

Section Excluded.

Variable w : World.
Variable env : Env.
Variable channelId : string.
Variable purge : nat.
Variable canDeleteOthers : bool.
Variable X : string.
Variable t0 : list Event.

(** Nothing raises [purge.stop] while the executor is suspended. *)
Hypothesis Hw : forall t s, purge_stopped purge s = false ->
                            purge_stopped purge (interfere w t s) = false.

Definition purging (r : Run) : Prop :=
  purge_stopped purge (store r) = false /\ never_deletes X t0 r.

Lemma purging_suspend r : purging r -> purging (suspend w r).2.
Proof. intros [Hs Ht]. split; [apply Hw, Hs | exact Ht]. Qed.

Lemma purging_emit e r :
  (forall c, e <> EvDel c X) -> purging r -> purging (emit e r).2.
Proof.
  intros He [Hs (events & Ht & Hev)]. split; [exact Hs |].
  exists (events ++ [e])%list. simpl. rewrite Ht, app_assoc. split; [reflexivity |].
  intros c Hin. apply elem_of_app in Hin. destruct Hin as [Hin | Hin].
  - exact (Hev c Hin).
  - apply list_elem_of_singleton in Hin. exact (He c (eq_sym Hin)).
Qed.

Lemma purging_update f r :
  (forall p, stop (f p) = stop p) ->
  purging r -> purging (modifyStore (update_purge purge f) r).2.
Proof.
  intros Hf [Hs Ht]. split; [| exact Ht].
  unfold purge_stopped in *. simpl. rewrite lookup_alter_eq.
  destruct (heap (store r) !! purge) as [p |]; simpl; [rewrite Hf; exact Hs | reflexivity].
Qed.

Lemma purge_loop_counts total rest : forall i deleted failed,
  Forall (fun m => m_id m <> X -> eligible env canDeleteOthers m) rest ->
  triple purging
    (purge_loop w env channelId purge canDeleteOthers (Some {[ X ]}) total rest
       i deleted failed)
    (fun result => result.1 + result.2 + occurrences X rest
                   = deleted + failed + length rest).
Proof.
  induction rest as [| msg rest IH]; intros i deleted failed Hel; simpl.
  - apply triple_ret. simpl. unfold occurrences. simpl. lia.
  - apply Forall_cons in Hel. destruct Hel as [Hmsg Hel].
    eapply triple_bind with (P := fun s => purge_stopped purge s = false).
    { intros r Hr. split; [apply Hr | exact Hr]. }
    intros s ->. unfold occurrences. simpl.
    destruct (String.eqb_spec (m_id msg) X) as [E | Hne].
    + rewrite bool_decide_eq_true_2 by (apply elem_of_singleton; exact E).
      eapply triple_weaken; [apply IH, Hel |].
      intros result H. unfold occurrences in H. simpl. lia.
    + rewrite bool_decide_eq_false_2
        by (intros Hin; apply elem_of_singleton in Hin; contradiction).
      assert (Hskip : negb match m_author msg with
                           | Some a => String.eqb a (currentUserId env)
                           | None => false
                           end && negb canDeleteOthers = false).
      { destruct (Hmsg Hne) as [Ha | Hc].
        - rewrite Ha, String.eqb_refl. reflexivity.
        - rewrite Hc. apply andb_false_r. }
      rewrite Hskip.
      apply triple_seq.
      { unfold RestAPI_del, mbind, M_bind, now, mret, M_ret.
        intros r Hr. split; [exact I |].
        apply (purging_suspend (emit (EvDel channelId (m_id msg)) r).2), purging_emit;
          [| exact Hr].
        intros c [= _ E]. exact (Hne E). }
      intros [|].
      * apply triple_seq.
        { intros r Hr. split; [exact I |]. apply purging_update; [reflexivity | exact Hr]. }
        intros _. apply triple_seq.
        { destruct (i <? total - 1); [| apply triple_ret; exact I].
          unfold sleep. intros r Hr. split; [exact I |].
          unfold mbind, M_bind.
          apply (purging_suspend (emit (EvSleep (deletionDelay env)) r).2), purging_emit;
            [discriminate | exact Hr]. }
        intros _. eapply triple_weaken; [apply IH, Hel |].
        intros result H. unfold occurrences in H. simpl. lia.
      * apply triple_seq.
        { intros r Hr. split; [exact I |]. apply purging_update; [reflexivity | exact Hr]. }
        intros _. eapply triple_weaken; [apply IH, Hel |].
        intros result H. unfold occurrences in H. simpl. lia.
Qed.

End Excluded.

(** C7: the executor runs with a [PurgeState] whose stop flag is down and
    stays down, on records with distinct ids one of which is [X], with
    [excludeIds = {X}], every other record being the current user's or
    deletable by permission.  Then no delete call is made for [X], and one
    record apart every record is counted, deleted or failed. *)
Theorem C7_excluded_id_is_skipped
    (w : World) (env : Env) (channelId : string) (records : list Message)
    (canDeleteOthers : bool) (X : string) (purge : nat) (r : Run)
    (Hdistinct : NoDup (ids records))
    (HX : X ∈ ids records)
    (Hactive : activePurges (store r) !! channelId = Some purge)
    (Hrunning : purge_stopped purge (store r) = false)
    (Huncancelled : forall t s, purge_stopped purge s = false ->
                                purge_stopped purge (interfere w t s) = false)
    (Heligible : Forall (fun m => m_id m <> X -> eligible env canDeleteOthers m) records) :
  let run := executePurge w env channelId records canDeleteOthers (Some {[ X ]}) r in
  run.1.1 + run.1.2 + 1 = length records
  /\ never_deletes X (trace r) run.2.
Proof.
  intros run. unfold run, executePurge, mbind, M_bind, getStore. rewrite Hactive.
  pose proof (purge_loop_counts w env channelId purge canDeleteOthers X (trace r)
                Huncancelled (length records) records 0 0 0 Heligible r) as H.
  destruct H as [Hcount [_ Hdel]].
  - split; [exact Hrunning |]. exists []. rewrite app_nil_r. split; [reflexivity |].
    intros c Hin. inversion Hin.
  - rewrite (occurrences_unique X records Hdistinct HX) in Hcount.
    split; [simpl in Hcount; lia | exact Hdel].
Qed.

Lemma C7_excluded_id_is_skipped_witness :
  (executePurge (history_world sample_history) sample_env "c"%string sample_history
     true (Some {[ "30"%string ]}) (run_from purging_store)).1
  = (3, 0)
  /\ never_deletes "30"%string []
       (executePurge (history_world sample_history) sample_env "c"%string
          sample_history true (Some {[ "30"%string ]}) (run_from purging_store)).2.
Proof.
  assert (Hd : NoDup (ids sample_history)) by (apply newest_first_NoDup; reflexivity).
  assert (Hin : "30"%string ∈ ids sample_history) by (right; left).
  destruct (C7_excluded_id_is_skipped (history_world sample_history) sample_env
              "c"%string sample_history true "30"%string 0 (run_from purging_store)
              Hd Hin eq_refl eq_refl (fun t s H => H)) as [_ Hnever].
  - apply Forall_forall. intros m _ _. right. reflexivity.
  - split; [vm_compute; reflexivity | exact Hnever].
Defined.

(** * Retries of a page fetch *)



Definition fetch_query (before : option string) : Query :=
  {| q_limit := "100"%string;
     q_before := if truthy before then before else None;
     q_after := None |}.

Lemma bind_run {A B} (c : M A) (k : A -> M B) r :
  (c ≫= k) r = k (c r).1 (c r).2.
Proof. unfold mbind, M_bind. destruct (c r). reflexivity. Qed.







Definition count_gets (t : list Event) : nat :=
  length (List.filter (fun e => match e with EvGet _ _ => true | _ => false end) t).

Lemma count_gets_app t1 t2 : count_gets (t1 ++ t2) = count_gets t1 + count_gets t2.
Proof. unfold count_gets. rewrite List.filter_app, length_app. reflexivity. Qed.







(** [c] makes at most [n] calls of the list endpoint. *)
Definition gets_at_most {A} (c : M A) (n : nat) : Prop :=
  forall r, count_gets (trace (c r).2) <= count_gets (trace r) + n.

Lemma gets_ret {A} (a : A) : gets_at_most (mret a) 0.
Proof. intros r. simpl. lia. Qed.

Lemma gets_bind {A B} (c : M A) (k : A -> M B) n m :
  gets_at_most c n -> (forall a, gets_at_most (k a) m) ->
  gets_at_most (c ≫= k) (n + m).
Proof.
  intros Hc Hk r. unfold mbind, M_bind. specialize (Hc r).
  destruct (c r) as [a r']. specialize (Hk a r'). simpl in *. lia.
Qed.

Lemma gets_sleep w ms : gets_at_most (sleep w ms) 0.
Proof.
  intros r. unfold sleep, mbind, M_bind. simpl. rewrite count_gets_app.
  unfold count_gets at 2. simpl. lia.
Qed.

Lemma gets_fetchMessageBatch w channelId before after :
  gets_at_most (fetchMessageBatch w channelId before after) 1.
Proof.
  intros r. unfold fetchMessageBatch, RestAPI_get, mbind, M_bind, now, mret, M_ret.
  cbn [emit suspend fst snd clock store trace].
  destruct (restGet w (clock r) channelId _) as [[body |] | error];
    cbn [snd trace]; rewrite count_gets_app; unfold count_gets at 2; simpl; lia.
Qed.

Lemma verify_fetch_gets w channelId before unit_ms attempts : forall k,
  gets_at_most (verify_fetch w channelId before unit_ms attempts k) attempts.
Proof.
  induction attempts as [| n IH]; intros k; [apply gets_ret |].
  cbn [verify_fetch]. change (S n) with (1 + n).
  apply gets_bind; [apply gets_fetchMessageBatch |].
  intros [error | [| m body]].
  - change n with (0 + n). apply gets_bind; [apply gets_sleep | intros _; apply IH].
  - change n with (0 + n). apply gets_bind; [apply gets_sleep | intros _; apply IH].
  - intros r. simpl. lia.
Qed.

(** A transport that answers 429 with [retry_after = 5], then 500, then an
    empty page. *)
Definition flaky_world : World :=
  {| restGet := fun t _ _ =>
       match t with
       | 0 => Rejected (ThrownObject (Some 429%Z) (Some 5%Q))
       | 2 => Rejected (ThrownObject (Some 500%Z) None)
       | _ => Resolved (Some [])
       end;
     restDel := fun _ _ _ => true;
     interfere := fun _ s => s;
     dateNow := fun _ => 1700000000000%Z |}.

Example fetch_with_retry_flaky :
  fetch_with_retry flaky_world "c"%string None 5 0 idle_run
  = (Some [],
     {| clock := 5; store := empty_store;
        trace := [EvGet "c"%string (fetch_query None); EvSleep 5000;
                  EvGet "c"%string (fetch_query None); EvSleep 2000;
                  EvGet "c"%string (fetch_query None)] |}).
Proof. vm_compute. reflexivity. Qed.



(** * The cursor *)

(** The [for] loop only appends to [messages] and leaves the cursor. *)
Definition extends (st : DState) (c : Ctl DState) : Prop :=
  match c with
  | Continue st' | Break st' =>
      lastMessageId st' = lastMessageId st
      /\ exists more, messages st' = (messages st ++ more)%list
  | Return result => exists more, result = (messages st ++ more)%list
  end.

Lemma scan_batch_extends channelId uid lim batch : forall st,
  triple any_run (scan_batch channelId uid lim batch st) (extends st).
Proof.
  induction batch as [| msg rest IH]; intros st; simpl.
  - apply triple_ret. split; [reflexivity |]. exists []. rewrite app_nil_r. reflexivity.
  - apply triple_seq; [apply shouldStop_keeps |]. intros [|].
    + apply triple_seq;
        [intros r Hr; split; exact I |].
      intros _. apply triple_ret. exists []. rewrite app_nil_r. reflexivity.
    + destruct (bool_decide (m_id msg ∈ seenMessageIds st)); [apply IH |].
      destruct (author_matches uid msg).
      * cbv zeta. dstate_simpl. destruct (limit_reached lim _).
        -- apply triple_ret. split; [reflexivity |]. exists [msg]. reflexivity.
        -- eapply triple_weaken; [apply IH |].
           intros [st' | st' | result]; unfold extends.
           ++ intros (Hl & more & Hm). dstate_simpl. split; [exact Hl |].
              exists (msg :: more). rewrite Hm, <- app_assoc. reflexivity.
           ++ intros (Hl & more & Hm). dstate_simpl. split; [exact Hl |].
              exists (msg :: more). rewrite Hm, <- app_assoc. reflexivity.
           ++ intros (more & Hm). dstate_simpl. exists (msg :: more).
              rewrite Hm, <- app_assoc. reflexivity.
      * eapply triple_weaken; [apply IH |].
        intros [st' | st' | result]; unfold extends; dstate_simpl; trivial.
Qed.

(** When the oldest id of the batch is the cursor already, the iteration
    leaves the loop; otherwise, if the loop goes on, the cursor is that id. *)
Definition cursor_moved (st : DState) (oldest : Message) (c : Ctl DState) : Prop :=
  match c with
  | Continue st' =>
      lastMessageId st' = Some (m_id oldest)
      /\ ~ (truthy (lastMessageId st) = true
            /\ lastMessageId st = Some (m_id oldest))
  | Break st' => exists more, messages st' = (messages st ++ more)%list
  | Return result => exists more, result = (messages st ++ more)%list
  end.

Lemma after_scan_cursor w channelId opts batch st oldest :
  last batch = Some oldest ->
  triple any_run (after_scan w channelId opts batch st)
    (fun c => match c with
              | Continue st' =>
                  lastMessageId st' = Some (m_id oldest)
                  /\ ~ (truthy (lastMessageId st) = true
                        /\ lastMessageId st = Some (m_id oldest))
              | Break st' => messages st' = messages st
              | Return _ => False
              end).
Proof.
  intros Hlast. unfold after_scan.
  eapply triple_bind with
    (P := fun st1 => messages st1 = messages st /\ lastMessageId st1 = lastMessageId st).
  { unfold report_progress.
    destruct (onProgress opts && negb (length (messages st) =? lastReportedCount st)).
    - apply triple_seq; [intros r Hr; split; exact I |].
      intros _. apply triple_ret. split; reflexivity.
    - apply triple_ret. split; reflexivity. }
  intros st1 [Hm Hl]. unfold advance_cursor. rewrite Hlast, Hl.
  destruct (truthy (lastMessageId st) && id_is (lastMessageId st) (m_id oldest)) eqn:E.
  - apply triple_ret. exact Hm.
  - assert (Hnot : ~ (truthy (lastMessageId st) = true
                      /\ lastMessageId st = Some (m_id oldest))).
    { intros [Ht Hc]. rewrite Ht, Hc in E. simpl in E.
      rewrite String.eqb_refl in E. discriminate. }
    apply triple_seq; [intros r Hr; split; exact I |].
    intros [|]; [apply triple_ret; exact Hm |].
    dstate_simpl. destruct (limit_reached (limit opts) (length (messages st1)));
      [apply triple_ret; exact Hm |].
    apply triple_seq; [intros r Hr; split; exact I |].
    intros _. apply triple_ret. split; [reflexivity | exact Hnot].
Qed.

Lemma consume_batch_cursor w channelId opts batch st oldest :
  last batch = Some oldest ->
  triple any_run (consume_batch w channelId opts batch st) (cursor_moved st oldest).
Proof.
  intros Hlast. unfold consume_batch.
  eapply triple_bind; [apply scan_batch_extends |].
  intros [st' | st' | result]; unfold extends; dstate_simpl.
  - intros (Hl & more & Hm). eapply triple_weaken; [apply after_scan_cursor, Hlast |].
    intros [st2 | st2 | ?]; simpl.
    + rewrite Hl. trivial.
    + intros ->. exists more. exact Hm.
    + intros [].
  - intros (Hl & more & Hm). eapply triple_weaken; [apply after_scan_cursor, Hlast |].
    intros [st2 | st2 | ?]; simpl.
    + rewrite Hl. trivial.
    + intros ->. exists more. exact Hm.
    + intros [].
  - intros Hres. apply triple_ret. exact Hres.
Qed.

(** The limit is reached from some count on. *)
Lemma limit_reached_mono lim m n :
  m <= n -> limit_reached lim n = false -> limit_reached lim m = false.
Proof.
  unfold limit_reached. destruct lim as [l |]; [| reflexivity].
  destruct (l =? 0)%Z; [reflexivity |]. simpl. intros Hmn H.
  apply Z.leb_gt. apply Z.leb_gt in H. lia.
Qed.

(** Below the limit, the [for] loop runs to the end of the batch and
    leaves the cursor. *)
Lemma scan_pure_below uid lim batch : forall st,
  limit_reached lim (length (messages st) + length batch) = false ->
  exists st',
    scan_pure uid lim batch st = Continue st'
    /\ lastMessageId st' = lastMessageId st
    /\ length (messages st') <= length (messages st) + length batch.
Proof.
  induction batch as [| msg rest IH]; intros st Hlim; simpl.
  - exists st. split; [reflexivity |]. split; [reflexivity | lia].
  - simpl in Hlim.
    destruct (bool_decide (m_id msg ∈ seenMessageIds st)).
    + destruct (IH st) as (st' & E & Hl & Hn).
      { eapply limit_reached_mono; [| exact Hlim]. lia. }
      exists st'. split; [exact E |]. split; [exact Hl | lia].
    + destruct (author_matches uid msg); cbv zeta; dstate_simpl.
      * rewrite (limit_reached_mono lim (length (messages st ++ [msg]))
                   (length (messages st) + S (length rest)))
          by (rewrite ?length_app; simpl; lia || exact Hlim).
        match goal with |- context [scan_pure uid lim rest ?st2] =>
          destruct (IH st2) as (st' & E & Hl & Hn)
        end.
        { dstate_simpl. rewrite length_app. simpl.
          replace (length (messages st) + 1 + length rest)
            with (length (messages st) + S (length rest)) by lia.
          exact Hlim. }
        dstate_simpl. rewrite length_app in Hn. simpl in Hn.
        exists st'. split; [exact E |]. split; [exact Hl | lia].
      * match goal with |- context [scan_pure uid lim rest ?st1] =>
          destruct (IH st1) as (st' & E & Hl & Hn)
        end.
        { dstate_simpl. eapply limit_reached_mono; [| exact Hlim]. lia. }
        dstate_simpl. exists st'. split; [exact E |]. split; [exact Hl | lia].
Qed.

(** While no stop flag is up, the [for] loop touches nothing. *)
Lemma scan_batch_run channelId uid lim batch : forall st r,
  should_stop channelId (store r) = false ->
  scan_batch channelId uid lim batch st r = (scan_pure uid lim batch st, r).
Proof.
  induction batch as [| msg rest IH]; intros st r Hcalm; [reflexivity |].
  cbn [scan_batch scan_pure]. rewrite bind_run. unfold shouldStop at 1 2.
  rewrite !bind_run. cbn [getStore mret M_ret fst snd]. rewrite Hcalm.
  destruct (bool_decide (m_id msg ∈ seenMessageIds st)); [apply IH, Hcalm |].
  destruct (author_matches uid msg); cbv zeta; [| apply IH, Hcalm].
  destruct (limit_reached lim _); [reflexivity | apply IH, Hcalm].
Qed.

(** After a non-empty batch the verification of a short page never ends
    the loop, whatever its fetches return. *)
Lemma verify_short_nonempty w channelId cursor batch r :
  batch <> [] -> (verify_short w channelId cursor batch r).1 = false.
Proof.
  intros Hne. unfold verify_short.
  destruct (length batch <? BATCH_SIZE); [| reflexivity].
  rewrite bind_run. cbn [mret M_ret fst].
  destruct (verify_fetch_keeps w any_run (stable_any_run w) any_message
              (any_response w) channelId cursor 300 3 0 r I) as [Hv _].
  destruct (verify_fetch w channelId cursor 300 3 0 r).1 as [vb |]; cbn.
  - destruct Hv as [Hvb _]. destruct vb; [contradiction | reflexivity].
  - destruct batch; [contradiction | reflexivity].
Qed.

(** After the [for] loop: when the oldest id of the batch is not the cursor
    already and the limit is not reached, the loop goes on with the cursor
    on that id. *)
Lemma after_scan_advances w channelId opts batch st oldest r :
  last batch = Some oldest ->
  truthy (lastMessageId st) && id_is (lastMessageId st) (m_id oldest) = false ->
  limit_reached (limit opts) (length (messages st)) = false ->
  exists st',
    (after_scan w channelId opts batch st r).1 = Continue st'
    /\ lastMessageId st' = Some (m_id oldest).
Proof.
  intros Hlast Hmoves Hlim. unfold after_scan. rewrite bind_run.
  assert (Hrep : messages (report_progress opts st r).1 = messages st
                 /\ lastMessageId (report_progress opts st r).1 = lastMessageId st).
  { unfold report_progress.
    destruct (onProgress opts && negb (length (messages st) =? lastReportedCount st));
      [rewrite bind_run |]; split; reflexivity. }
  destruct Hrep as [Hm Hl].
  set (st1 := (report_progress opts st r).1) in *.
  set (r1 := (report_progress opts st r).2).
  unfold advance_cursor. rewrite Hlast, Hl, Hmoves. rewrite bind_run.
  rewrite verify_short_nonempty by (intros ->; discriminate Hlast).
  dstate_simpl. rewrite Hm, Hlim. rewrite bind_run. cbn [mret M_ret fst].
  eexists. split; reflexivity.
Qed.

(** A transport that answers every query with the same page. *)
Definition stuck_world (page : list Message) : World :=
  {| restGet := fun _ _ _ => Resolved (Some page);
     restDel := fun _ _ _ => true;
     interfere := fun _ s => s;
     dateNow := fun _ => 1700000000000%Z |}.

(** The locals of [discoverMessages] once the record 5 has been collected
    and the cursor stands on it. *)
Definition stuck_state : DState :=
  {| messages := [message "5" "u"]%string; lastMessageId := Some "5"%string;
     consecutiveErrors := 0; lastSuccessfulBatchSize := 1;
     lastReportedCount := 0; emptyBatchCount := 0;
     seenMessageIds := {[ "5"%string ]} |}.

Definition plain_options : DiscoverOptions :=
  {| userId := None; afterId := None; beforeId := None; limit := None;
     onProgress := false |}.

(** C9: take an iteration of the pagination loop that is not stopped, is
    below the limit and settles on a non-empty batch.  When the oldest id
    of the batch is the cursor it fetched at, the loop is left in that
    very iteration, whatever fuel remains, and discovery returns what it
    had collected, with what the batch added.  Whenever the loop goes on
    after the batch, the cursor is the oldest id of that batch.  And the
    loop does go on, with the cursor on that id, when the oldest id is not
    the cursor already, no stop flag is up while the batch is read and the
    batch cannot fill the limit: for every author filter, so also when the
    oldest record, or every record of the batch, fails it. *)
Theorem C9_cursor_must_advance
    (w : World) (channelId : string) (opts : DiscoverOptions) (st : DState)
    (fetched batch : list Message) (n : nat) (oldest : Message) (r r1 r2 : Run)
    (Hrunning : should_stop channelId (store r) = false)
    (Hbelow : limit_reached (limit opts) (length (messages st)) = false)
    (Hfetch : fetch_with_retry w channelId (lastMessageId st) 5 0 r = (Some fetched, r1))
    (Hsettle : settle_batch w channelId (lastMessageId st) (emptyBatchCount st) fetched r1
               = (SettledBatch n batch, r2))
    (Holdest : last batch = Some oldest) :
  (truthy (lastMessageId st) = true -> lastMessageId st = Some (m_id oldest) ->
   exists more,
     forall fuel,
       (discover_loop w (S fuel) channelId opts st r).1
       = Finished (messages st ++ more)%list)
  /\ (forall st',
        (discover_iteration w channelId opts st r).1 = Continue st' ->
        lastMessageId st' = Some (m_id oldest))
  /\ (truthy (lastMessageId st) && id_is (lastMessageId st) (m_id oldest) = false ->
      should_stop channelId (store r2) = false ->
      limit_reached (limit opts) (length (messages st) + length batch) = false ->
      exists st',
        (discover_iteration w channelId opts st r).1 = Continue st'
        /\ lastMessageId st' = Some (m_id oldest)).
Proof.
  assert (Hiter : discover_iteration w channelId opts st r
                  = consume_batch w channelId opts batch
                      (set_emptyBatchCount (set_consecutiveErrors st 0) n) r2).
  { unfold discover_iteration, shouldStop, mbind, M_bind, getStore, mret, M_ret.
    rewrite Hrunning, Hbelow, Hfetch. cbv zeta. dstate_simpl.
    rewrite Hsettle. reflexivity. }
  assert (Hgoes : truthy (lastMessageId st) && id_is (lastMessageId st) (m_id oldest)
                  = false ->
                  should_stop channelId (store r2) = false ->
                  limit_reached (limit opts) (length (messages st) + length batch)
                  = false ->
                  exists st',
                    (discover_iteration w channelId opts st r).1 = Continue st'
                    /\ lastMessageId st' = Some (m_id oldest)).
  { intros Hmoves Hcalm Hlim. rewrite Hiter. unfold consume_batch. cbv zeta.
    rewrite bind_run, (scan_batch_run channelId _ _ batch _ r2 Hcalm). cbn [fst snd].
    match goal with |- context [scan_pure _ _ batch ?st0] =>
      destruct (scan_pure_below (userId opts) (limit opts) batch st0)
        as (st1 & -> & Hl & Hn); [dstate_simpl; exact Hlim |]
    end.
    dstate_simpl.
    apply after_scan_advances; [exact Holdest | rewrite Hl; exact Hmoves |].
    eapply limit_reached_mono; [exact Hn | exact Hlim]. }
  pose proof (consume_batch_cursor w channelId opts batch
                (set_emptyBatchCount (set_consecutiveErrors st 0) n) oldest
                Holdest r2 I) as [Hmoved _].
  rewrite <- Hiter in Hmoved. split.
  - intros Htruthy Hcursor.
    destruct (discover_iteration w channelId opts st r).1 as [st' | st' | result] eqn:E;
      simpl in Hmoved; dstate_simpl.
    + exfalso. apply (proj2 Hmoved). split; assumption.
    + destruct Hmoved as [more Hm]. exists more. intros fuel.
      cbn [discover_loop]. rewrite bind_run, E. rewrite bind_run. simpl.
      rewrite Hm. reflexivity.
    + destruct Hmoved as [more Hm]. exists more. intros fuel.
      cbn [discover_loop]. rewrite bind_run, E. simpl. rewrite Hm. reflexivity.
  - split; [| exact Hgoes]. intros st' E. rewrite E in Hmoved. apply Hmoved.
Qed.

(** A discovery for another author than the one of the record 5. *)
Definition other_author_options : DiscoverOptions :=
  {| userId := Some "v"%string; afterId := None; beforeId := None; limit := None;
     onProgress := false |}.

Lemma C9_cursor_must_advance_witness :
  (exists more,
     forall fuel,
       (discover_loop (stuck_world [message "5" "u"]%string) (S fuel) "c"%string
          plain_options stuck_state idle_run).1
       = Finished (messages stuck_state ++ more)%list)
  /\ (exists st',
        (discover_iteration (stuck_world [message "5" "u"]%string) "c"%string
           other_author_options initial_DState idle_run).1
        = Continue st'
        /\ messages st' = []
        /\ lastMessageId st' = Some "5"%string).
Proof.
  split.
  - apply (proj1 (C9_cursor_must_advance (stuck_world [message "5" "u"]%string)
                    "c"%string plain_options stuck_state
                    [message "5" "u"]%string [message "5" "u"]%string 0
                    (message "5" "u")%string idle_run _ _
                    eq_refl eq_refl eq_refl eq_refl eq_refl));
      reflexivity.
  - destruct (proj2 (proj2 (C9_cursor_must_advance
                              (stuck_world [message "5" "u"]%string)
                              "c"%string other_author_options initial_DState
                              [message "5" "u"]%string [message "5" "u"]%string 0
                              (message "5" "u")%string idle_run _ _
                              eq_refl eq_refl eq_refl eq_refl eq_refl))
                eq_refl eq_refl eq_refl) as (st' & E & Hcursor).
    exists st'. split; [exact E |]. split; [| exact Hcursor].
    revert E. vm_compute. intros [= <-]. reflexivity.
Defined.

(** * Boundaries bypass the limit and the progress callback *)

(** The counts reported to the progress callback. *)
Definition progress_reports (t : list Event) : list nat :=
  omap (fun e => match e with EvProgress n => Some n | _ => None end) t.

(** No progress is reported after the events [t0]. *)
Definition silent_since (t0 : list Event) : Run -> Prop :=
  fun r => progress_reports (trace r) = progress_reports t0.

Lemma silent_stable w t0 : stable w (silent_since t0).
Proof.
  split.
  - intros r Hr. exact Hr.
  - intros e r He Hr. unfold silent_since in *. simpl.
    unfold progress_reports in *. rewrite omap_app, Hr.
    destruct e; try (simpl; apply app_nil_r). destruct He.
  - intros c r Hr. exact Hr.
Qed.

Definition with_limit_and_progress (opts : DiscoverOptions) (lim : option Z)
    (progress : bool) : DiscoverOptions :=
  {| userId := userId opts; afterId := afterId opts; beforeId := beforeId opts;
     limit := lim; onProgress := progress |}.

Lemma delete_scan_twice channelId s :
  delete_scan channelId (delete_scan channelId s) = delete_scan channelId s.
Proof.
  unfold delete_scan. simpl. f_equal. apply map_eq. intros k.
  destruct (decide (k = channelId)) as [-> | Hne].
  - rewrite !lookup_delete_eq. reflexivity.
  - rewrite !lookup_delete_ne by congruence. reflexivity.
Qed.

(** C10: with a boundary set, discovery is the range extractor run on the
    author filter and the two boundaries: the same result, the same store,
    the same trace.  The limit and the progress callback passed with the
    boundary change nothing, and no progress is reported. *)
Theorem C10_boundaries_ignore_limit_and_progress
    (w : World) (fuel : nat) (channelId : string) (opts : DiscoverOptions) (r : Run)
    (Hboundary : truthy (afterId opts) || truthy (beforeId opts) = true) :
  discoverMessages w (S fuel) channelId opts r
  = discoverRangeMessages w (S fuel) channelId
      (userId opts) (afterId opts) (beforeId opts) r
  /\ (forall lim progress,
        discoverMessages w fuel channelId (with_limit_and_progress opts lim progress) r
        = discoverMessages w fuel channelId opts r)
  /\ progress_reports (trace (discoverMessages w (S fuel) channelId opts r).2)
     = progress_reports (trace r).
Proof.
  assert (Hrange : discoverMessages w (S fuel) channelId opts r
                   = discoverRangeMessages w (S fuel) channelId
                       (userId opts) (afterId opts) (beforeId opts) r).
  { unfold discoverMessages, discoverRangeMessages.
    cbn [range_loop]. unfold range_iteration.
    unfold shouldStop, activeScans_delete, modifyStore, mbind, M_bind, getStore,
      mret, M_ret.
    destruct (should_stop channelId (store r)) eqn:Estop.
    - cbn [clock store trace]. rewrite delete_scan_twice. reflexivity.
    - rewrite Hboundary. cbn [range_loop]. unfold range_iteration.
      unfold shouldStop, activeScans_delete, modifyStore, mbind, M_bind, getStore,
        mret, M_ret.
      rewrite Estop. reflexivity. }
  split; [exact Hrange |]. split.
  - intros lim progress. unfold discoverMessages, with_limit_and_progress.
    unfold shouldStop, mbind, M_bind, getStore, mret, M_ret. cbn [afterId beforeId userId].
    destruct (should_stop channelId (store r)); [reflexivity |].
    rewrite Hboundary. reflexivity.
  - rewrite Hrange. unfold discoverRangeMessages.
    apply (range_loop_inv w (silent_since (trace r)) (silent_stable w (trace r))
             any_message (any_response w) channelId
             (userId opts) (afterId opts) (beforeId opts) (fun _ => True)).
    + trivial.
    + intros st msg _ _ _. destruct (range_visit _ _ _ _ _); exact I.
    + exact I.
    + reflexivity.
Qed.

(** With [limit = 1] and a callback, the three records newer than the
    boundary are all returned. *)
Lemma C10_boundaries_ignore_limit_and_progress_witness :
  discoverMessages (history_world sample_history) 7 "c"%string
    {| userId := None; afterId := Some "10"%string; beforeId := None;
       limit := Some 1%Z; onProgress := true |} idle_run
  = discoverRangeMessages (history_world sample_history) 7 "c"%string
      None (Some "10"%string) None idle_run
  /\ (discoverRangeMessages (history_world sample_history) 7 "c"%string
        None (Some "10"%string) None idle_run).1
     = Finished [message "40" "u1"; message "30" "u2"; message "20" "u1"]%string.
Proof.
  split.
  - apply (proj1 (C10_boundaries_ignore_limit_and_progress
                    (history_world sample_history) 6 "c"%string
                    {| userId := None; afterId := Some "10"%string; beforeId := None;
                       limit := Some 1%Z; onProgress := true |} idle_run eq_refl)).
  - vm_compute. reflexivity.
Defined.

(** * Further properties of the plugin *)

(** [ensures c P]: whatever the run it starts from, [c] returns a value and
    leaves a run that together satisfy [P]. *)
Definition ensures {A} (c : M A) (P : A -> Run -> Prop) : Prop :=
  forall r, P (c r).1 (c r).2.

Lemma ensures_ret {A} (a : A) (P : A -> Run -> Prop) :
  (forall r, P a r) -> ensures (mret a) P.
Proof. intros H r. apply H. Qed.

Lemma ensures_bind {A B} (c : M A) (k : A -> M B)
    (Q : A -> Run -> Prop) (P : B -> Run -> Prop) :
  ensures c Q ->
  (forall a r, Q a r -> P (k a r).1 (k a r).2) ->
  ensures (c ≫= k) P.
Proof.
  intros Hc Hk r. rewrite bind_run. apply Hk, Hc.
Qed.

Lemma ensures_then {A B} (c : M A) (k : A -> M B) (P : B -> Run -> Prop) :
  (forall a, ensures (k a) P) -> ensures (c ≫= k) P.
Proof.
  intros Hk. apply ensures_bind with (Q := fun _ _ => True).
  - intros r. exact I.
  - intros a r _. apply Hk.
Qed.

(** ** The scan state when discovery returns *)

Definition scan_gone (channelId : string) (r : Run) : Prop :=
  activeScans (store r) !! channelId = None.

Lemma activeScans_delete_gone {A} channelId (a : A) :
  ensures (activeScans_delete channelId ≫= fun _ => mret a)
    (fun _ r => scan_gone channelId r).
Proof. intros r. unfold scan_gone. simpl. apply lookup_delete_eq. Qed.

Definition returned_gone {S} (channelId : string) (c : Ctl S) (r : Run) : Prop :=
  match c with
  | Return _ => scan_gone channelId r
  | _ => True
  end.

Definition finished_gone (channelId : string) (o : Outcome) (r : Run) : Prop :=
  match o with
  | Finished _ => scan_gone channelId r
  | OutOfFuel _ => True
  end.

Lemma scan_batch_gone channelId uid lim batch : forall st,
  ensures (scan_batch channelId uid lim batch st) (returned_gone channelId).
Proof.
  induction batch as [| msg rest IH]; intros st; simpl.
  - apply ensures_ret. intros r. exact I.
  - apply ensures_then. intros [|].
    + apply (activeScans_delete_gone channelId (Return (S := DState) (messages st))).
    + destruct (bool_decide (m_id msg ∈ seenMessageIds st)); [apply IH |].
      destruct (author_matches uid msg); [| apply IH].
      cbv zeta. destruct (limit_reached lim _); [| apply IH].
      apply ensures_ret. intros r. exact I.
Qed.

Lemma after_scan_no_return w channelId opts batch st :
  ensures (after_scan w channelId opts batch st) (returned_gone channelId).
Proof.
  unfold after_scan. apply ensures_then. intros st1.
  destruct (advance_cursor batch st1) as [st2 |];
    [| apply ensures_ret; intros r; exact I].
  apply ensures_then. intros [|]; [apply ensures_ret; intros r; exact I |].
  destruct (limit_reached (limit opts) (length (messages st2)));
    [apply ensures_ret; intros r; exact I |].
  apply ensures_then. intros _. apply ensures_ret. intros r. exact I.
Qed.

Lemma discover_iteration_gone w channelId opts st :
  ensures (discover_iteration w channelId opts st) (returned_gone channelId).
Proof.
  unfold discover_iteration. apply ensures_then. intros [|].
  { apply ensures_then. intros _. apply ensures_ret. intros r. exact I. }
  destruct (limit_reached (limit opts) (length (messages st)));
    [apply ensures_ret; intros r; exact I |].
  apply ensures_then. intros [batch |].
  - cbv zeta. apply ensures_then. intros [n batch1 | n | n];
      try (apply ensures_ret; intros r; exact I).
    unfold consume_batch. eapply ensures_bind; [apply scan_batch_gone |].
    intros [st2 | st2 | result] r Hr.
    + apply after_scan_no_return.
    + apply after_scan_no_return.
    + exact Hr.
  - cbv zeta.
    match goal with |- context [if ?b then _ else _] => destruct b end;
      [apply ensures_ret; intros r; exact I |].
    apply ensures_then. intros _. apply ensures_ret. intros r. exact I.
Qed.

Lemma discover_loop_gone w channelId opts fuel : forall st,
  ensures (discover_loop w fuel channelId opts st) (finished_gone channelId).
Proof.
  induction fuel as [| fuel IH]; intros st; simpl.
  - apply ensures_ret. intros r. exact I.
  - eapply ensures_bind; [apply discover_iteration_gone |].
    intros [st' | st' | result] r Hr.
    + apply IH.
    + apply (activeScans_delete_gone channelId (Finished (messages st'))).
    + exact Hr.
Qed.

Lemma range_loop_gone w channelId uid aid bid fuel : forall st,
  ensures (range_loop w fuel channelId uid aid bid st) (finished_gone channelId).
Proof.
  induction fuel as [| fuel IH]; intros st; simpl.
  - apply ensures_ret. intros r. exact I.
  - eapply ensures_bind with (Q := fun c _ => match c with Return _ => False | _ => True end).
    + unfold range_iteration. apply ensures_then. intros [|].
      { apply ensures_then. intros _. apply ensures_ret. intros r. exact I. }
      apply ensures_then. intros [batch |]; [| apply ensures_ret; intros r; exact I].
      apply ensures_then. intros [n batch1 | n | n];
        try (apply ensures_ret; intros r; exact I).
      apply ensures_then. intros st1. unfold after_range_scan.
      repeat match goal with
             | |- ensures (if ?b then mret _ else _) _ =>
                 destruct b; [apply ensures_ret; intros r; exact I |]
             end.
      apply ensures_then. intros [|]; [apply ensures_ret; intros r; exact I |].
      apply ensures_then. intros _. apply ensures_ret. intros r. exact I.
    + intros [st' | st' | result] r Hr.
      * apply IH.
      * apply (activeScans_delete_gone channelId (Finished (r_messages st'))).
      * destruct Hr.
Qed.

(** X1: whenever discovery returns, by whatever path (end of history,
    limit, boundary, transport failure, stop flag), the scan state of the
    channel has been removed from [activeScans], and nothing has run since
    that could put one back. *)
Theorem X1_discovery_removes_scan_state
    (w : World) (fuel : nat) (channelId : string) (opts : DiscoverOptions)
    (uid aid bid : option string) (r : Run) :
  (forall result,
     (discoverMessages w fuel channelId opts r).1 = Finished result ->
     activeScans (store (discoverMessages w fuel channelId opts r).2) !! channelId = None)
  /\ (forall result,
        (discoverRangeMessages w fuel channelId uid aid bid r).1 = Finished result ->
        activeScans (store (discoverRangeMessages w fuel channelId uid aid bid r).2)
          !! channelId = None).
Proof.
  split.
  - intros result E.
    assert (H : ensures (discoverMessages w fuel channelId opts) (finished_gone channelId)).
    { unfold discoverMessages. apply ensures_then. intros [|].
      - apply (activeScans_delete_gone channelId (Finished [])).
      - destruct (truthy (afterId opts) || truthy (beforeId opts)).
        + unfold discoverRangeMessages. apply range_loop_gone.
        + apply discover_loop_gone. }
    specialize (H r). rewrite E in H. exact H.
  - intros result E.
    pose proof (range_loop_gone w channelId uid aid bid fuel
                  (initial_RState aid bid) r) as H.
    unfold discoverRangeMessages in E. rewrite E in H. exact H.
Qed.

(** ** The purge state when a purge task ends *)

Definition purge_gone (channelId : string) (e : TaskEnd) (r : Run) : Prop :=
  match e with
  | TaskDone => activePurges (store r) !! channelId = None
  | TaskRunning => True
  end.

Lemma end_purge_gone channelId reply :
  ensures (modifyStore (end_purge channelId);;
           sendBotMessage channelId reply;; mret TaskDone)
    (purge_gone channelId).
Proof. intros r. simpl. apply lookup_delete_eq. Qed.

Lemma purge_task_gone w env fuel channelId opts canDeleteOthers excludeIds rangeText :
  ensures (purge_task w env fuel channelId opts canDeleteOthers excludeIds rangeText)
    (purge_gone channelId).
Proof.
  unfold purge_task. apply ensures_then.
  intros [[| m result] | sofar].
  - apply end_purge_gone.
  - apply ensures_then. intros counts. apply end_purge_gone.
  - apply ensures_ret. intros r. exact I.
Qed.

Lemma runPurge_gone w env fuel channelId opts canDeleteOthers excludeIds rangeText :
  ensures (runPurge w env fuel channelId opts canDeleteOthers excludeIds rangeText)
    (purge_gone channelId).
Proof. unfold runPurge. apply ensures_then. intros _. apply purge_task_gone. Qed.

Lemma confirmed_purge_gone w env fuel channelId confirmation :
  ensures (confirmed_purge w env fuel channelId confirmation) (purge_gone channelId).
Proof.
  unfold confirmed_purge. apply ensures_then. intros [result | sofar].
  - destruct (filter_excluded (pc_excludeIds confirmation) result) as [| m filtered].
    + apply end_purge_gone.
    + apply ensures_then. intros counts. apply end_purge_gone.
  - apply ensures_ret. intros r. exact I.
Qed.

(** X2: when a purge task (a direct purge or a confirmed one) has run to its
    end, no [PurgeState] is left for the channel, whatever happened on the
    way: nothing found, every deletion failed, cancellation, or another
    handler touching the maps in the meantime. *)
Theorem X2_finished_purge_leaves_no_state
    (w : World) (env : Env) (fuel : nat) (channelId : string) (r : Run) :
  (forall opts canDeleteOthers excludeIds rangeText,
     let run := runPurge w env fuel channelId opts canDeleteOthers excludeIds rangeText r in
     run.1 = TaskDone -> activePurges (store run.2) !! channelId = None)
  /\ (forall confirmation,
        let run := confirmed_purge w env fuel channelId confirmation r in
        run.1 = TaskDone -> activePurges (store run.2) !! channelId = None).
Proof.
  split.
  - intros opts canDeleteOthers excludeIds rangeText run E.
    pose proof (runPurge_gone w env fuel channelId opts canDeleteOthers excludeIds
                  rangeText r) as H.
    fold run in H. rewrite E in H. exact H.
  - intros confirmation run E.
    pose proof (confirmed_purge_gone w env fuel channelId confirmation r) as H.
    fold run in H. rewrite E in H. exact H.
Qed.

(** ** What a discovery does to the outside *)

(** [emits E c]: [c] only appends events to the trace, and each of them
    satisfies [E]. *)
Definition emits {A} (E : Event -> Prop) (c : M A) : Prop :=
  forall r, exists events, trace (c r).2 = (trace r ++ events)%list /\ Forall E events.

Lemma emits_ret {A} (E : Event -> Prop) (a : A) : emits E (mret a).
Proof. intros r. exists []. split; [symmetry; apply app_nil_r | constructor]. Qed.

Lemma emits_bind {A B} (E : Event -> Prop) (c : M A) (k : A -> M B) :
  emits E c -> (forall a, emits E (k a)) -> emits E (c ≫= k).
Proof.
  intros Hc Hk r. rewrite bind_run.
  destruct (Hc r) as (e1 & H1 & HE1).
  destruct (Hk (c r).1 (c r).2) as (e2 & H2 & HE2).
  exists (e1 ++ e2)%list. split.
  - rewrite H2, H1. symmetry. apply app_assoc.
  - apply Forall_app. split; assumption.
Qed.

Lemma emits_emit (E : Event -> Prop) e : E e -> emits E (emit e).
Proof.
  intros He r. exists [e]. split; [reflexivity |].
  constructor; [exact He | constructor].
Qed.

Lemma emits_silent {A} (E : Event -> Prop) (c : M A) :
  (forall r, trace (c r).2 = trace r) -> emits E c.
Proof.
  intros H r. exists []. split; [rewrite H; symmetry; apply app_nil_r | constructor].
Qed.

Lemma emits_sleep w (E : Event -> Prop) ms : E (EvSleep ms) -> emits E (sleep w ms).
Proof.
  intros He. unfold sleep. apply emits_bind; [apply emits_emit, He |].
  intros _. apply emits_silent. reflexivity.
Qed.

Lemma emits_shouldStop (E : Event -> Prop) channelId : emits E (shouldStop channelId).
Proof. apply emits_silent. reflexivity. Qed.

Lemma emits_activeScans_delete (E : Event -> Prop) channelId :
  emits E (activeScans_delete channelId).
Proof. apply emits_silent. reflexivity. Qed.

(** The events of a discovery in [channelId]: list requests for that
    channel, asking for 100 records, with no [after] parameter and a
    [before] parameter that is absent or a non-empty id; sleeps of a positive
    duration; progress reports when a callback is supplied. *)
Definition discovery_event (channelId : string) (progress : bool) (e : Event) : Prop :=
  match e with
  | EvGet c q => c = channelId /\ q_limit q = "100"%string /\ q_after q = None
                 /\ (q_before q = None \/ truthy (q_before q) = true)
  | EvSleep ms => (0 < ms)%Q
  | EvProgress _ => progress = true
  | _ => False
  end.

Lemma retry_delay_positive error retry : (0 < retry_delay error retry)%Q.
Proof.
  unfold retry_delay. destruct (isRateLimit error).
  - eapply Qlt_le_trans; [| apply Q.le_max_r].
    rewrite <- (Zlt_Qlt 0). lia.
  - rewrite <- (Zlt_Qlt 0). apply Z.mul_pos_pos; [lia |].
    apply Z.pow_pos_nonneg; lia.
Qed.

Section DiscoveryEvents.

Variable w : World.
Variable channelId : string.
Variable opts : DiscoverOptions.

Lemma emits_fetchMessageBatch before :
  emits (discovery_event channelId (onProgress opts)) (fetchMessageBatch w channelId before None).
Proof.
  unfold fetchMessageBatch. cbv zeta. apply emits_bind.
  - unfold RestAPI_get. apply emits_bind; [apply emits_silent; reflexivity |].
    intros t. apply emits_bind.
    + apply emits_emit. simpl. repeat split.
      destruct (truthy before) eqn:Hb; [right; exact Hb | left; reflexivity].
    + intros _. apply emits_bind; [apply emits_silent; reflexivity |].
      intros _. apply emits_ret.
  - intros [[body |] | error]; apply emits_ret.
Qed.

Lemma emits_fetch_with_retry before attempts : forall retry,
  emits (discovery_event channelId (onProgress opts)) (fetch_with_retry w channelId before attempts retry).
Proof.
  induction attempts as [| n IH]; intros retry; simpl; [apply emits_ret |].
  apply emits_bind; [apply emits_fetchMessageBatch |].
  intros [error | batch]; [| apply emits_ret].
  apply emits_bind; [apply emits_sleep, retry_delay_positive | intros _; apply IH].
Qed.

Lemma emits_verify_fetch before unit_ms attempts : forall k,
  (0 < unit_ms)%Z ->
  emits (discovery_event channelId (onProgress opts)) (verify_fetch w channelId before unit_ms attempts k).
Proof.
  induction attempts as [| n IH]; intros k Hu; simpl; [apply emits_ret |].
  assert (Hs : emits (discovery_event channelId (onProgress opts)) (sleep w (inject_Z (unit_ms * (Z.of_nat k + 1))))).
  { apply emits_sleep. simpl. rewrite <- (Zlt_Qlt 0). lia. }
  apply emits_bind; [apply emits_fetchMessageBatch |].
  intros [error | [| m vb]]; [| | apply emits_ret];
    (apply emits_bind; [exact Hs | intros _; apply IH, Hu]).
Qed.

Lemma emits_settle_batch cursor n batch :
  emits (discovery_event channelId (onProgress opts)) (settle_batch w channelId cursor n batch).
Proof.
  unfold settle_batch. destruct batch as [| m batch]; [| apply emits_ret].
  cbv zeta. destruct (MAX_EMPTY_BATCHES <=? S n).
  - apply emits_bind.
    + destruct (truthy cursor); [apply emits_verify_fetch; lia | apply emits_ret].
    + intros [vb |]; apply emits_ret.
  - apply emits_bind; [apply emits_sleep; reflexivity | intros _; apply emits_ret].
Qed.

Lemma emits_verify_short cursor batch :
  emits (discovery_event channelId (onProgress opts)) (verify_short w channelId cursor batch).
Proof.
  unfold verify_short. destruct (length batch <? BATCH_SIZE); [| apply emits_ret].
  apply emits_bind; [apply emits_verify_fetch; lia | intros v; apply emits_ret].
Qed.

Lemma emits_range_scan_batch uid aid bid batch : forall st,
  emits (discovery_event channelId (onProgress opts)) (range_scan_batch channelId uid aid bid batch st).
Proof.
  induction batch as [| msg rest IH]; intros st; simpl; [apply emits_ret |].
  apply emits_bind; [apply emits_shouldStop |]. intros [|]; [apply emits_ret |].
  destruct (bool_decide (m_id msg ∈ r_seenMessageIds st)); [apply IH |].
  destruct (range_visit uid aid bid msg (r_see st (m_id msg))) as [st' | st'];
    [apply emits_ret | apply IH].
Qed.

Lemma emits_range_iteration uid aid bid st :
  emits (discovery_event channelId (onProgress opts)) (range_iteration w channelId uid aid bid st).
Proof.
  unfold range_iteration. apply emits_bind; [apply emits_shouldStop |]. intros [|].
  { apply emits_bind; [apply emits_activeScans_delete | intros _; apply emits_ret]. }
  apply emits_bind; [apply emits_fetch_with_retry |].
  intros [batch |]; [| apply emits_ret].
  apply emits_bind; [apply emits_settle_batch |].
  intros [n batch1 | n | n]; try apply emits_ret.
  apply emits_bind; [apply emits_range_scan_batch |]. intros st1.
  unfold after_range_scan.
  repeat match goal with
         | |- emits _ (if ?b then mret _ else _) => destruct b; [apply emits_ret |]
         end.
  apply emits_bind; [apply emits_verify_short |]. intros [|]; [apply emits_ret |].
  apply emits_bind; [apply emits_sleep; reflexivity | intros _; apply emits_ret].
Qed.

Lemma emits_range_loop uid aid bid fuel : forall st,
  emits (discovery_event channelId (onProgress opts)) (range_loop w fuel channelId uid aid bid st).
Proof.
  induction fuel as [| fuel IH]; intros st; simpl; [apply emits_ret |].
  apply emits_bind; [apply emits_range_iteration |].
  intros [st' | st' | result]; [apply IH | | apply emits_ret].
  apply emits_bind; [apply emits_activeScans_delete | intros _; apply emits_ret].
Qed.

Lemma emits_scan_batch uid lim batch : forall st,
  emits (discovery_event channelId (onProgress opts)) (scan_batch channelId uid lim batch st).
Proof.
  induction batch as [| msg rest IH]; intros st; simpl; [apply emits_ret |].
  apply emits_bind; [apply emits_shouldStop |]. intros [|].
  { apply emits_bind; [apply emits_activeScans_delete | intros _; apply emits_ret]. }
  destruct (bool_decide (m_id msg ∈ seenMessageIds st)); [apply IH |].
  destruct (author_matches uid msg); [| apply IH].
  cbv zeta. destruct (limit_reached lim _); [apply emits_ret | apply IH].
Qed.

Lemma emits_after_scan batch st :
  emits (discovery_event channelId (onProgress opts)) (after_scan w channelId opts batch st).
Proof.
  unfold after_scan. apply emits_bind.
  - unfold report_progress.
    destruct (onProgress opts) eqn:Hp; simpl; [| apply emits_ret].
    destruct (negb (length (messages st) =? lastReportedCount st)); [| apply emits_ret].
    apply emits_bind; [apply emits_emit; reflexivity | intros _; apply emits_ret].
  - intros st1. destruct (advance_cursor batch st1) as [st2 |]; [| apply emits_ret].
    apply emits_bind; [apply emits_verify_short |]. intros [|]; [apply emits_ret |].
    destruct (limit_reached (limit opts) (length (messages st2))); [apply emits_ret |].
    apply emits_bind; [apply emits_sleep; reflexivity | intros _; apply emits_ret].
Qed.

Lemma emits_discover_iteration st :
  emits (discovery_event channelId (onProgress opts))
    (discover_iteration w channelId opts st).
Proof.
  unfold discover_iteration. apply emits_bind; [apply emits_shouldStop |]. intros [|].
  { apply emits_bind; [apply emits_activeScans_delete | intros _; apply emits_ret]. }
  destruct (limit_reached (limit opts) (length (messages st))); [apply emits_ret |].
  apply emits_bind; [apply emits_fetch_with_retry |].
  intros [batch |]; cbv zeta.
  - apply emits_bind; [apply emits_settle_batch |].
    intros [n batch1 | n | n]; try apply emits_ret.
    unfold consume_batch. cbv zeta. apply emits_bind; [apply emits_scan_batch |].
    intros [st2 | st2 | result];
      [apply emits_after_scan | apply emits_after_scan | apply emits_ret].
  - match goal with |- context [if ?b then _ else _] => destruct b end;
      [apply emits_ret |].
    apply emits_bind; [apply emits_sleep; reflexivity | intros _; apply emits_ret].
Qed.

Lemma emits_discover_loop fuel : forall st,
  emits (discovery_event channelId (onProgress opts))
    (discover_loop w fuel channelId opts st).
Proof.
  induction fuel as [| fuel IH]; intros st; simpl; [apply emits_ret |].
  apply emits_bind; [apply emits_discover_iteration |].
  intros [st' | st' | result]; [apply IH | | apply emits_ret].
  apply emits_bind; [apply emits_activeScans_delete | intros _; apply emits_ret].
Qed.

Lemma emits_discoverMessages fuel :
  emits (discovery_event channelId (onProgress opts))
    (discoverMessages w fuel channelId opts).
Proof.
  unfold discoverMessages. apply emits_bind; [apply emits_shouldStop |]. intros [|].
  { apply emits_bind; [apply emits_activeScans_delete | intros _; apply emits_ret]. }
  destruct (truthy (afterId opts) || truthy (beforeId opts)).
  - unfold discoverRangeMessages. apply emits_range_loop.
  - apply emits_discover_loop.
Qed.

End DiscoveryEvents.

(** X3: all a discovery does to the outside, in any world and for any
    options: list requests for its own channel, each asking for 100 records
    with no [after] parameter and with a [before] parameter that is absent
    or a non-empty id; sleeps of positive duration; and progress reports,
    only when a callback was supplied.  It deletes nothing and sends no
    message. *)
Theorem X3_discovery_only_lists_and_sleeps
    (w : World) (fuel : nat) (channelId : string) (opts : DiscoverOptions) (r : Run) :
  exists events,
    trace (discoverMessages w fuel channelId opts r).2 = (trace r ++ events)%list
    /\ Forall (discovery_event channelId (onProgress opts)) events.
Proof. apply emits_discoverMessages. Qed.

(** ** The delete calls of the executor *)

(** The ids of the delete calls among some events, in order. *)
Fixpoint deleted_ids (events : list Event) : list string :=
  match events with
  | [] => []
  | EvDel _ x :: events' => x :: deleted_ids events'
  | _ :: events' => deleted_ids events'
  end.

Lemma deleted_ids_app e1 e2 :
  deleted_ids (e1 ++ e2) = (deleted_ids e1 ++ deleted_ids e2)%list.
Proof.
  induction e1 as [| e e1 IH]; [reflexivity |].
  destruct e; simpl; rewrite IH; reflexivity.
Qed.

(** [msg.author?.id === currentUserId] *)
Definition isOwnMessage (env : Env) (msg : Message) : bool :=
  match m_author msg with
  | Some a => String.eqb a (currentUserId env)
  | None => false
  end.

(** The records the two [continue] guards of [executePurge] let through. *)
Definition deletable (env : Env) (canDeleteOthers : bool)
    (excludeIds : option (gset string)) (msg : Message) : bool :=
  negb (excluded excludeIds (m_id msg))
  && negb (negb (isOwnMessage env msg) && negb canDeleteOthers).

(** The events of the executor in [channelId]: delete calls for that
    channel and sleeps of the configured delay. *)
Definition purge_event (env : Env) (channelId : string) (e : Event) : Prop :=
  match e with
  | EvDel c _ => c = channelId
  | EvSleep ms => ms = deletionDelay env
  | _ => False
  end.

Section Executor.

Variable w : World.
Variable env : Env.
Variable channelId : string.
Variable purge : nat.
Variable canDeleteOthers : bool.
Variable excludeIds : option (gset string).

(** One delete call and the bookkeeping after it, up to the next visit. *)
Lemma purge_loop_cons total msg rest i deleted failed r :
  purge_loop w env channelId purge canDeleteOthers excludeIds total (msg :: rest)
    i deleted failed r
  = if purge_stopped purge (store r) then ((deleted, failed), r)
    else if deletable env canDeleteOthers excludeIds msg then
      let r1 := (RestAPI_del w channelId (m_id msg) r).2 in
      if restDel w (clock r) channelId (m_id msg) then
        let r2 := (modifyStore (update_purge purge (with_deleted (S deleted))) r1).2 in
        let r3 := if i <? total - 1 then (sleep w (deletionDelay env) r2).2 else r2 in
        purge_loop w env channelId purge canDeleteOthers excludeIds total rest
          (S i) (S deleted) failed r3
      else
        purge_loop w env channelId purge canDeleteOthers excludeIds total rest
          (S i) deleted (S failed)
          (modifyStore (update_purge purge (with_failed (S failed))) r1).2
    else
      purge_loop w env channelId purge canDeleteOthers excludeIds total rest
        (S i) deleted failed r.
Proof.
  cbn [purge_loop]. rewrite bind_run. cbn [getStore fst snd].
  destruct (purge_stopped purge (store r)); [reflexivity |].
  unfold deletable, isOwnMessage.
  destruct (excluded excludeIds (m_id msg)); [reflexivity |].
  cbv zeta. cbn [negb andb].
  match goal with |- context [if ?b then _ else _] => destruct b end; [reflexivity |].
  cbn [negb]. rewrite bind_run.
  change (RestAPI_del w channelId (m_id msg) r).1
    with (restDel w (clock r) channelId (m_id msg)).
  destruct (restDel w (clock r) channelId (m_id msg)).
  - rewrite !bind_run. destruct (i <? total - 1); reflexivity.
  - rewrite bind_run. reflexivity.
Qed.

Definition calls_within (rest : list Message) (deleted failed : nat)
    (r : Run) (run : nat * nat * Run) : Prop :=
  exists events,
    trace run.2 = (trace r ++ events)%list
    /\ Forall (purge_event env channelId) events
    /\ deleted_ids events
         `prefix_of` List.map m_id
                       (List.filter (deletable env canDeleteOthers excludeIds) rest)
    /\ run.1.1 + run.1.2 = deleted + failed + length (deleted_ids events)
    /\ deleted <= run.1.1 /\ failed <= run.1.2.

Lemma calls_within_skip msg rest deleted failed r run :
  calls_within rest deleted failed r run ->
  deletable env canDeleteOthers excludeIds msg = false ->
  calls_within (msg :: rest) deleted failed r run.
Proof.
  intros (events & Ht & HE & Hp & Hc) Hd. exists events.
  cbn [List.filter]. rewrite Hd. repeat split; tauto.
Qed.

Lemma calls_within_call msg rest deleted failed deleted' failed' r r' between run :
  calls_within rest deleted' failed' r' run ->
  deletable env canDeleteOthers excludeIds msg = true ->
  trace r' = (trace r ++ EvDel channelId (m_id msg) :: between)%list ->
  Forall (purge_event env channelId) between ->
  deleted_ids between = [] ->
  deleted' + failed' = S (deleted + failed) ->
  deleted <= deleted' -> failed <= failed' ->
  calls_within (msg :: rest) deleted failed r run.
Proof.
  intros (events & Ht & HE & Hp & Hc & Hd' & Hf') Hd Hr' Hb Hnone Hsum Hle1 Hle2.
  exists (EvDel channelId (m_id msg) :: between ++ events)%list.
  cbn [List.filter]. rewrite Hd. cbn [List.map deleted_ids].
  rewrite deleted_ids_app, Hnone. cbn [app length].
  repeat split.
  - rewrite Ht, Hr', <- app_assoc. reflexivity.
  - constructor; [reflexivity |]. apply Forall_app. split; assumption.
  - apply prefix_cons, Hp.
  - lia.
  - lia.
  - lia.
Qed.

Lemma purge_loop_calls total rest : forall i deleted failed r,
  calls_within rest deleted failed r
    (purge_loop w env channelId purge canDeleteOthers excludeIds total rest
       i deleted failed r).
Proof.
  induction rest as [| msg rest IH]; intros i deleted failed r.
  - exists []. cbn. rewrite app_nil_r. repeat split; try lia; [constructor | apply prefix_nil].
  - rewrite purge_loop_cons.
    destruct (purge_stopped purge (store r)).
    { exists []. cbn [fst snd deleted_ids length]. rewrite app_nil_r.
      repeat split; try lia; [constructor | apply prefix_nil]. }
    destruct (deletable env canDeleteOthers excludeIds msg) eqn:Hd;
      [| apply calls_within_skip; [apply IH | exact Hd]].
    cbv zeta. destruct (restDel w (clock r) channelId (m_id msg)).
    + destruct (i <? total - 1).
      * eapply (calls_within_call msg rest deleted failed (S deleted) failed r _
                  [EvSleep (deletionDelay env)]);
          [apply IH | exact Hd | | | reflexivity | lia | lia | lia].
        -- unfold sleep, RestAPI_del, mbind, M_bind, emit, suspend, now, mret, M_ret.
           simpl. rewrite <- app_assoc. reflexivity.
        -- constructor; [reflexivity | constructor].
      * eapply (calls_within_call msg rest deleted failed (S deleted) failed r _ []);
          [apply IH | exact Hd | reflexivity | constructor | reflexivity | lia | lia | lia].
    + eapply (calls_within_call msg rest deleted failed deleted (S failed) r _ []);
        [apply IH | exact Hd | reflexivity | constructor | reflexivity | lia | lia | lia].
Qed.

End Executor.

Lemma executePurge_calls
    (w : World) (env : Env) (channelId : string) (records : list Message)
    (canDeleteOthers : bool) (excludeIds : option (gset string)) (r : Run) :
  let run := executePurge w env channelId records canDeleteOthers excludeIds r in
  exists events,
    trace run.2 = (trace r ++ events)%list
    /\ Forall (purge_event env channelId) events
    /\ deleted_ids events
         `prefix_of` List.map m_id
                       (List.filter (deletable env canDeleteOthers excludeIds) records)
    /\ run.1.1 + run.1.2 = length (deleted_ids events).
Proof.
  intros run. unfold run, executePurge. rewrite bind_run. cbn [getStore fst snd].
  destruct (activePurges (store r) !! channelId) as [purge |].
  - destruct (purge_loop_calls w env channelId purge canDeleteOthers excludeIds
                (length records) records 0 0 0 r) as (events & Ht & HE & Hp & Hc & _).
    exists events. repeat split; assumption.
  - exists []. cbn. rewrite app_nil_r.
    repeat split; [constructor | apply prefix_nil].
Qed.

(** X4: in any world, the events of [executePurge] are delete calls for its
    channel and sleeps of the configured delay; the ids it calls delete for
    are, in order, an initial part of the ids of the given records that are
    not excluded and are the current user's own or deletable by permission;
    and the two counts it returns add up to the number of delete calls. *)
Theorem X4_executor_calls
    (w : World) (env : Env) (channelId : string) (records : list Message)
    (canDeleteOthers : bool) (excludeIds : option (gset string)) (r : Run) :
  let run := executePurge w env channelId records canDeleteOthers excludeIds r in
  exists events,
    trace run.2 = (trace r ++ events)%list
    /\ Forall (purge_event env channelId) events
    /\ deleted_ids events
         `prefix_of` List.map m_id
                       (List.filter (deletable env canDeleteOthers excludeIds) records)
    /\ run.1.1 + run.1.2 = length (deleted_ids events).
Proof. apply executePurge_calls. Qed.

Section UncancelledExecutor.

Variable w : World.
Variable env : Env.
Variable channelId : string.
Variable purge : nat.
Variable canDeleteOthers : bool.
Variable excludeIds : option (gset string).

(** Nothing raises [purge.stop] while the executor is suspended. *)
Hypothesis Hw : forall t s, purge_stopped purge s = false ->
                            purge_stopped purge (interfere w t s) = false.

Lemma running_del x r :
  purge_stopped purge (store r) = false ->
  purge_stopped purge (store (RestAPI_del w channelId x r).2) = false.
Proof. intros H. apply Hw, H. Qed.

Lemma running_update f r :
  (forall p, stop (f p) = stop p) ->
  purge_stopped purge (store r) = false ->
  purge_stopped purge (store (modifyStore (update_purge purge f) r).2) = false.
Proof.
  intros Hf H. unfold purge_stopped in *. simpl. rewrite lookup_alter_eq.
  destruct (heap (store r) !! purge) as [p |]; simpl; [rewrite Hf; exact H | reflexivity].
Qed.

Lemma running_sleep ms r :
  purge_stopped purge (store r) = false ->
  purge_stopped purge (store (sleep w ms r).2) = false.
Proof. intros H. apply Hw, H. Qed.

Definition calls_all (rest : list Message) (deleted failed : nat)
    (r : Run) (run : nat * nat * Run) : Prop :=
  let todo := List.filter (deletable env canDeleteOthers excludeIds) rest in
  (exists events, trace run.2 = (trace r ++ events)%list
                  /\ deleted_ids events = List.map m_id todo)
  /\ run.1.1 + run.1.2 = deleted + failed + length todo
  /\ ((forall t x, restDel w t channelId x = true) ->
      run.1 = (deleted + length todo, failed))
  /\ ((forall t x, restDel w t channelId x = false) ->
      run.1 = (deleted, failed + length todo)).

Lemma calls_all_call msg rest deleted failed deleted' failed' (ok : bool) r r' between run :
  calls_all rest deleted' failed' r' run ->
  deletable env canDeleteOthers excludeIds msg = true ->
  trace r' = (trace r ++ EvDel channelId (m_id msg) :: between)%list ->
  deleted_ids between = [] ->
  restDel w (clock r) channelId (m_id msg) = ok ->
  (deleted', failed') = (if ok then (S deleted, failed) else (deleted, S failed)) ->
  calls_all (msg :: rest) deleted failed r run.
Proof.
  unfold calls_all. cbn [List.filter]. cbv zeta.
  intros ((events & Ht & Hids) & Hsum & Hok & Hko) Hd Hr' Hnone Hcall Hcounts.
  rewrite Hd. cbn [List.map length]. repeat split.
  - exists (EvDel channelId (m_id msg) :: between ++ events)%list. split.
    + rewrite Ht, Hr', <- app_assoc. reflexivity.
    + cbn [deleted_ids]. rewrite deleted_ids_app, Hnone, Hids. reflexivity.
  - destruct ok; injection Hcounts as -> ->; lia.
  - intros Hall. rewrite (Hok Hall). rewrite Hall in Hcall. subst ok.
    injection Hcounts as -> ->. f_equal. lia.
  - intros Hnone'. rewrite (Hko Hnone'). rewrite Hnone' in Hcall. subst ok.
    injection Hcounts as -> ->. f_equal. lia.
Qed.

Lemma purge_loop_calls_all total rest : forall i deleted failed r,
  purge_stopped purge (store r) = false ->
  calls_all rest deleted failed r
    (purge_loop w env channelId purge canDeleteOthers excludeIds total rest
       i deleted failed r).
Proof.
  induction rest as [| msg rest IH]; intros i deleted failed r Hr.
  - unfold calls_all. cbn. repeat split.
    + exists []. split; [symmetry; apply app_nil_r | reflexivity].
    + lia.
    + intros _. f_equal; lia.
    + intros _. f_equal; lia.
  - rewrite purge_loop_cons, Hr.
    destruct (deletable env canDeleteOthers excludeIds msg) eqn:Hd.
    + cbv zeta. pose proof (running_del (m_id msg) r Hr) as H1.
      destruct (restDel w (clock r) channelId (m_id msg)) eqn:Hcall.
      * pose proof (running_update (with_deleted (S deleted)) _ (fun p => eq_refl) H1) as H2.
        destruct (i <? total - 1).
        -- eapply (calls_all_call msg rest deleted failed (S deleted) failed true r _
                     [EvSleep (deletionDelay env)]);
             [apply IH, running_sleep, H2 | exact Hd | | reflexivity | exact Hcall
             | reflexivity].
           unfold sleep, RestAPI_del, mbind, M_bind, emit, suspend, now, mret, M_ret.
           simpl. rewrite <- app_assoc. reflexivity.
        -- eapply (calls_all_call msg rest deleted failed (S deleted) failed true r _ []);
             [apply IH, H2 | exact Hd | reflexivity | reflexivity | exact Hcall
             | reflexivity].
      * pose proof (running_update (with_failed (S failed)) _ (fun p => eq_refl) H1) as H2.
        eapply (calls_all_call msg rest deleted failed deleted (S failed) false r _ []);
          [apply IH, H2 | exact Hd | reflexivity | reflexivity | exact Hcall
          | reflexivity].
    + unfold calls_all. cbn [List.filter]. rewrite Hd. apply IH, Hr.
Qed.

End UncancelledExecutor.

Lemma executePurge_calls_all
    (w : World) (env : Env) (channelId : string) (records : list Message)
    (canDeleteOthers : bool) (excludeIds : option (gset string))
    (purge : nat) (r : Run)
    (Hactive : activePurges (store r) !! channelId = Some purge)
    (Hrunning : purge_stopped purge (store r) = false)
    (Huncancelled : forall t s, purge_stopped purge s = false ->
                                purge_stopped purge (interfere w t s) = false) :
  let run := executePurge w env channelId records canDeleteOthers excludeIds r in
  let todo := List.filter (deletable env canDeleteOthers excludeIds) records in
  (exists events, trace run.2 = (trace r ++ events)%list
                  /\ deleted_ids events = List.map m_id todo)
  /\ run.1.1 + run.1.2 = length todo
  /\ ((forall t x, restDel w t channelId x = true) -> run.1 = (length todo, 0))
  /\ ((forall t x, restDel w t channelId x = false) -> run.1 = (0, length todo)).
Proof.
  intros run todo. unfold run, executePurge. rewrite bind_run. cbn [getStore fst snd].
  rewrite Hactive.
  apply (purge_loop_calls_all w env channelId purge canDeleteOthers excludeIds
           Huncancelled (length records) records 0 0 0 r Hrunning).
Qed.

(** X5: when the channel has a [PurgeState] whose stop flag is down and
    stays down, [executePurge] calls delete exactly once for every given
    record that is not excluded and is the current user's own or deletable
    by permission, in the order given, and for no other; the two counts add
    up to the number of these records; all of them are counted deleted when
    every call succeeds, all failed when every call is rejected. *)
Theorem X5_executor_without_cancellation
    (w : World) (env : Env) (channelId : string) (records : list Message)
    (canDeleteOthers : bool) (excludeIds : option (gset string))
    (purge : nat) (r : Run)
    (Hactive : activePurges (store r) !! channelId = Some purge)
    (Hrunning : purge_stopped purge (store r) = false)
    (Huncancelled : forall t s, purge_stopped purge s = false ->
                                purge_stopped purge (interfere w t s) = false) :
  let run := executePurge w env channelId records canDeleteOthers excludeIds r in
  let todo := List.filter (deletable env canDeleteOthers excludeIds) records in
  (exists events, trace run.2 = (trace r ++ events)%list
                  /\ deleted_ids events = List.map m_id todo)
  /\ run.1.1 + run.1.2 = length todo
  /\ ((forall t x, restDel w t channelId x = true) -> run.1 = (length todo, 0))
  /\ ((forall t x, restDel w t channelId x = false) -> run.1 = (0, length todo)).
Proof.
  apply (executePurge_calls_all w env channelId records canDeleteOthers excludeIds purge);
    assumption.
Qed.

Definition mixed_records : list Message :=
  [message "40" "u1"; message "30" "u2"; message "20" "u1"; message "10" "u1"]%string.

Lemma X5_executor_without_cancellation_witness :
  let run := executePurge (history_world []) sample_env "c"%string mixed_records
               false (Some {[ "20"%string ]}) (run_from purging_store) in
  (exists events, trace run.2 = ([] ++ events)%list
                  /\ deleted_ids events = ["40"; "10"]%string)
  /\ run.1.1 + run.1.2 = 2
  /\ ((forall t x, restDel (history_world []) t "c"%string x = true) -> run.1 = (2, 0))
  /\ ((forall t x, restDel (history_world []) t "c"%string x = false) -> run.1 = (0, 2)).
Proof.
  assert (Hf : List.filter (deletable sample_env false (Some {[ "20"%string ]}))
                 mixed_records
               = [message "40" "u1"; message "10" "u1"]%string)
    by (vm_compute; reflexivity).
  pose proof (X5_executor_without_cancellation (history_world []) sample_env
                "c"%string mixed_records false (Some {[ "20"%string ]}) 0
                (run_from purging_store) eq_refl eq_refl (fun t s H => H)) as H.
  cbv zeta in H. rewrite Hf in H. exact H.
Defined.

(** ** What a purge task reports *)

Lemma filter_excluded_deletable env canDeleteOthers excludeIds records :
  List.filter (deletable env canDeleteOthers excludeIds)
    (filter_excluded excludeIds records)
  = List.filter (deletable env canDeleteOthers excludeIds) records.
Proof.
  unfold filter_excluded. destruct excludeIds as [ex |]; [| reflexivity].
  destruct (size ex =? 0); [reflexivity |].
  induction records as [| m records IH]; [reflexivity |].
  cbn [List.filter]. destruct (bool_decide (m_id m ∈ ex)) eqn:E; cbn [negb].
  - assert (Hd : deletable env canDeleteOthers (Some ex) m = false)
      by (unfold deletable; cbn [excluded]; rewrite E; reflexivity).
    rewrite Hd. exact IH.
  - cbn [List.filter]. destruct (deletable env canDeleteOthers (Some ex) m);
      [f_equal |]; exact IH.
Qed.

(** The trace a purge task leaves behind: the discovery, then the delete
    calls, then one reply. *)
Definition purge_trace (env : Env) (channelId : string) (progress : bool)
    (todo : list Message) (nothing : Reply) (records : list Message)
    (before after : list Event) : Prop :=
  exists scan calls reply,
    after = (before ++ scan ++ calls ++ [EvSend channelId reply])%list
    /\ Forall (discovery_event channelId progress) scan
    /\ Forall (purge_event env channelId) calls
    /\ deleted_ids calls `prefix_of` List.map m_id todo
    /\ match records with
       | [] => calls = [] /\ reply = nothing
       | _ :: _ => exists deleted failed,
                     reply = PurgeResult deleted failed
                     /\ deleted + failed = length (deleted_ids calls)
       end.

Lemma purge_trace_found w env channelId progress canDeleteOthers excludeIds
    nothing given todo before r :
  (exists scan, trace r = (before ++ scan)%list
                /\ Forall (discovery_event channelId progress) scan) ->
  given <> [] ->
  List.filter (deletable env canDeleteOthers excludeIds) given = todo ->
  let run := (result ← executePurge w env channelId given canDeleteOthers excludeIds;
              modifyStore (end_purge channelId);;
              sendBotMessage channelId (PurgeResult (fst result) (snd result));;
              mret TaskDone) r in
  run.1 = TaskDone
  /\ purge_trace env channelId progress todo nothing given before (trace run.2).
Proof.
  intros (scan & Hr & Hscan) Hne Htodo run. unfold run. rewrite bind_run.
  destruct (executePurge_calls w env channelId given canDeleteOthers excludeIds r)
    as (calls & Ht & Hcalls & Hprefix & Hsum).
  split; [reflexivity |].
  exists scan, calls,
    (PurgeResult (executePurge w env channelId given canDeleteOthers excludeIds r).1.1
                 (executePurge w env channelId given canDeleteOthers excludeIds r).1.2).
  repeat split; try assumption.
  - simpl. rewrite Ht, Hr, <- !app_assoc. reflexivity.
  - rewrite <- Htodo. exact Hprefix.
  - destruct given as [| m given]; [contradiction |]. eexists _, _. split; [reflexivity |].
    exact Hsum.
Qed.

Lemma purge_trace_nothing env channelId progress todo nothing before r :
  (exists scan, trace r = (before ++ scan)%list
                /\ Forall (discovery_event channelId progress) scan) ->
  let run := (modifyStore (end_purge channelId);;
              sendBotMessage channelId nothing;; mret TaskDone) r in
  run.1 = TaskDone
  /\ purge_trace env channelId progress todo nothing [] before (trace run.2).
Proof.
  intros (scan & Hr & Hscan) run. split; [reflexivity |].
  exists scan, [], nothing. repeat split; try assumption.
  - simpl. rewrite Hr, <- app_assoc. reflexivity.
  - constructor.
  - apply prefix_nil.
Qed.

(** X6: a direct purge is done exactly when its discovery has finished, and
    then its trace is: the events of the discovery, then delete calls whose
    ids are an initial part of the ids of the discovered records that are
    not excluded and are own or deletable by permission, then exactly one
    reply, which is the nothing-found message when the discovery returned
    no record and otherwise the result message, whose two counts add up to
    the number of delete calls made. *)
Theorem X6_direct_purge_report
    (w : World) (env : Env) (fuel : nat) (channelId : string) (opts : DiscoverOptions)
    (canDeleteOthers : bool) (excludeIds : option (gset string))
    (rangeText : option RangeText) (r : Run) :
  let found := discoverMessages w fuel channelId opts
                 (modifyStore (start_purge channelId) r).2 in
  let run := runPurge w env fuel channelId opts canDeleteOthers excludeIds rangeText r in
  match found.1 with
  | OutOfFuel _ => run.1 = TaskRunning
  | Finished records =>
      run.1 = TaskDone
      /\ purge_trace env channelId (onProgress opts)
           (List.filter (deletable env canDeleteOthers excludeIds) records)
           (NoMessagesFound rangeText) records (trace r) (trace run.2)
  end.
Proof.
  intros found run. unfold run, runPurge, purge_task. rewrite !bind_run. fold found.
  pose proof (emits_discoverMessages w channelId opts fuel
                (modifyStore (start_purge channelId) r).2) as Hscan.
  fold found in Hscan. change (trace (modifyStore (start_purge channelId) r).2)
    with (trace r) in Hscan.
  destruct found.1 as [[| m records] | sofar].
  - apply purge_trace_nothing, Hscan.
  - apply (purge_trace_found w); [exact Hscan | discriminate | reflexivity].
  - reflexivity.
Qed.

(** X7: the purge started by a confirmation is done exactly when its
    discovery has finished; it discovers with the confirmation's author
    filter and no limit, and its trace is: the events of the discovery,
    then delete calls whose ids are an initial part of the ids of the
    discovered records that are not excluded by the confirmation and are
    own or deletable under the permission held at that time, then exactly
    one reply: nothing to delete when the exclusions leave no record,
    otherwise the result message, whose counts add up to the delete calls. *)
Theorem X7_confirmed_purge_report
    (w : World) (env : Env) (fuel : nat) (channelId : string)
    (confirmation : PendingConfirmation) (r : Run) :
  let opts := {| userId := if truthy (pc_userId confirmation)
                           then pc_userId confirmation else None;
                 afterId := None; beforeId := None; limit := None;
                 onProgress := false |} in
  let found := discoverMessages w fuel channelId opts r in
  let run := confirmed_purge w env fuel channelId confirmation r in
  match found.1 with
  | OutOfFuel _ => run.1 = TaskRunning
  | Finished records =>
      run.1 = TaskDone
      /\ purge_trace env channelId false
           (List.filter (deletable env (canManageMessages env channelId)
                           (pc_excludeIds confirmation)) records)
           NoMessagesToDelete
           (filter_excluded (pc_excludeIds confirmation) records)
           (trace r) (trace run.2)
  end.
Proof.
  intros opts found run. unfold run, confirmed_purge. rewrite bind_run.
  fold opts. fold found.
  pose proof (emits_discoverMessages w channelId opts fuel r) as Hscan.
  fold found in Hscan.
  destruct found.1 as [records | sofar]; [| reflexivity].
  destruct (filter_excluded (pc_excludeIds confirmation) records) as [| m given] eqn:E.
  - apply purge_trace_nothing, Hscan.
  - apply (purge_trace_found w); [exact Hscan | discriminate |].
    rewrite <- E. apply filter_excluded_deletable.
Qed.

(** ** Before-only boundaries *)

(** The messages listed after the one with id [B]: none when there is no
    such message. *)
Fixpoint older_part (B : string) (l : list Message) : list Message :=
  match l with
  | [] => []
  | m :: l' => if String.eqb (m_id m) B then l' else older_part B l'
  end.

Lemma older_part_absent B l : B ∉ ids l -> older_part B l = [].
Proof.
  induction l as [| m l IH]; intros Hn; simpl; [reflexivity |].
  destruct (String.eqb_spec (m_id m) B) as [E | _].
  - exfalso. apply Hn. simpl. rewrite E. left.
  - apply IH. intros Hin. apply Hn. simpl. right. exact Hin.
Qed.

Lemma older_part_older B h :
  newest_first h = true ->
  Forall (fun m => newer B (m_id m)) (older_part B h).
Proof.
  induction h as [| m h IH]; intros Hh; simpl; [apply Forall_nil_2 |].
  apply newest_first_cons in Hh. destruct Hh as (_ & Hall & Hh).
  destruct (String.eqb_spec (m_id m) B) as [E | Hne]; [| apply IH, Hh].
  rewrite <- E. exact Hall.
Qed.

Section BeforeOnlyFolds.

Variable uid aid : option string.
Variable B : string.
Hypothesis Haid : truthy aid = false.
Hypothesis HB : truthy (Some B) = true.

(** Once the boundary has been met. *)
Lemma fold_below_boundary l : forall st,
  foundBoundary st = true -> collecting st = true ->
  r_messages (range_fold uid aid (Some B) l st).1
  = (r_messages st ++ List.filter (author_matches uid) l)%list.
Proof.
  induction l as [| m l IH]; intros st Hf Hc; simpl.
  - rewrite app_nil_r. reflexivity.
  - unfold range_visit. rewrite Haid, HB. rstate_simpl. rewrite Hf, Hc.
    cbn [andb negb].
    destruct (author_matches uid m) eqn:Ea.
    + rewrite IH by (rstate_simpl; auto). rstate_simpl.
      rewrite <- app_assoc. reflexivity.
    + rewrite IH by (rstate_simpl; auto). reflexivity.
Qed.

(** Before the boundary has been met. *)
Lemma fold_above_boundary l : forall st,
  foundBoundary st = false ->
  r_messages (range_fold uid aid (Some B) l st).1
  = (r_messages st ++ List.filter (author_matches uid) (older_part B l))%list.
Proof.
  induction l as [| m l IH]; intros st Hf; simpl.
  - rewrite app_nil_r. reflexivity.
  - unfold range_visit. rewrite Haid, HB. rstate_simpl. rewrite Hf.
    cbn [andb negb id_is].
    destruct (String.eqb (m_id m) B).
    + rewrite fold_below_boundary by (rstate_simpl; auto). reflexivity.
    + rewrite IH by (rstate_simpl; auto). reflexivity.
Qed.

(** The boundary record is met before anything is collected, and it is
    not met twice. *)
Definition boundary_kept_out (st : RState) : Prop :=
  (B ∉ ids (r_messages st))
  /\ (foundBoundary st = true -> B ∈ r_seenMessageIds st).

Lemma before_only_visit_excludes st msg :
  boundary_kept_out st -> m_id msg ∉ r_seenMessageIds st ->
  match range_visit uid aid (Some B) msg (r_see st (m_id msg)) with
  | inl st' | inr st' => boundary_kept_out st'
  end.
Proof.
  intros [Hout Hseen] Hnew. unfold range_visit, boundary_kept_out.
  rewrite Haid, HB. rstate_simpl. cbn [andb negb id_is].
  destruct (foundBoundary st) eqn:Hf; cbn [negb].
  - assert (Hne : m_id msg <> B) by (intros E; apply Hnew; rewrite E; auto).
    destruct (collecting st && author_matches uid msg); rstate_simpl.
    + split; [| intros _; apply elem_of_union_r; auto].
      unfold ids. rewrite map_app. intros Hin. apply elem_of_app in Hin.
      destruct Hin as [Hin | Hin]; [exact (Hout Hin) |].
      apply list_elem_of_singleton in Hin. congruence.
    + split; [exact Hout | intros _; apply elem_of_union_r; auto].
  - destruct (String.eqb_spec (m_id msg) B) as [E | Hne]; rstate_simpl.
    + split; [exact Hout |]. intros _. apply elem_of_union_l, elem_of_singleton.
      symmetry. exact E.
    + split; [exact Hout | rewrite Hf; discriminate].
Qed.

End BeforeOnlyFolds.

(** X8: with a before-only boundary [B], the record with id [B] is never
    collected, whatever the transport and the stop flags do; and against a
    history served newest first, without cancellation, range discovery
    returns, within [length h + 3] iterations, the records listed after
    the one with id [B] that pass the author filter.  These all sort older
    than [B]; there is none when no record has the id [B]. *)
Theorem X8_before_only_boundary
    (channelId : string) (uid aid : option string) (B : string)
    (HB : truthy (Some B) = true) (Haid : truthy aid = false) :
  (forall w fuel r,
     B ∉ ids (outcome_messages
                (discoverRangeMessages w fuel channelId uid aid (Some B) r).1))
  /\ (forall w h r fuel,
        newest_first h = true -> serves h w -> uncancelled channelId w ->
        should_stop channelId (store r) = false ->
        length h + 3 <= fuel ->
        (discoverRangeMessages w fuel channelId uid aid (Some B) r).1
        = Finished (List.filter (author_matches uid) (older_part B h))
        /\ Forall (fun m => newer B (m_id m)) (older_part B h)
        /\ (B ∉ ids h -> older_part B h = [])).
Proof.
  split.
  - intros w fuel r.
    assert (H : triple any_run (discoverRangeMessages w fuel channelId uid aid (Some B))
                  (fun o => B ∉ ids (outcome_messages o))).
    { unfold discoverRangeMessages. eapply triple_weaken.
      - apply (range_loop_inv w any_run (stable_any_run w) any_message (any_response w)
                 channelId uid aid (Some B) (boundary_kept_out B)).
        + intros st n Hst. exact Hst.
        + intros st msg Hst _ Hnew. apply before_only_visit_excludes; assumption.
        + split; [simpl; inversion 1 | discriminate].
      - intros o (st' & [Hst' _] & ->). exact Hst'. }
    apply (H r I).
  - intros w h r fuel Hh Hserves Hquiet Hcalm Hfuel.
    split; [| split; [apply older_part_older, Hh | apply older_part_absent]].
    assert (H : triple (calm channelId)
                  (discoverRangeMessages w fuel channelId uid aid (Some B))
                  (fun o => o = Finished (List.filter (author_matches uid)
                                            (older_part B h)))).
    { unfold discoverRangeMessages. eapply triple_weaken.
      - apply (range_walk w h channelId uid aid (Some B) Hserves Hquiet Hh fuel [] h).
        + reflexivity.
        + split; reflexivity.
        + reflexivity.
        + exact Hfuel.
      - intros o ->. f_equal. unfold range_result.
        rewrite (fold_above_boundary uid aid B Haid HB h); reflexivity. }
    apply (H r Hcalm).
Qed.

Lemma X8_before_only_boundary_witness :
  (discoverRangeMessages (history_world sample_history) 7 "c"%string
     (Some "u1"%string) None (Some "30"%string) idle_run).1
  = Finished [message "20" "u1"; message "10" "u1"]%string.
Proof.
  apply (proj2 (X8_before_only_boundary "c"%string (Some "u1"%string) None
                  "30"%string eq_refl eq_refl)
           (history_world sample_history) sample_history idle_run 7).
  - reflexivity.
  - apply history_world_serves.
  - apply history_world_uncancelled.
  - reflexivity.
  - simpl. lia.
Defined.

(** ** Discovery without limit or boundary, and the scan for a confirmation *)

Section AllOfHistory.

Variable w : World.
Variable h : list Message.
Variable channelId : string.
Variable opts : DiscoverOptions.
Hypothesis Hserves : serves h w.
Hypothesis Hquiet : uncancelled channelId w.
Hypothesis Hh : newest_first h = true.
Hypothesis Haid : truthy (afterId opts) = false.
Hypothesis Hbid : truthy (beforeId opts) = false.
Hypothesis Hlim : forall n, limit_reached (limit opts) n = false.

Lemma discover_all fuel r :
  length h + 3 <= fuel ->
  should_stop channelId (store r) = false ->
  (discoverMessages w fuel channelId opts r).1
  = Finished (List.filter (author_matches (userId opts)) h).
Proof.
  intros Hfuel Hcalm.
  assert (H : triple (calm channelId) (discoverMessages w fuel channelId opts)
                (fun o => o = Finished (List.filter (author_matches (userId opts)) h))).
  { unfold discoverMessages.
    eapply triple_bind; [apply shouldStop_calm |]. intros b ->.
    rewrite Haid, Hbid. cbn [orb].
    eapply triple_weaken.
    - apply (plain_walk w h channelId opts Hserves Hquiet Hh fuel [] h initial_DState).
      + reflexivity.
      + repeat split. apply Hlim.
      + reflexivity.
      + exact Hfuel.
    - intros o ->. rewrite collect_all by exact Hlim. reflexivity. }
  apply (H r Hcalm).
Qed.

End AllOfHistory.

Lemma no_limit_never_reached (lim : option Z) :
  lim = None \/ lim = Some 0%Z -> forall n, limit_reached lim n = false.
Proof. intros [-> | ->] n; reflexivity. Qed.

(** X9: without boundary and without limit (absent, or 0, which the code
    takes for absent), against a history served newest first and without
    cancellation, [discoverMessages] returns within [length h + 3]
    iterations every record of the history that passes the author filter,
    in the order of the history. *)
Theorem X9_unlimited_discovery_returns_all
    (w : World) (h : list Message) (channelId : string) (opts : DiscoverOptions)
    (fuel : nat) (r : Run)
    (Haid : truthy (afterId opts) = false) (Hbid : truthy (beforeId opts) = false)
    (Hlim : limit opts = None \/ limit opts = Some 0%Z)
    (Hh : newest_first h = true) (Hserves : serves h w)
    (Hquiet : uncancelled channelId w)
    (Hcalm : should_stop channelId (store r) = false)
    (Hfuel : length h + 3 <= fuel) :
  (discoverMessages w fuel channelId opts r).1
  = Finished (List.filter (author_matches (userId opts)) h).
Proof.
  apply discover_all; try assumption. apply no_limit_never_reached, Hlim.
Qed.

Lemma X9_unlimited_discovery_returns_all_witness :
  (discoverMessages (history_world sample_history) 7 "c"%string
     {| userId := Some "u1"%string; afterId := None; beforeId := None;
        limit := Some 0%Z; onProgress := true |} idle_run).1
  = Finished [message "40" "u1"; message "20" "u1"; message "10" "u1"]%string.
Proof.
  apply (X9_unlimited_discovery_returns_all (history_world sample_history)
           sample_history "c"%string
           {| userId := Some "u1"%string; afterId := None; beforeId := None;
              limit := Some 0%Z; onProgress := true |} 7 idle_run).
  - reflexivity.
  - reflexivity.
  - right. reflexivity.
  - reflexivity.
  - apply history_world_serves.
  - apply history_world_uncancelled.
  - reflexivity.
  - simpl. lia.
Defined.

(** The records a scan announces: those of the history that pass the
    author filter and are not excluded. *)
Definition announced (uid : option string) (excludeIds : gset string)
    (h : list Message) : list Message :=
  List.filter (fun msg => negb (bool_decide (m_id msg ∈ excludeIds)))
    (List.filter (author_matches uid) h).

(** The scan of an "all" request is a discovery with the messages of its
    callback added to the trace. *)
Lemma scan_discovery_run w fuel channelId uid r :
  let run := discoverMessages w fuel channelId
               {| userId := uid; afterId := None; beforeId := None;
                  limit := None; onProgress := true |} r in
  exists scan,
    trace run.2 = (trace r ++ scan)%list
    /\ Forall (discovery_event channelId true) scan
    /\ scan_discovery w fuel channelId uid r
       = (run.1, {| clock := clock run.2; store := store run.2;
                    trace := (trace r ++ onProgress_calls w channelId 0 0%Z scan)%list |}).
Proof.
  intros run.
  destruct (emits_discoverMessages w channelId
              {| userId := uid; afterId := None; beforeId := None;
                 limit := None; onProgress := true |} fuel r) as (scan & Ht & Hscan).
  exists scan. split; [exact Ht |]. split; [exact Hscan |].
  subst run. unfold scan_discovery. cbv zeta. rewrite Ht, drop_app_length.
  reflexivity.
Qed.

(** The callback adds nothing but its own messages. *)
Lemma onProgress_calls_Forall w channelId (E : Event -> Prop) events : forall k lastUpdateTime,
  Forall E events -> (forall n, E (EvSend channelId (ScanProgress n))) ->
  Forall E (onProgress_calls w channelId k lastUpdateTime events).
Proof.
  induction events as [| e events IH]; intros k lastUpdateTime Hall Hsend;
    [apply Forall_nil_2 |].
  apply Forall_cons in Hall. destruct Hall as [He Hall].
  destruct e; cbn [onProgress_calls];
    try (apply Forall_cons; split; [exact He | apply IH; assumption]).
  cbv zeta. destruct (progress_update _ _ _).
  - apply Forall_cons. split; [exact He |].
    apply Forall_cons. split; [apply Hsend | apply IH; assumption].
  - apply Forall_cons. split; [exact He | apply IH; assumption].
Qed.

Lemma emits_scan_discovery w fuel channelId uid (E : Event -> Prop) :
  (forall e, discovery_event channelId true e -> E e) ->
  (forall n, E (EvSend channelId (ScanProgress n))) ->
  emits E (scan_discovery w fuel channelId uid).
Proof.
  intros HE Hsend r.
  destruct (scan_discovery_run w fuel channelId uid r) as (scan & Ht & Hscan & ->).
  exists (onProgress_calls w channelId 0 0%Z scan). split; [reflexivity |].
  apply onProgress_calls_Forall; [| exact Hsend].
  eapply Forall_impl; [exact Hscan | exact HE].
Qed.

(** As to the result, the clock and the store, the scan is the discovery. *)
Lemma scan_discovery_same w fuel channelId uid r :
  let run := discoverMessages w fuel channelId
               {| userId := uid; afterId := None; beforeId := None;
                  limit := None; onProgress := true |} r in
  (scan_discovery w fuel channelId uid r).1 = run.1
  /\ store (scan_discovery w fuel channelId uid r).2 = store run.2
  /\ clock (scan_discovery w fuel channelId uid r).2 = clock run.2.
Proof. intros run. repeat split. Qed.

Lemma scan_all_announces
    (w : World) (h : list Message) (channelId : string) (scanUserId : option string)
    (mode : Mode) (excludeIds : gset string) (fuel : nat) (r : Run)
    (Hh : newest_first h = true) (Hserves : serves h w)
    (Hquiet : uncancelled channelId w)
    (Hcalm : should_stop channelId (store r) = false)
    (Hfuel : length h + 3 <= fuel) :
  let run := scan_all w fuel channelId scanUserId mode excludeIds r in
  let n := length (announced scanUserId excludeIds h) in
  run.1 = TaskDone
  /\ (exists scan,
        trace (discoverMessages w fuel channelId
                 {| userId := scanUserId; afterId := None; beforeId := None;
                    limit := None; onProgress := true |} r).2
        = (trace r ++ scan)%list
        /\ Forall (discovery_event channelId true) scan
        /\ trace run.2
           = (trace r ++ onProgress_calls w channelId 0 0%Z scan
              ++ [EvSend channelId
                    (if n =? 0 then NoMessagesToDelete else ScanComplete n)])%list)
  /\ (0 < n ->
      pendingConfirmations (store run.2) !! channelId
      = Some {| pc_count := n; pc_userId := scanUserId; pc_mode := mode;
                pc_excludeIds := Some excludeIds |})
  /\ (n = 0 ->
      store run.2
      = store (discoverMessages w fuel channelId
                 {| userId := scanUserId; afterId := None; beforeId := None;
                    limit := None; onProgress := true |} r).2).
Proof.
  intros run n. unfold run, scan_all. rewrite bind_run.
  set (opts := {| userId := scanUserId; afterId := None; beforeId := None;
                  limit := None; onProgress := true |}).
  pose proof (discover_all w h channelId opts Hserves Hquiet Hh eq_refl eq_refl
                (fun _ => eq_refl) fuel r Hfuel Hcalm) as Hfound.
  destruct (scan_discovery_run w fuel channelId scanUserId r) as (scan & Ht & Hscan & ->).
  fold opts in Ht |- *. cbn [fst snd].
  rewrite Hfound. change (userId opts) with scanUserId.
  fold (announced scanUserId excludeIds h). unfold n.
  destruct (announced scanUserId excludeIds h) as [| m rest].
  - split; [reflexivity |]. split; [| split; [cbn; lia | reflexivity]].
    exists scan. split; [exact Ht |]. split; [exact Hscan |].
    simpl. rewrite <- app_assoc. reflexivity.
  - split; [reflexivity |]. split; [| split; [| discriminate]].
    + exists scan. split; [exact Ht |]. split; [exact Hscan |].
      simpl. rewrite <- app_assoc. reflexivity.
    + intros _. simpl. apply lookup_insert_eq.
Qed.

(** X10: the scan of an "all" request, against a history served newest
    first and without cancellation, is done within [length h + 3]
    iterations; its trace is the events of the discovery, each call of the
    progress callback followed by the "Scanning messages... (N found so
    far)" message when the callback sends it (N a multiple of 100, N = 1,
    or 2000 ms since the last one sent, counted from time 0), and then one
    final reply.  When some record of the history passes the author filter and is
    not excluded, it leaves a pending confirmation for the channel whose
    count is the number of these records and announces that number;
    otherwise it replies that there is nothing to delete and stores
    nothing. *)
Theorem X10_scan_announces_matching_records
    (w : World) (h : list Message) (channelId : string) (scanUserId : option string)
    (mode : Mode) (excludeIds : gset string) (fuel : nat) (r : Run)
    (Hh : newest_first h = true) (Hserves : serves h w)
    (Hquiet : uncancelled channelId w)
    (Hcalm : should_stop channelId (store r) = false)
    (Hfuel : length h + 3 <= fuel) :
  let run := scan_all w fuel channelId scanUserId mode excludeIds r in
  let n := length (announced scanUserId excludeIds h) in
  run.1 = TaskDone
  /\ (exists scan,
        trace (discoverMessages w fuel channelId
                 {| userId := scanUserId; afterId := None; beforeId := None;
                    limit := None; onProgress := true |} r).2
        = (trace r ++ scan)%list
        /\ Forall (discovery_event channelId true) scan
        /\ trace run.2
           = (trace r ++ onProgress_calls w channelId 0 0%Z scan
              ++ [EvSend channelId
                    (if n =? 0 then NoMessagesToDelete else ScanComplete n)])%list)
  /\ (0 < n ->
      pendingConfirmations (store run.2) !! channelId
      = Some {| pc_count := n; pc_userId := scanUserId; pc_mode := mode;
                pc_excludeIds := Some excludeIds |})
  /\ (n = 0 ->
      store run.2
      = store (discoverMessages w fuel channelId
                 {| userId := scanUserId; afterId := None; beforeId := None;
                    limit := None; onProgress := true |} r).2).
Proof.
  apply scan_all_announces; assumption.
Qed.

Lemma X10_scan_announces_matching_records_witness :
  let run := scan_all (history_world sample_history) 7 "c"%string (Some "u1"%string)
               ModeSelf {[ "20"%string ]} idle_run in
  run.1 = TaskDone
  /\ pendingConfirmations (store run.2) !! "c"%string
     = Some {| pc_count := 2; pc_userId := Some "u1"%string; pc_mode := ModeSelf;
               pc_excludeIds := Some {[ "20"%string ]} |}.
Proof.
  pose proof (X10_scan_announces_matching_records (history_world sample_history)
                sample_history "c"%string (Some "u1"%string) ModeSelf
                {[ "20"%string ]} 7 idle_run eq_refl
                (history_world_serves sample_history)
                (history_world_uncancelled "c"%string sample_history)
                eq_refl ltac:(simpl; lia)) as H.
  cbv zeta in H. destruct H as (Hdone & _ & Hpending & _).
  split; [exact Hdone |].
  assert (Hn : length (announced (Some "u1"%string) {[ "20"%string ]} sample_history) = 2)
    by (vm_compute; reflexivity).
  rewrite Hn in Hpending. apply Hpending. lia.
Defined.

(** The scan of the sample history for the user u1: one page, one call of
    the callback, with three records found, and its message. *)
Example scan_all_sample_progress :
  take 3 (trace (scan_all (history_world sample_history) 7 "c"%string
                   (Some "u1"%string) ModeSelf {[ "20"%string ]} idle_run).2)
  = [EvGet "c"%string (fetch_query None); EvProgress 3;
     EvSend "c"%string (ScanProgress 3)].
Proof. vm_compute. reflexivity. Qed.

(** ** A confirmation carried out *)

(** No other handler runs while a task is suspended. *)
Definition alone (w : World) : Prop := forall t s, interfere w t s = s.

Lemma alone_uncancelled w channelId : alone w -> uncancelled channelId w.
Proof. intros Hw t s H. rewrite Hw. exact H. Qed.

Lemma alone_no_new_scan w channelId : alone w -> no_new_scan channelId w.
Proof. intros Hw t s H. rewrite Hw. exact H. Qed.

(** The channel's [PurgeState] is the object [purge], with its stop flag
    down. *)
Definition purge_alive (channelId : string) (purge : nat) : Run -> Prop :=
  fun r => activePurges (store r) !! channelId = Some purge
           /\ purge_stopped purge (store r) = false.

Lemma purge_alive_stable w channelId purge :
  alone w -> stable w (purge_alive channelId purge).
Proof.
  intros Hw. split.
  - intros r Hr. unfold purge_alive. simpl. rewrite Hw. exact Hr.
  - intros e r _ Hr. exact Hr.
  - intros c r Hr. exact Hr.
Qed.

(** A discovery keeps every invariant that its steps keep. *)
Lemma discoverMessages_keeps w (I : Run -> Prop) fuel channelId opts :
  stable w I -> (forall n r, I r -> I (emit (EvProgress n) r).2) ->
  triple I (discoverMessages w fuel channelId opts) (fun _ => True).
Proof.
  intros HI HIp. unfold discoverMessages.
  apply triple_seq; [apply shouldStop_keeps |]. intros [|].
  - apply triple_seq; [apply (activeScans_delete_keeps w _ HI) |].
    intros _. apply triple_ret. exact Logic.I.
  - destruct (truthy (afterId opts) || truthy (beforeId opts)).
    + unfold discoverRangeMessages. eapply triple_weaken.
      * apply (range_loop_inv w _ HI any_message (any_response w) channelId
                 (userId opts) (afterId opts) (beforeId opts) (fun _ => True)).
        -- trivial.
        -- intros st msg _ _ _. destruct (range_visit _ _ _ _ _); exact Logic.I.
        -- exact Logic.I.
      * trivial.
    + eapply triple_weaken.
      * apply (discover_loop_inv w _ HI HIp channelId opts (fun _ _ => True));
          unfold holds; trivial.
      * trivial.
Qed.

(** What a confirm does before its task starts, when a confirmation is
    pending and no purge is in progress. *)
Lemma confirm_starts env channelId r confirmation :
  pendingConfirmations (store r) !! channelId = Some confirmation ->
  activePurges (store r) !! channelId = None ->
  execute env CmdConfirm channelId r
  = (Some (TaskConfirmed confirmation),
     {| clock := clock r;
        store := start_purge channelId (delete_pending channelId (store r));
        trace := (trace r ++ [EvSend channelId (StartingPurge (pc_count confirmation))])%list
     |}).
Proof.
  intros Hp Ha. unfold execute, mbind, M_bind, getStore. rewrite Hp.
  cbn -[has_purge]. unfold has_purge. cbn. rewrite Ha.
  rewrite bool_decide_eq_false_2 by (intros [x Hx]; discriminate Hx).
  reflexivity.
Qed.

Lemma started_purge_alive channelId s :
  purge_stopped (next_ref s) (start_purge channelId s) = false
  /\ activePurges (start_purge channelId s) !! channelId = Some (next_ref s).
Proof.
  unfold purge_stopped, start_purge. cbn. rewrite !lookup_insert_eq.
  split; reflexivity.
Qed.

Lemma started_purge_calm channelId s :
  activePurges s !! channelId = None ->
  should_stop channelId s = false ->
  should_stop channelId (start_purge channelId (delete_pending channelId s)) = false.
Proof.
  unfold should_stop, start_purge, delete_pending. cbn. intros Ha.
  rewrite Ha, !lookup_insert_eq. cbn. intros H. exact H.
Qed.

(** The filter of a confirmation selects like the author filter stored
    in it. *)
Lemma confirmation_filter uid m :
  author_matches (if truthy uid then uid else None) m = author_matches uid m.
Proof.
  unfold author_matches. destruct (truthy uid) eqn:E; [rewrite E; reflexivity |].
  reflexivity.
Qed.

Lemma own_matches_deletable env canDeleteOthers ex uid h :
  (uid = Some (currentUserId env) /\ truthy uid = true) \/ canDeleteOthers = true ->
  List.filter (deletable env canDeleteOthers (Some ex))
    (List.filter (author_matches uid) h)
  = announced uid ex h.
Proof.
  intros Hown. unfold announced.
  induction h as [| m h IH]; [reflexivity |]. cbn [List.filter].
  destruct (author_matches uid m) eqn:Em; [| exact IH]. cbn [List.filter].
  assert (Hd : deletable env canDeleteOthers (Some ex) m
               = negb (bool_decide (m_id m ∈ ex))).
  { unfold deletable. cbn [excluded].
    destruct Hown as [[-> Ht] | ->]; [| rewrite andb_false_r, andb_true_r; reflexivity].
    unfold author_matches in Em. rewrite Ht in Em. cbn [negb orb] in Em.
    unfold isOwnMessage. destruct (m_author m) as [a |]; [| discriminate].
    cbn [id_is] in Em. rewrite Em. cbn. apply andb_true_r. }
  rewrite Hd. destruct (negb (bool_decide (m_id m ∈ ex))); [f_equal |]; exact IH.
Qed.

Section CarriedOut.

Variable w : World.
Variable env : Env.
Variable h : list Message.
Variable channelId : string.
Variable confirmation : PendingConfirmation.
Hypothesis Halone : alone w.
Hypothesis Hserves : serves h w.
Hypothesis Hh : newest_first h = true.

(** The records a confirmed purge calls delete for. *)
Definition confirmed_todo : list Message :=
  List.filter (deletable env (canManageMessages env channelId)
                 (pc_excludeIds confirmation))
    (List.filter (author_matches (pc_userId confirmation)) h).

(** What follows the announcement of a confirmed purge in its trace. *)
Definition carried_out (before after : list Event) : Prop :=
  exists scan calls reply,
    after = (before ++ scan ++ calls ++ [EvSend channelId reply])%list
    /\ Forall (discovery_event channelId false) scan
    /\ deleted_ids calls = List.map m_id confirmed_todo
    /\ ((reply = NoMessagesToDelete /\ confirmed_todo = [])
        \/ exists deleted failed,
             reply = PurgeResult deleted failed
             /\ deleted + failed = length confirmed_todo
             /\ ((forall t x, restDel w t channelId x = true) ->
                 (deleted, failed) = (length confirmed_todo, 0))).

Lemma confirmed_purge_carried_out fuel purge r :
  length h + 3 <= fuel ->
  should_stop channelId (store r) = false ->
  purge_alive channelId purge r ->
  let run := confirmed_purge w env fuel channelId confirmation r in
  run.1 = TaskDone /\ carried_out (trace r) (trace run.2).
Proof.
  intros Hfuel Hcalm Halive run. unfold run, confirmed_purge. rewrite bind_run.
  set (opts := {| userId := if truthy (pc_userId confirmation)
                            then pc_userId confirmation else None;
                  afterId := None; beforeId := None; limit := None;
                  onProgress := false |}).
  pose proof (discover_all w h channelId opts Hserves
                (alone_uncancelled w channelId Halone) Hh eq_refl eq_refl
                (fun _ => eq_refl) fuel r Hfuel Hcalm) as Hfound.
  rewrite (List.filter_ext _ _ (confirmation_filter (pc_userId confirmation))) in Hfound.
  destruct (emits_discoverMessages w channelId opts fuel r) as (scan & Ht & Hscan).
  destruct (discoverMessages_keeps w (purge_alive channelId purge) fuel channelId opts
              (purge_alive_stable w channelId purge Halone)
              (fun n r0 H0 => H0) r Halive) as [_ [Hactive Hrunning]].
  rewrite Hfound.
  pose proof (filter_excluded_deletable env (canManageMessages env channelId)
                (pc_excludeIds confirmation)
                (List.filter (author_matches (pc_userId confirmation)) h)) as Htodo.
  fold confirmed_todo in Htodo.
  destruct (filter_excluded (pc_excludeIds confirmation)
              (List.filter (author_matches (pc_userId confirmation)) h))
    as [| m given].
  - split; [reflexivity |]. exists scan, [], NoMessagesToDelete.
    rewrite <- Htodo. repeat split.
    + simpl. rewrite Ht, <- app_assoc. reflexivity.
    + exact Hscan.
    + left. split; reflexivity.
  - rewrite bind_run. split; [reflexivity |].
    destruct (executePurge_calls_all w env channelId (m :: given)
                (canManageMessages env channelId) (pc_excludeIds confirmation) purge
                (discoverMessages w fuel channelId opts r).2 Hactive Hrunning
                (fun t s H => eq_ind_r (fun s' => purge_stopped purge s' = false)
                                H (Halone t s)))
      as ((calls & Hc & Hids) & Hsum & Hok & _).
    rewrite Htodo in Hids, Hsum, Hok.
    exists scan, calls. eexists. repeat split.
    + simpl. rewrite Hc, Ht, <- !app_assoc. reflexivity.
    + exact Hscan.
    + exact Hids.
    + right. eexists _, _. split; [reflexivity |]. split; [exact Hsum |].
      intros Hall. rewrite <- (Hok Hall). symmetry. apply surjective_pairing.
Qed.

End CarriedOut.

Lemma confirm_carried_out
    (w : World) (env : Env) (h : list Message) (channelId : string)
    (confirmation : PendingConfirmation) (fuel : nat) (r : Run)
    (Halone : alone w) (Hserves : serves h w) (Hh : newest_first h = true)
    (Hpending : pendingConfirmations (store r) !! channelId = Some confirmation)
    (Hidle : activePurges (store r) !! channelId = None)
    (Hcalm : should_stop channelId (store r) = false)
    (Hfuel : length h + 3 <= fuel) :
  let run := handle w env fuel CmdConfirm channelId r in
  run.1 = TaskDone
  /\ carried_out w env h channelId confirmation
       (trace r ++ [EvSend channelId (StartingPurge (pc_count confirmation))])%list
       (trace run.2)
  /\ activePurges (store run.2) !! channelId = None
  /\ pendingConfirmations (store run.2) !! channelId = None
  /\ (forall ex,
        pc_excludeIds confirmation = Some ex ->
        (pc_userId confirmation = Some (currentUserId env)
         /\ truthy (pc_userId confirmation) = true)
        \/ canManageMessages env channelId = true ->
        confirmed_todo env h channelId confirmation
        = announced (pc_userId confirmation) ex h).
Proof.
  intros run. unfold run, handle. rewrite bind_run.
  rewrite (confirm_starts env channelId r confirmation Hpending Hidle).
  cbn [fst snd run_task].
  set (r1 := {| clock := clock r;
                store := start_purge channelId (delete_pending channelId (store r));
                trace := (trace r ++ [EvSend channelId
                                        (StartingPurge (pc_count confirmation))])%list |}).
  destruct (started_purge_alive channelId (delete_pending channelId (store r)))
    as [Hrunning Hactive].
  destruct (confirmed_purge_carried_out w env h channelId confirmation Halone Hserves Hh
              fuel (next_ref (delete_pending channelId (store r))) r1 Hfuel
              (started_purge_calm channelId (store r) Hidle Hcalm)
              (conj Hactive Hrunning)) as [Hdone Htrace].
  split; [exact Hdone |]. split; [exact Htrace |]. split; [| split].
  - pose proof (confirmed_purge_gone w env fuel channelId confirmation r1) as Hgone.
    rewrite Hdone in Hgone. exact Hgone.
  - apply (run_task_keeps_pending w env channelId
             (alone_no_new_scan w channelId Halone) fuel confirmation r1).
    unfold no_pending. cbn. apply lookup_delete_eq.
  - intros ex Hex Hown. unfold confirmed_todo. rewrite Hex.
    apply own_matches_deletable, Hown.
Qed.

(** X11: a confirm, handled to the end of its task while no other handler
    runs, with a confirmation pending, no purge in progress and no stop
    flag up, against a history served newest first: the task is done
    within [length h + 3] iterations; the trace is the announcement of the
    confirmation's count, the events of a discovery, delete calls for
    exactly the records of the history that pass the confirmation's author
    filter, are not excluded and are own or deletable now, and one reply
    whose counts add up to the number of these records (all counted
    deleted when every call succeeds); afterwards the channel has neither
    a [PurgeState] nor a pending confirmation.  When the confirmation's
    filter is the current user or the permission is held, these records
    are those a scan of the same history announces. *)
Theorem X11_confirmation_carried_out
    (w : World) (env : Env) (h : list Message) (channelId : string)
    (confirmation : PendingConfirmation) (fuel : nat) (r : Run)
    (Halone : alone w) (Hserves : serves h w) (Hh : newest_first h = true)
    (Hpending : pendingConfirmations (store r) !! channelId = Some confirmation)
    (Hidle : activePurges (store r) !! channelId = None)
    (Hcalm : should_stop channelId (store r) = false)
    (Hfuel : length h + 3 <= fuel) :
  let run := handle w env fuel CmdConfirm channelId r in
  run.1 = TaskDone
  /\ carried_out w env h channelId confirmation
       (trace r ++ [EvSend channelId (StartingPurge (pc_count confirmation))])%list
       (trace run.2)
  /\ activePurges (store run.2) !! channelId = None
  /\ pendingConfirmations (store run.2) !! channelId = None
  /\ (forall ex,
        pc_excludeIds confirmation = Some ex ->
        (pc_userId confirmation = Some (currentUserId env)
         /\ truthy (pc_userId confirmation) = true)
        \/ canManageMessages env channelId = true ->
        confirmed_todo env h channelId confirmation
        = announced (pc_userId confirmation) ex h).
Proof.
  apply confirm_carried_out; assumption.
Qed.

Lemma X11_confirmation_carried_out_witness :
  let run := handle (history_world sample_history) sample_env 7 CmdConfirm "c"%string
               (run_from pending_store) in
  run.1 = TaskDone
  /\ activePurges (store run.2) !! "c"%string = None
  /\ pendingConfirmations (store run.2) !! "c"%string = None.
Proof.
  pose proof (X11_confirmation_carried_out (history_world sample_history) sample_env
                sample_history "c"%string sample_confirmation 7 (run_from pending_store)
                (fun t s => eq_refl) (history_world_serves sample_history) eq_refl
                eq_refl eq_refl eq_refl ltac:(simpl; lia)) as H.
  cbv zeta in H. destruct H as (Hdone & _ & Hpurge & Hpending & _).
  split; [exact Hdone |]. split; [exact Hpurge | exact Hpending].
Defined.

(** ** The tasks the command handler issues *)

(** A direct purge as the handler may issue it: either a positive count and
    no boundary, or no count and at least one boundary, with the range text
    of these boundaries. *)
Definition well_formed_purge (opts : DiscoverOptions) (rangeText : option RangeText)
  : Prop :=
  onProgress opts = false
  /\ ((exists n, limit opts = Some n /\ (1 <= n)%Z
                 /\ afterId opts = None /\ beforeId opts = None /\ rangeText = None)
      \/ (limit opts = None
          /\ truthy (afterId opts) || truthy (beforeId opts) = true
          /\ rangeText = Some (formatRangeText (afterId opts) (beforeId opts)))).

Lemma count_or_range_purge channelId filterId canDeleteOthers mode
    countStr aid bid excludeStr r opts cdo ex rangeText :
  (count_or_range channelId filterId canDeleteOthers mode countStr aid bid excludeStr r).1
  = Some (TaskRunPurge opts cdo ex rangeText) ->
  well_formed_purge opts rangeText
  /\ userId opts = filterId /\ cdo = canDeleteOthers
  /\ ex = parseExcludeIds excludeStr
  /\ (count_or_range channelId filterId canDeleteOthers mode countStr aid bid
        excludeStr r).2
     = {| clock := clock r; store := start_purge channelId (store r);
          trace := trace r |}.
Proof.
  unfold count_or_range, well_formed_purge. cbv zeta.
  destruct (truthy aid || truthy bid) eqn:Hrange.
  - destruct (truthy countStr); [intros Hnone; discriminate Hnone |].
    intros [= <- <- <- <-]. cbn. rewrite Hrange. repeat split; auto.
  - destruct (negb (truthy countStr)); [intros Hnone; discriminate Hnone |].
    destruct (String.eqb _ _); [intros Hnone; discriminate Hnone |].
    destruct (parseInt _) as [count |]; [| intros Hnone; discriminate Hnone].
    destruct (Z.ltb_spec count 1); [intros Hnone; discriminate Hnone |].
    intros [= <- <- <- <-]. cbn. repeat split; auto.
    left. exists count. repeat split; auto.
Qed.

Lemma formatRangeText_truthy aid bid :
  formatRangeText (if truthy aid then aid else None) bid = formatRangeText aid bid.
Proof.
  unfold formatRangeText. destruct (truthy aid) eqn:E; [rewrite E; reflexivity |].
  reflexivity.
Qed.

Lemma issued_purge_well_formed
    (env : Env) (subcommand : Subcommand) (channelId : string) (r : Run)
    (opts : DiscoverOptions) (canDeleteOthers : bool) (excludeIds : gset string)
    (rangeText : option RangeText)
    (Htask : (execute env subcommand channelId r).1
             = Some (TaskRunPurge opts canDeleteOthers excludeIds rangeText)) :
  well_formed_purge opts rangeText
  /\ (canDeleteOthers = true ->
      canManageMessages env channelId = true /\ isDM env channelId = false)
  /\ (canDeleteOthers = false -> userId opts = Some (currentUserId env))
  /\ activePurges (store r) !! channelId = None
  /\ (execute env subcommand channelId r).2
     = {| clock := clock r; store := start_purge channelId (store r);
          trace := trace r |}.
Proof.
  assert (Hdm : canManageMessages env channelId = true -> isDM env channelId = false).
  { unfold canManageMessages. destruct (isDM env channelId); [discriminate | reflexivity]. }
  assert (Hidle : has_purge channelId (store r) = false ->
                  activePurges (store r) !! channelId = None).
  { unfold has_purge. intros H. apply bool_decide_eq_false in H.
    destruct (activePurges (store r) !! channelId) eqn:E; [| reflexivity].
    exfalso. apply H. eexists. reflexivity. }
  destruct subcommand as [c a b e | t c a b e | m b e | m a e | c a b e | |];
    unfold execute in Htask |- *; rewrite bind_run in Htask |- *;
    cbn [getStore fst snd] in Htask |- *.
  - destruct (has_purge channelId (store r)) eqn:Hp; [discriminate Htask |].
    destruct (count_or_range_purge _ _ _ _ _ _ _ _ _ _ _ _ _ Htask)
      as (Hwf & Hu & -> & _ & Hr).
    split; [exact Hwf |]. split; [intros Hx; discriminate Hx |].
    split; [intros _; exact Hu |]. split; [apply Hidle; reflexivity | exact Hr].
  - destruct (has_purge channelId (store r)) eqn:Hp; [discriminate Htask |].
    destruct (isDM env channelId) eqn:Edm; [discriminate Htask |].
    destruct (canManageMessages env channelId) eqn:Ecm; [| discriminate Htask].
    cbn [negb] in Htask |- *.
    assert (Hgoal : forall countStr aid bid excludeStr s,
              (count_or_range channelId (Some s) true ModeUser countStr aid bid
                 excludeStr r).1
              = Some (TaskRunPurge opts canDeleteOthers excludeIds rangeText) ->
              well_formed_purge opts rangeText
              /\ (canDeleteOthers = true -> true = true /\ false = false)
              /\ (canDeleteOthers = false -> userId opts = Some (currentUserId env))
              /\ activePurges (store r) !! channelId = None
              /\ (count_or_range channelId (Some s) true ModeUser countStr aid bid
                    excludeStr r).2
                 = {| clock := clock r; store := start_purge channelId (store r);
                      trace := trace r |}).
    { intros countStr aid bid excludeStr s H.
      destruct (count_or_range_purge _ _ _ _ _ _ _ _ _ _ _ _ _ H)
        as (Hwf & Hu & -> & _ & Hr).
      split; [exact Hwf |]. split; [intros _; split; reflexivity |].
      split; [intros Hx; discriminate Hx |]. split; [apply Hidle; reflexivity | exact Hr]. }
    destruct t as [[s | [s |]] |]; try discriminate Htask.
    + apply Hgoal, Htask.
    + destruct (truthy (Some s)); [| discriminate Htask].
      apply Hgoal, Htask.
  - destruct (has_purge channelId (store r)) eqn:Hp; [discriminate Htask |].
    cbv zeta in Htask |- *.
    destruct (truthy m) eqn:Em; [| discriminate Htask]. cbn [negb] in Htask |- *.
    injection Htask as <- <- <- <-.
    split; [| split; [| split; [| split]]].
    + split; [reflexivity |]. right. cbn. rewrite Em. auto.
    + intros H. apply andb_prop in H. destruct H as [H1 H2].
      split; [exact H2 | apply negb_true_iff, H1].
    + intros H. cbn. rewrite H. reflexivity.
    + apply Hidle; reflexivity.
    + reflexivity.
  - destruct (has_purge channelId (store r)) eqn:Hp; [discriminate Htask |].
    cbv zeta in Htask |- *.
    destruct (truthy m) eqn:Em; [| discriminate Htask]. cbn [negb] in Htask |- *.
    injection Htask as <- <- <- <-.
    split; [| split; [| split; [| split]]].
    + split; [reflexivity |]. right. cbn. rewrite Em, orb_true_r.
      rewrite formatRangeText_truthy. auto.
    + intros H. apply andb_prop in H. destruct H as [H1 H2].
      split; [exact H2 | apply negb_true_iff, H1].
    + intros H. cbn. rewrite H. reflexivity.
    + apply Hidle; reflexivity.
    + reflexivity.
  - destruct (has_purge channelId (store r)) eqn:Hp; [discriminate Htask |].
    cbv zeta in Htask |- *.
    destruct (negb (isDM env channelId) && canManageMessages env channelId) eqn:Ecdo;
      [| discriminate Htask].
    cbn [negb] in Htask |- *.
    destruct (count_or_range_purge _ _ _ _ _ _ _ _ _ _ _ _ _ Htask)
      as (Hwf & Hu & -> & _ & Hr).
    apply andb_prop in Ecdo. destruct Ecdo as [H1 H2].
    split; [exact Hwf |].
    split; [intros _; split; [exact H2 | apply negb_true_iff, H1] |].
    split; [intros Hx; discriminate Hx |]. split; [apply Hidle; reflexivity | exact Hr].
  - destruct (pendingConfirmations (store r) !! channelId); [| discriminate Htask].
    rewrite !bind_run in Htask. cbn -[has_purge] in Htask.
    destruct (has_purge channelId _); discriminate Htask.
  - destruct (has_purge channelId (store r)); discriminate Htask.
Qed.

(** X12: a direct purge issued by the command handler is well formed (a
    count of at least 1 and no boundary, or no count and at least one
    non-empty boundary with the matching range text; no progress callback);
    it may delete other users' records only when the Manage Messages
    permission is held in a channel that is not a DM, and otherwise its
    author filter is the current user; it is issued only when no purge is
    in progress in the channel; and when the handler hands over to the
    discovery it has sent no reply and has changed the state in one way
    only: a fresh [PurgeState] is registered for the channel. *)
Theorem X12_issued_purge_is_well_formed
    (env : Env) (subcommand : Subcommand) (channelId : string) (r : Run)
    (opts : DiscoverOptions) (canDeleteOthers : bool) (excludeIds : gset string)
    (rangeText : option RangeText)
    (Htask : (execute env subcommand channelId r).1
             = Some (TaskRunPurge opts canDeleteOthers excludeIds rangeText)) :
  well_formed_purge opts rangeText
  /\ (canDeleteOthers = true ->
      canManageMessages env channelId = true /\ isDM env channelId = false)
  /\ (canDeleteOthers = false -> userId opts = Some (currentUserId env))
  /\ activePurges (store r) !! channelId = None
  /\ (execute env subcommand channelId r).2
     = {| clock := clock r; store := start_purge channelId (store r);
          trace := trace r |}.
Proof.
  apply (issued_purge_well_formed env subcommand channelId r opts canDeleteOthers
           excludeIds rangeText Htask).
Qed.

Lemma X12_issued_purge_is_well_formed_witness :
  well_formed_purge
    {| userId := Some "u1"%string; afterId := None; beforeId := None;
       limit := Some 5%Z; onProgress := false |} None
  /\ activePurges (store idle_run) !! "c"%string = None.
Proof.
  pose proof (X12_issued_purge_is_well_formed sample_env
                (CmdSelf (Some "5"%string) None None None) "c"%string idle_run
                {| userId := Some "u1"%string; afterId := None; beforeId := None;
                   limit := Some 5%Z; onProgress := false |}
                false ∅ None eq_refl) as H.
  destruct H as (Hwf & _ & _ & Hidle & _). split; assumption.
Defined.

(** ** Where discovered records come from *)

Section Provenance.

Variable w : World.
Variable channelId : string.
Variable uid : option string.

(** The record was in some answer of the list endpoint for the channel. *)
Definition served (m : Message) : Prop :=
  exists t q body, restGet w t channelId q = Resolved (Some body) /\ m ∈ body.

(** Served, and passing the author filter. *)
Definition found_ok (m : Message) : Prop :=
  served m /\ author_matches uid m = true.

Let HI : stable w any_run := stable_any_run w.

Lemma fetchMessageBatch_served before after :
  triple any_run (fetchMessageBatch w channelId before after) (fetched_ok served).
Proof.
  unfold fetchMessageBatch. eapply triple_bind; [apply (RestAPI_get_keeps w _ HI) |].
  intros v [t ->].
  destruct (restGet w t channelId _) as [[body |] | error] eqn:E;
    apply triple_ret; simpl; [| apply Forall_nil_2 | exact I].
  apply Forall_forall. intros m Hm. eexists t, _, body. split; [exact E | exact Hm].
Qed.

Lemma fetch_with_retry_served before attempts : forall retry,
  triple any_run (fetch_with_retry w channelId before attempts retry) (batch_ok served).
Proof.
  induction attempts as [| n IH]; intros retry; simpl.
  - apply triple_ret. exact I.
  - eapply triple_bind; [apply fetchMessageBatch_served |].
    intros [error | batch] Hb.
    + apply triple_seq; [apply (sleep_keeps w _ HI) | intros _; apply IH].
    + apply triple_ret. exact Hb.
Qed.

Lemma verify_fetch_served before unit_ms attempts : forall k,
  triple any_run (verify_fetch w channelId before unit_ms attempts k) (verified_ok served).
Proof.
  induction attempts as [| n IH]; intros k; simpl.
  - apply triple_ret. exact I.
  - eapply triple_bind; [apply fetchMessageBatch_served |].
    intros [error | [| m vb]] Hb.
    + apply triple_seq; [apply (sleep_keeps w _ HI) | intros _; apply IH].
    + apply triple_seq; [apply (sleep_keeps w _ HI) | intros _; apply IH].
    + apply triple_ret. split; [discriminate | exact Hb].
Qed.

Lemma settle_batch_served cursor n batch :
  Forall served batch ->
  triple any_run (settle_batch w channelId cursor n batch) (settled_ok served).
Proof.
  intros Hb. unfold settle_batch. destruct batch as [| m batch].
  - destruct (MAX_EMPTY_BATCHES <=? S n).
    + eapply triple_bind with (P := verified_ok served).
      * destruct (truthy cursor).
        -- apply verify_fetch_served.
        -- apply triple_ret. exact I.
      * intros [vb |] Hv; apply triple_ret; [exact Hv | exact I].
    + apply triple_seq; [apply (sleep_keeps w _ HI) |]. intros _. apply triple_ret. exact I.
  - apply triple_ret. split; [discriminate | exact Hb].
Qed.

(** The records an iteration hands on. *)
Definition ctl_messages (c : Ctl DState) : list Message :=
  match c with
  | Continue st | Break st => messages st
  | Return result => result
  end.

Lemma scan_batch_found lim batch : forall st,
  Forall served batch -> Forall found_ok (messages st) ->
  triple any_run (scan_batch channelId uid lim batch st)
    (fun c => Forall found_ok (ctl_messages c)).
Proof.
  induction batch as [| msg rest IH]; intros st Hb Hst; simpl.
  - apply triple_ret. exact Hst.
  - apply Forall_cons in Hb. destruct Hb as [Hm Hrest].
    apply triple_seq; [apply shouldStop_keeps |]. intros [|].
    + apply triple_seq; [apply (activeScans_delete_keeps w _ HI) |].
      intros _. apply triple_ret. exact Hst.
    + destruct (bool_decide (m_id msg ∈ seenMessageIds st)); [apply IH; assumption |].
      destruct (author_matches uid msg) eqn:Ea; [| apply IH; assumption].
      cbv zeta.
      assert (Hst' : Forall found_ok (messages st ++ [msg])).
      { apply Forall_app. split; [exact Hst |].
        apply Forall_cons. split; [split; assumption | apply Forall_nil_2]. }
      destruct (limit_reached lim _); [apply triple_ret; exact Hst' |].
      apply IH; assumption.
Qed.

Lemma after_scan_messages opts batch st :
  triple any_run (after_scan w channelId opts batch st)
    (fun c => ctl_messages c = messages st).
Proof.
  unfold after_scan.
  eapply triple_bind with (P := fun st1 => messages st1 = messages st).
  { unfold report_progress.
    destruct (onProgress opts && negb (length (messages st) =? lastReportedCount st)).
    - apply triple_seq; [intros r _; split; exact I |].
      intros _. apply triple_ret. reflexivity.
    - apply triple_ret. reflexivity. }
  intros st1 H1. unfold advance_cursor.
  destruct (last batch) as [oldest |].
  - destruct (truthy (lastMessageId st1) && id_is (lastMessageId st1) (m_id oldest));
      [apply triple_ret; exact H1 |].
    apply triple_seq;
      [apply (verify_short_keeps w _ HI any_message (any_response w)) |].
    intros [|]; [apply triple_ret; exact H1 |].
    match goal with |- context [if ?b then _ else _] => destruct b end;
      [apply triple_ret; exact H1 |].
    apply triple_seq; [apply (sleep_keeps w _ HI) |].
    intros _. apply triple_ret. exact H1.
  - apply triple_seq;
      [apply (verify_short_keeps w _ HI any_message (any_response w)) |].
    intros [|]; [apply triple_ret; exact H1 |].
    match goal with |- context [if ?b then _ else _] => destruct b end;
      [apply triple_ret; exact H1 |].
    apply triple_seq; [apply (sleep_keeps w _ HI) |].
    intros _. apply triple_ret. exact H1.
Qed.

Lemma discover_iteration_found opts st :
  userId opts = uid -> Forall found_ok (messages st) ->
  triple any_run (discover_iteration w channelId opts st)
    (fun c => Forall found_ok (ctl_messages c)).
Proof.
  intros Hu Hst. unfold discover_iteration.
  apply triple_seq; [apply shouldStop_keeps |]. intros [|].
  { apply triple_seq; [apply (activeScans_delete_keeps w _ HI) |].
    intros _. apply triple_ret. exact Hst. }
  destruct (limit_reached (limit opts) (length (messages st)));
    [apply triple_ret; exact Hst |].
  eapply triple_bind; [apply fetch_with_retry_served |].
  intros [batch |] Hb; cbv zeta.
  - eapply triple_bind; [apply settle_batch_served, Hb |].
    intros [n batch1 | n | n] Hs; try (apply triple_ret; exact Hst).
    destruct Hs as [_ Hb1]. unfold consume_batch. cbv zeta.
    eapply triple_bind; [rewrite Hu; apply scan_batch_found; [exact Hb1 | exact Hst] |].
    intros [st2 | st2 | result] H2.
    + eapply triple_weaken; [apply after_scan_messages |].
      intros c Hc. rewrite Hc. exact H2.
    + eapply triple_weaken; [apply after_scan_messages |].
      intros c Hc. rewrite Hc. exact H2.
    + apply triple_ret. exact H2.
  - match goal with |- context [if ?b then _ else _] => destruct b end;
      [apply triple_ret; exact Hst |].
    apply triple_seq; [apply (sleep_keeps w _ HI) |].
    intros _. apply triple_ret. exact Hst.
Qed.

Lemma discover_loop_found opts fuel : forall st,
  userId opts = uid -> Forall found_ok (messages st) ->
  triple any_run (discover_loop w fuel channelId opts st)
    (fun o => Forall found_ok (outcome_messages o)).
Proof.
  induction fuel as [| fuel IH]; intros st Hu Hst; simpl.
  - apply triple_ret. exact Hst.
  - eapply triple_bind; [apply discover_iteration_found; assumption |].
    intros [st' | st' | result] H'.
    + apply IH; assumption.
    + apply triple_seq; [apply (activeScans_delete_keeps w _ HI) |].
      intros _. apply triple_ret. exact H'.
    + apply triple_ret. exact H'.
Qed.

Lemma range_visit_found aid bid st msg :
  Forall found_ok (r_messages st) -> served msg ->
  match range_visit uid aid bid msg (r_see st (m_id msg)) with
  | inl st' | inr st' => Forall found_ok (r_messages st')
  end.
Proof.
  intros Hst Hm. unfold range_visit.
  repeat match goal with
         | |- context [if ?b then _ else _] => destruct b eqn:?; rstate_simpl
         end; try exact Hst.
  apply Forall_app. split; [exact Hst |].
  apply Forall_cons. split; [| apply Forall_nil_2].
  split; [exact Hm |].
  match goal with H : _ && author_matches uid msg = true |- _ =>
    apply andb_prop in H; destruct H as [_ H]; exact H end.
Qed.

Lemma range_scan_batch_found aid bid batch : forall st,
  Forall served batch -> Forall found_ok (r_messages st) ->
  triple any_run (range_scan_batch channelId uid aid bid batch st)
    (fun st' => Forall found_ok (r_messages st')).
Proof.
  induction batch as [| msg rest IH]; intros st Hb Hst; simpl.
  - apply triple_ret. exact Hst.
  - apply Forall_cons in Hb. destruct Hb as [Hm Hrest].
    apply triple_seq; [apply shouldStop_keeps |]. intros [|].
    + apply triple_ret. exact Hst.
    + destruct (bool_decide (m_id msg ∈ r_seenMessageIds st)); [apply IH; assumption |].
      pose proof (range_visit_found aid bid st msg Hst Hm) as Hv.
      destruct (range_visit uid aid bid msg (r_see st (m_id msg))) as [st' | st'].
      * apply triple_ret. exact Hv.
      * apply IH; assumption.
Qed.

Definition r_ctl_messages (c : Ctl RState) : list Message :=
  match c with
  | Continue st | Break st => r_messages st
  | Return result => result
  end.

Lemma range_iteration_found aid bid st :
  Forall found_ok (r_messages st) ->
  triple any_run (range_iteration w channelId uid aid bid st)
    (fun c => Forall found_ok (r_ctl_messages c)).
Proof.
  intros Hst. unfold range_iteration.
  apply triple_seq; [apply shouldStop_keeps |]. intros [|].
  { apply triple_seq; [apply (activeScans_delete_keeps w _ HI) |].
    intros _. apply triple_ret. exact Hst. }
  eapply triple_bind; [apply fetch_with_retry_served |].
  intros [batch |] Hb; [| apply triple_ret; exact Hst].
  eapply triple_bind; [apply settle_batch_served, Hb |].
  intros [n batch1 | n | n] Hs; try (apply triple_ret; exact Hst).
  destruct Hs as [_ Hb1].
  eapply triple_bind; [apply range_scan_batch_found; [exact Hb1 | exact Hst] |].
  intros st1 Hst1. unfold after_range_scan.
  repeat match goal with
         | |- triple _ (if ?b then mret _ else _) _ =>
             destruct b; [apply triple_ret; exact Hst1 |]
         end.
  apply triple_seq; [apply (verify_short_keeps w _ HI any_message (any_response w)) |].
  intros [|]; [apply triple_ret; exact Hst1 |].
  apply triple_seq; [apply (sleep_keeps w _ HI) |].
  intros _. apply triple_ret. exact Hst1.
Qed.

Lemma range_loop_found aid bid fuel : forall st,
  Forall found_ok (r_messages st) ->
  triple any_run (range_loop w fuel channelId uid aid bid st)
    (fun o => Forall found_ok (outcome_messages o)).
Proof.
  induction fuel as [| fuel IH]; intros st Hst; simpl.
  - apply triple_ret. exact Hst.
  - eapply triple_bind; [apply range_iteration_found, Hst |].
    intros [st' | st' | result] H'.
    + apply IH, H'.
    + apply triple_seq; [apply (activeScans_delete_keeps w _ HI) |].
      intros _. apply triple_ret. exact H'.
    + apply triple_ret. exact H'.
Qed.

Lemma discoverMessages_found opts fuel :
  userId opts = uid ->
  triple any_run (discoverMessages w fuel channelId opts)
    (fun o => Forall found_ok (outcome_messages o)).
Proof.
  intros Hu. unfold discoverMessages.
  apply triple_seq; [apply shouldStop_keeps |]. intros [|].
  - apply triple_seq; [apply (activeScans_delete_keeps w _ HI) |].
    intros _. apply triple_ret. apply Forall_nil_2.
  - destruct (truthy (afterId opts) || truthy (beforeId opts)).
    + unfold discoverRangeMessages. rewrite Hu.
      apply range_loop_found. apply Forall_nil_2.
    + apply discover_loop_found; [exact Hu | apply Forall_nil_2].
Qed.

End Provenance.

(** X13: in any world, with any options and whenever it stops, every
    record that discovery returns (or holds when the fuel runs out) was in
    an answer of the list endpoint for its channel and passes the author
    filter: discovery invents no record and returns no record of an author
    other than the one asked for. *)
Theorem X13_discovered_records_are_served_and_match
    (w : World) (fuel : nat) (channelId : string) (opts : DiscoverOptions) (r : Run) :
  Forall (fun m => served w channelId m /\ author_matches (userId opts) m = true)
    (outcome_messages (discoverMessages w fuel channelId opts r).1).
Proof.
  apply (discoverMessages_found w channelId (userId opts) opts fuel eq_refl r I).
Qed.

(** ** What a handled command may delete *)

Lemma emits_weaken {A} (E E' : Event -> Prop) (c : M A) :
  (forall e, E e -> E' e) -> emits E c -> emits E' c.
Proof.
  intros HE Hc r. destruct (Hc r) as (events & Ht & Hev).
  exists events. split; [exact Ht |]. eapply Forall_impl; [exact Hev | exact HE].
Qed.

Lemma emits_bind_val {A B} (E : Event -> Prop) (c : M A) (k : A -> M B)
    (Q : A -> Prop) :
  (forall r, Q (c r).1) -> emits E c -> (forall a, Q a -> emits E (k a)) ->
  emits E (c ≫= k).
Proof.
  intros HQ Hc Hk r. rewrite bind_run.
  destruct (Hc r) as (e1 & H1 & HE1).
  destruct (Hk (c r).1 (HQ r) (c r).2) as (e2 & H2 & HE2).
  exists (e1 ++ e2)%list. split.
  - rewrite H2, H1. symmetry. apply app_assoc.
  - apply Forall_app. split; assumption.
Qed.

(** A delete call that the user may make: in the channel of the command,
    for a record that the list endpoint served for that channel and that,
    unless the Manage Messages permission is held there, is the current
    user's own. *)
Definition permitted_event (w : World) (env : Env) (channelId : string) (e : Event)
  : Prop :=
  match e with
  | EvDel c x =>
      c = channelId
      /\ exists m, m_id m = x /\ served w channelId m
                   /\ (canManageMessages env channelId = false ->
                       m_author m = Some (currentUserId env))
  | _ => True
  end.

Section Permitted.

Variable w : World.
Variable env : Env.
Variable channelId : string.

Lemma isOwnMessage_author m :
  isOwnMessage env m = true -> m_author m = Some (currentUserId env).
Proof.
  unfold isOwnMessage. destruct (m_author m) as [a |]; [| discriminate].
  intros H. apply String.eqb_eq in H. rewrite H. reflexivity.
Qed.

Lemma emits_purge_loop purge canDeleteOthers excludeIds total rest :
  (canDeleteOthers = true -> canManageMessages env channelId = true) ->
  Forall (served w channelId) rest ->
  forall i deleted failed,
  emits (permitted_event w env channelId)
    (purge_loop w env channelId purge canDeleteOthers excludeIds total rest
       i deleted failed).
Proof.
  intros Hcdo. induction rest as [| msg rest IH]; intros Hrest i deleted failed.
  - apply emits_ret.
  - apply Forall_cons in Hrest. destruct Hrest as [Hm Hrest].
    cbn [purge_loop]. apply emits_bind; [apply emits_silent; reflexivity |].
    intros s. destruct (purge_stopped purge s); [apply emits_ret |].
    destruct (excluded excludeIds (m_id msg)); [apply IH, Hrest |].
    cbv zeta. fold (isOwnMessage env msg).
    destruct (negb (isOwnMessage env msg) && negb canDeleteOthers) eqn:Eskip;
      [apply IH, Hrest |].
    apply emits_bind.
    { unfold RestAPI_del. apply emits_bind; [apply emits_silent; reflexivity |].
      intros t. apply emits_bind.
      - apply emits_emit. split; [reflexivity |].
        exists msg. split; [reflexivity |]. split; [exact Hm |].
        intros Hno. apply isOwnMessage_author.
        destruct (isOwnMessage env msg); [reflexivity |].
        destruct canDeleteOthers; [| discriminate Eskip].
        rewrite (Hcdo eq_refl) in Hno. discriminate Hno.
      - intros _. apply emits_bind; [apply emits_silent; reflexivity |].
        intros _. apply emits_ret. }
    intros [|].
    + apply emits_bind; [apply emits_silent; reflexivity |]. intros _.
      apply emits_bind.
      { destruct (i <? total - 1); [apply emits_sleep; exact I | apply emits_ret]. }
      intros _. apply IH, Hrest.
    + apply emits_bind; [apply emits_silent; reflexivity |]. intros _.
      apply IH, Hrest.
Qed.

Lemma emits_executePurge records canDeleteOthers excludeIds :
  (canDeleteOthers = true -> canManageMessages env channelId = true) ->
  Forall (served w channelId) records ->
  emits (permitted_event w env channelId)
    (executePurge w env channelId records canDeleteOthers excludeIds).
Proof.
  intros Hcdo Hrec. unfold executePurge.
  apply emits_bind; [apply emits_silent; reflexivity |]. intros s.
  destruct (activePurges s !! channelId); [| apply emits_ret].
  apply emits_purge_loop; assumption.
Qed.

Lemma emits_discovery_permitted fuel opts :
  emits (permitted_event w env channelId) (discoverMessages w fuel channelId opts).
Proof.
  eapply emits_weaken; [| apply emits_discoverMessages].
  intros [c q | c x | ms | n | c reply]; simpl; tauto.
Qed.

Lemma discovered_served fuel opts r :
  Forall (served w channelId)
    (outcome_messages (discoverMessages w fuel channelId opts r).1).
Proof.
  eapply Forall_impl;
    [apply (discoverMessages_found w channelId (userId opts) opts fuel eq_refl r I) |].
  intros m [Hm _]. exact Hm.
Qed.

Lemma emits_end_purge reply :
  emits (permitted_event w env channelId)
    (modifyStore (end_purge channelId);;
     sendBotMessage channelId reply;; mret TaskDone).
Proof.
  apply emits_bind; [apply emits_silent; reflexivity |]. intros _.
  apply emits_bind; [apply emits_emit; exact I | intros _; apply emits_ret].
Qed.

Lemma emits_run_task fuel task :
  match task with
  | TaskRunPurge _ canDeleteOthers _ _ =>
      canDeleteOthers = true -> canManageMessages env channelId = true
  | _ => True
  end ->
  emits (permitted_event w env channelId) (run_task w env fuel channelId task).
Proof.
  destruct task as [confirmation | opts cdo ex rt | uid mode ex]; intros Hcdo;
    cbn [run_task].
  - unfold confirmed_purge.
    eapply emits_bind_val with (Q := fun o => Forall (served w channelId)
                                            (outcome_messages o));
      [intros r; apply discovered_served | apply emits_discovery_permitted |].
    intros [records | sofar] Hrec; [| apply emits_ret].
    assert (Hgiven : Forall (served w channelId)
                       (filter_excluded (pc_excludeIds confirmation) records)).
    { unfold filter_excluded. destruct (pc_excludeIds confirmation) as [ids |];
        [| exact Hrec].
      destruct (size ids =? 0); [exact Hrec |].
      apply Forall_forall. intros m Hm. rewrite Forall_forall in Hrec. apply Hrec.
      apply list_elem_of_In. apply list_elem_of_In in Hm.
      apply List.filter_In in Hm. tauto. }
    destruct (filter_excluded (pc_excludeIds confirmation) records) as [| m given];
      [apply emits_end_purge |].
    apply emits_bind; [apply emits_executePurge; [trivial | exact Hgiven] |].
    intros result. apply emits_end_purge.
  - unfold purge_task.
    eapply emits_bind_val with (Q := fun o => Forall (served w channelId)
                                            (outcome_messages o));
      [intros r; apply discovered_served | apply emits_discovery_permitted |].
    intros [[| m records] | sofar] Hrec; [apply emits_end_purge | | apply emits_ret].
    apply emits_bind; [apply emits_executePurge; [exact Hcdo | exact Hrec] |].
    intros result. apply emits_end_purge.
  - unfold scan_all.
    apply emits_bind;
      [apply emits_scan_discovery;
         [intros e He; destruct e; try exact I; destruct He | intros n; exact I] |].
    intros [records | sofar]; [| apply emits_ret].
    destruct (List.filter _ records).
    + apply emits_bind; [apply emits_emit; exact I | intros _; apply emits_ret].
    + apply emits_bind; [apply emits_silent; reflexivity |]. intros _.
      apply emits_bind; [apply emits_emit; exact I | intros _; apply emits_ret].
Qed.

End Permitted.

(** The command handler itself only replies. *)
Definition reply_event (channelId : string) (e : Event) : Prop :=
  match e with
  | EvSend c _ => c = channelId
  | _ => False
  end.

Ltac emits_step :=
  first
    [ apply emits_ret
    | apply emits_emit; reflexivity
    | apply emits_silent; reflexivity
    | apply emits_bind; [| intros ?]
    | match goal with
      | |- emits _ (if ?b then _ else _) => destruct b
      | |- emits _ (match ?x with _ => _ end) => destruct x
      end ].

Lemma emits_count_or_range channelId filterId canDeleteOthers mode
    countStr aid bid excludeStr :
  emits (reply_event channelId)
    (count_or_range channelId filterId canDeleteOthers mode countStr aid bid excludeStr).
Proof. unfold count_or_range. cbv zeta. repeat emits_step. Qed.

Lemma emits_execute env subcommand channelId :
  emits (reply_event channelId) (execute env subcommand channelId).
Proof.
  unfold execute. destruct subcommand; cbv zeta;
    repeat first [apply emits_count_or_range | emits_step].
Qed.

(** X14: whatever command is handled, in any world and for any length of
    time: every delete call made is for the channel of the command and
    targets a record that the list endpoint served for that channel; and
    when the Manage Messages permission is not held there (always so in a
    DM), every such record is the current user's own. *)
Theorem X14_handled_command_deletes_only_permitted
    (w : World) (env : Env) (fuel : nat) (subcommand : Subcommand)
    (channelId : string) (r : Run) :
  exists events,
    trace (handle w env fuel subcommand channelId r).2 = (trace r ++ events)%list
    /\ Forall (permitted_event w env channelId) events.
Proof.
  revert r. change (emits (permitted_event w env channelId)
                      (handle w env fuel subcommand channelId)).
  unfold handle.
  eapply emits_bind_val
    with (Q := fun task =>
                 match task with
                 | Some (TaskRunPurge _ canDeleteOthers _ _) =>
                     canDeleteOthers = true -> canManageMessages env channelId = true
                 | _ => True
                 end).
  - intros r. destruct (execute env subcommand channelId r).1
      as [[c | opts cdo ex rt | uid mode ex] |] eqn:E; try exact I.
    intros Hcdo.
    destruct (issued_purge_well_formed env subcommand channelId r opts cdo ex rt E)
      as (_ & H & _).
    apply H, Hcdo.
  - eapply emits_weaken; [| apply emits_execute].
    intros [c q | c x | ms | n | c reply]; simpl; tauto.
  - intros [task |] Htask; [| apply emits_ret].
    apply emits_run_task. destruct task; try exact I. exact Htask.
Qed.

(** ** What the command handler does before any task runs *)

(** The replies that refuse a command. *)
Definition refusal (reply : Reply) : bool :=
  match reply with
  | NoPendingConfirmation | AlreadyInProgress | CountWithRange | NeedCountOrRange
  | InvalidCount | GuildOnly | NeedManageMessages | InvalidUser
  | AnyNeedsPermission | InvalidMessageId => true
  | _ => false
  end.

(** The run after [execute], by what it returns. *)
Definition synchronous_effect (subcommand : Subcommand) (channelId : string)
    (r : Run) (run : option Task * Run) : Prop :=
  match run.1 with
  | None =>
      (subcommand = CmdOther /\ run.2 = r)
      \/ exists reply,
           refusal reply = true
           /\ trace run.2 = (trace r ++ [EvSend channelId reply])%list
           /\ clock run.2 = clock r
           /\ (store run.2 = store r
               \/ (subcommand = CmdConfirm /\ reply = AlreadyInProgress
                   /\ store run.2 = delete_pending channelId (store r)))
  | Some (TaskRunPurge _ _ _ _) =>
      run.2 = {| clock := clock r; store := start_purge channelId (store r);
                 trace := trace r |}
  | Some (TaskScan _ _ _) =>
      run.2 = {| clock := clock r; store := start_scan channelId (store r);
                 trace := (trace r ++ [EvSend channelId ScanningStarted])%list |}
  | Some (TaskConfirmed confirmation) =>
      pendingConfirmations (store r) !! channelId = Some confirmation
      /\ run.2 = {| clock := clock r;
                    store := start_purge channelId (delete_pending channelId (store r));
                    trace := (trace r ++ [EvSend channelId
                                            (StartingPurge (pc_count confirmation))])%list |}
  end.

Lemma refused channelId reply subcommand r :
  refusal reply = true ->
  synchronous_effect subcommand channelId r
    ((sendBotMessage channelId reply;; mret None) r).
Proof.
  intros Hr. right. exists reply. repeat split; [exact Hr |]. left. reflexivity.
Qed.

Lemma count_or_range_effect subcommand channelId filterId canDeleteOthers mode
    countStr aid bid excludeStr r :
  synchronous_effect subcommand channelId r
    (count_or_range channelId filterId canDeleteOthers mode countStr aid bid excludeStr r).
Proof.
  unfold count_or_range. cbv zeta.
  repeat match goal with
         | |- context [if ?b then _ else _] => destruct b
         | |- context [match parseInt ?s with _ => _ end] => destruct (parseInt s)
         end;
    first [apply refused; reflexivity | reflexivity].
Qed.

Lemma execute_effect
    (env : Env) (subcommand : Subcommand) (channelId : string) (r : Run) :
  synchronous_effect subcommand channelId r (execute env subcommand channelId r).
Proof.
  unfold execute.
  destruct subcommand as [c a b e | t c a b e | m b e | m a e | c a b e | |];
    rewrite bind_run; cbn [getStore fst snd].
  - destruct (has_purge channelId (store r)); [apply refused; reflexivity |].
    apply count_or_range_effect.
  - destruct (has_purge channelId (store r)); [apply refused; reflexivity |].
    destruct (isDM env channelId); [apply refused; reflexivity |].
    destruct (negb (canManageMessages env channelId)); [apply refused; reflexivity |].
    destruct t as [[s | [s |]] |]; try (apply refused; reflexivity).
    + apply count_or_range_effect.
    + destruct (truthy (Some s)); [| apply refused; reflexivity].
      apply count_or_range_effect.
  - destruct (has_purge channelId (store r)); [apply refused; reflexivity |].
    cbv zeta. destruct (negb (truthy m)); [apply refused; reflexivity |].
    reflexivity.
  - destruct (has_purge channelId (store r)); [apply refused; reflexivity |].
    cbv zeta. destruct (negb (truthy m)); [apply refused; reflexivity |].
    reflexivity.
  - destruct (has_purge channelId (store r)); [apply refused; reflexivity |].
    cbv zeta.
    destruct (negb (negb (isDM env channelId) && canManageMessages env channelId));
      [apply refused; reflexivity |].
    apply count_or_range_effect.
  - destruct (pendingConfirmations (store r) !! channelId) as [confirmation |] eqn:E;
      [| apply refused; reflexivity].
    rewrite !bind_run. cbn -[has_purge].
    destruct (has_purge channelId _).
    + right. exists AlreadyInProgress. repeat split. right. repeat split.
    + split; [exact E | reflexivity].
  - destruct (has_purge channelId (store r)); [apply refused; reflexivity |].
    left. split; reflexivity.
Qed.

(** A task is issued only when no purge is in progress in the channel. *)
Lemma execute_gate env subcommand channelId r task :
  (execute env subcommand channelId r).1 = Some task ->
  has_purge channelId (store r) = false.
Proof.
  unfold execute.
  destruct subcommand as [c a b e | t c a b e | m b e | m a e | c a b e | |];
    rewrite bind_run; cbn [getStore fst snd];
    try (destruct (has_purge channelId (store r));
         [intros Hnone; discriminate Hnone | reflexivity]).
  destruct (pendingConfirmations (store r) !! channelId);
    [| intros Hnone; discriminate Hnone].
  rewrite !bind_run. cbn -[has_purge].
  change (has_purge channelId (delete_pending channelId (store r)))
    with (has_purge channelId (store r)).
  destruct (has_purge channelId (store r));
    [intros Hnone; discriminate Hnone | reflexivity].
Qed.

Lemma has_purge_start_purge channelId s :
  has_purge channelId (start_purge channelId s) = true.
Proof.
  unfold has_purge, start_purge. cbn. rewrite lookup_insert_eq.
  apply bool_decide_eq_true. eexists. reflexivity.
Qed.

(** X15: the command handler, up to the call of the discovery, never
    suspends and has one of four effects.  A refused command gets exactly
    one refusal reply and changes no state, except that a confirm refused
    because a purge is in progress has consumed the pending confirmation
    (an unknown subcommand gets no reply at all); a direct purge is issued
    without any reply, with a fresh [PurgeState] registered for the
    channel and nothing else changed; a scan is issued with the scanning
    reply and a fresh scan state; a confirmed purge is issued for the
    pending confirmation, which is consumed, with a fresh [PurgeState] and
    the announcement of the confirmation's count.  A task is issued only
    when no purge is in progress in the channel, and once a purge, direct
    or confirmed, is issued, one is in progress. *)
Theorem X15_handler_synchronous_effect
    (env : Env) (subcommand : Subcommand) (channelId : string) (r : Run) :
  synchronous_effect subcommand channelId r (execute env subcommand channelId r)
  /\ (forall task,
        (execute env subcommand channelId r).1 = Some task ->
        has_purge channelId (store r) = false
        /\ match task with
           | TaskScan _ _ _ => True
           | _ => has_purge channelId (store (execute env subcommand channelId r).2)
                  = true
           end).
Proof.
  split; [apply execute_effect |].
  intros task Htask. split; [apply (execute_gate env subcommand channelId r task Htask) |].
  pose proof (execute_effect env subcommand channelId r) as He.
  unfold synchronous_effect in He. rewrite Htask in He.
  destruct task as [confirmation | opts cdo ex rt | uid mode ex]; [| | exact I].
  - destruct He as [_ ->]. apply has_purge_start_purge.
  - rewrite He. apply has_purge_start_purge.
Qed.

(** ** Discovery over a transport that always fails *)

(** [within c Q n]: [c] returns a value satisfying [Q] after at most [n]
    calls of the list endpoint. *)
Definition within {A} (c : M A) (Q : A -> Prop) (n : nat) : Prop :=
  forall r, Q (c r).1 /\ count_gets (trace (c r).2) <= count_gets (trace r) + n.

Lemma within_ret {A} (a : A) (Q : A -> Prop) : Q a -> within (mret a) Q 0.
Proof. intros Ha r. split; [exact Ha | simpl; lia]. Qed.

Lemma within_bind {A B} (c : M A) (k : A -> M B) (P : A -> Prop) (Q : B -> Prop) n m :
  within c P n -> (forall a, P a -> within (k a) Q m) -> within (c ≫= k) Q (n + m).
Proof.
  intros Hc Hk r. rewrite bind_run. destruct (Hc r) as [Ha Hn].
  destruct (Hk _ Ha (c r).2) as [Hb Hm]. split; [exact Hb | lia].
Qed.

Lemma within_weaken {A} (c : M A) (P Q : A -> Prop) n m :
  within c P n -> (forall a, P a -> Q a) -> n <= m -> within c Q m.
Proof.
  intros Hc HPQ Hnm r. destruct (Hc r) as [Ha Hn]. split; [apply HPQ, Ha | lia].
Qed.

Lemma within_silent {A} (c : M A) (Q : A -> Prop) :
  (forall r, Q (c r).1 /\ trace (c r).2 = trace r) -> within c Q 0.
Proof. intros H r. destruct (H r) as [Ha Ht]. split; [exact Ha | rewrite Ht; lia]. Qed.

Lemma within_sleep w ms : within (sleep w ms) (fun _ => True) 0.
Proof. intros r. split; [exact I | apply gets_sleep]. Qed.

Section FailingTransport.

Variable w : World.
Variable channelId : string.

(** The list endpoint rejects every request for the channel. *)
Hypothesis Hfail : forall t q, exists error, restGet w t channelId q = Rejected error.

Lemma fetchMessageBatch_fails before after :
  within (fetchMessageBatch w channelId before after)
    (fun v => exists error, v = inl error) 1.
Proof.
  intros r. split; [| apply gets_fetchMessageBatch].
  unfold fetchMessageBatch, RestAPI_get, mbind, M_bind, now, mret, M_ret.
  cbn [emit suspend fst snd clock store trace].
  destruct (Hfail (clock r) {| q_limit := "100"%string;
                               q_before := if truthy before then before else None;
                               q_after := if truthy after then after else None |})
    as [error ->].
  exists error. reflexivity.
Qed.

Lemma fetch_with_retry_fails before attempts : forall retry,
  within (fetch_with_retry w channelId before attempts retry) (fun v => v = None) attempts.
Proof.
  induction attempts as [| n IH]; intros retry; cbn [fetch_with_retry].
  - apply within_ret. reflexivity.
  - change (S n) with (1 + n).
    eapply within_bind; [apply fetchMessageBatch_fails |].
    intros v [error ->].
    change n with (0 + n). eapply within_bind; [apply within_sleep |].
    intros _ _. apply IH.
Qed.

(** An iteration of the pagination engine only counts one more error. *)
Definition gave_up (st : DState) (c : Ctl DState) : Prop :=
  match c with
  | Break st' => messages st' = messages st
  | Continue st' =>
      messages st' = messages st
      /\ consecutiveErrors st' = S (consecutiveErrors st)
      /\ S (consecutiveErrors st) < MAX_CONSECUTIVE_ERRORS
  | Return _ => False
  end.

Lemma discover_iteration_fails opts st :
  within (discover_iteration w channelId opts st) (gave_up st) 5.
Proof.
  unfold discover_iteration. change 5 with (0 + 5).
  eapply within_bind with (P := fun _ => True);
    [apply within_silent; intros r; split; [exact I | reflexivity] |].
  intros [|] _.
  { apply (within_weaken _ (gave_up st) (gave_up st) 0 5); [| auto | lia].
    apply within_silent. intros r. split; reflexivity. }
  destruct (limit_reached (limit opts) (length (messages st))).
  { apply (within_weaken _ (gave_up st) (gave_up st) 0 5); [| auto | lia].
    apply within_ret. reflexivity. }
  change 5 with (5 + 0). eapply within_bind; [apply fetch_with_retry_fails |].
  intros v ->. cbv zeta. cbn [consecutiveErrors set_consecutiveErrors].
  destruct (Nat.leb_spec MAX_CONSECUTIVE_ERRORS (S (consecutiveErrors st))) as [Hge | Hlt].
  - apply within_ret. reflexivity.
  - change 0 with (0 + 0). eapply within_bind; [apply within_sleep |].
    intros _ _. apply within_ret. repeat split. exact Hlt.
Qed.

Lemma discover_loop_fails opts fuel : forall st,
  consecutiveErrors st < MAX_CONSECUTIVE_ERRORS ->
  MAX_CONSECUTIVE_ERRORS <= fuel + consecutiveErrors st ->
  within (discover_loop w fuel channelId opts st)
    (fun o => o = Finished (messages st))
    (5 * (MAX_CONSECUTIVE_ERRORS - consecutiveErrors st)).
Proof.
  unfold MAX_CONSECUTIVE_ERRORS.
  induction fuel as [| fuel IH]; intros st H1 H3; [lia |].
  cbn [discover_loop]. intros r. rewrite bind_run.
  destruct (discover_iteration_fails opts st r) as [Hc Hn].
  destruct (discover_iteration w channelId opts st r).1 as [st' | st' | result].
  - destruct Hc as (Hm & He & Hlt). unfold MAX_CONSECUTIVE_ERRORS in Hlt.
    destruct (IH st' ltac:(lia) ltac:(lia)
                (discover_iteration w channelId opts st r).2) as [Ho Hn'].
    split; [rewrite Ho, Hm; reflexivity |]. rewrite He in Hn'. lia.
  - split; [simpl; rewrite Hc; reflexivity |]. simpl. lia.
  - destruct Hc.
Qed.

Lemma range_iteration_fails uid aid bid st :
  within (range_iteration w channelId uid aid bid st) (fun c => c = Break st) 5.
Proof.
  unfold range_iteration.
  apply (within_bind _ _ (fun _ => True) _ 0 5);
    [apply within_silent; intros r; split; [exact I | reflexivity] |].
  intros [|] _.
  { apply (within_weaken _ (fun c => c = Break st) (fun c => c = Break st) 0 5);
      [| auto | lia].
    apply within_silent. intros r. split; reflexivity. }
  apply (within_bind _ _ (fun v => v = None) _ 5 0); [apply fetch_with_retry_fails |].
  intros v ->. apply within_ret. reflexivity.
Qed.

Lemma range_loop_fails uid aid bid fuel st :
  1 <= fuel ->
  within (range_loop w fuel channelId uid aid bid st)
    (fun o => o = Finished (r_messages st)) 5.
Proof.
  destruct fuel as [| fuel]; [lia |]. intros _. cbn [range_loop].
  apply (within_bind _ _ (fun c => c = Break st) _ 5 0);
    [apply range_iteration_fails |].
  intros c ->. apply within_silent. intros r. split; reflexivity.
Qed.

Lemma discoverMessages_fails opts fuel :
  MAX_CONSECUTIVE_ERRORS <= fuel ->
  within (discoverMessages w fuel channelId opts) (fun o => o = Finished []) 15.
Proof.
  intros Hfuel. unfold discoverMessages.
  apply (within_bind _ _ (fun _ => True) _ 0 15);
    [apply within_silent; intros r; split; [exact I | reflexivity] |].
  intros [|] _.
  { apply (within_weaken _ (fun o => o = Finished []) (fun o => o = Finished []) 0 15);
      [| auto | lia].
    apply within_silent. intros r. split; reflexivity. }
  destruct (truthy (afterId opts) || truthy (beforeId opts)).
  - unfold discoverRangeMessages.
    eapply within_weaken; [apply range_loop_fails | auto | lia].
    unfold MAX_CONSECUTIVE_ERRORS in Hfuel. lia.
  - eapply within_weaken;
      [apply (discover_loop_fails opts fuel initial_DState) | auto | ].
    + unfold MAX_CONSECUTIVE_ERRORS. simpl. lia.
    + simpl. lia.
    + simpl. lia.
Qed.

End FailingTransport.

(** X16: when the list endpoint rejects every request for the channel,
    discovery gives up by itself, whatever the options and the stop flags:
    with fuel for 3 iterations it returns the empty list after at most 15
    requests (3 rounds of 5 attempts); called with a boundary, and so for
    the range extractor, after at most 5 requests (one round). *)
Theorem X16_discovery_gives_up_on_failing_transport
    (w : World) (channelId : string) (opts : DiscoverOptions) (fuel : nat) (r : Run)
    (Hfail : forall t q, exists error, restGet w t channelId q = Rejected error)
    (Hfuel : 3 <= fuel) :
  let run := discoverMessages w fuel channelId opts r in
  run.1 = Finished []
  /\ count_gets (trace run.2) <= count_gets (trace r) + 15
  /\ (truthy (afterId opts) || truthy (beforeId opts) = true ->
      count_gets (trace run.2) <= count_gets (trace r) + 5).
Proof.
  intros run. destruct (discoverMessages_fails w channelId Hfail opts fuel Hfuel r)
    as [Hv Hn].
  split; [exact Hv |]. split; [exact Hn |].
  intros Hrange. unfold run, discoverMessages. rewrite bind_run.
  cbn [shouldStop]. unfold shouldStop at 1 2. rewrite !bind_run. cbn [getStore fst snd mret M_ret].
  destruct (should_stop channelId (store r)); [simpl; lia |].
  rewrite Hrange. unfold discoverRangeMessages.
  apply (range_loop_fails w channelId Hfail). lia.
Qed.

Definition dead_world : World :=
  {| restGet := fun _ _ _ => Rejected ThrownOther;
     restDel := fun _ _ _ => false;
     interfere := fun _ s => s;
     dateNow := fun _ => 1700000000000%Z |}.

Lemma X16_discovery_gives_up_on_failing_transport_witness :
  let run := discoverMessages dead_world 3 "c"%string
               {| userId := None; afterId := None; beforeId := None;
                  limit := Some 10%Z; onProgress := false |} idle_run in
  run.1 = Finished [] /\ count_gets (trace run.2) <= count_gets (trace idle_run) + 15.
Proof.
  pose proof (X16_discovery_gives_up_on_failing_transport dead_world "c"%string
                {| userId := None; afterId := None; beforeId := None;
                   limit := Some 10%Z; onProgress := false |} 3 idle_run
                (fun t q => ex_intro _ ThrownOther eq_refl) ltac:(lia)) as H.
  cbv zeta in H. destruct H as (Hv & Hn & _). split; assumption.
Defined.

(** ** The exclusion list *)

Lemma drop_ahead_suffix p1 p2 p3 : forall n l,
  length l <= n -> exists pre, l = (pre ++ drop_ahead p1 p2 p3 l)%list.
Proof.
  induction n as [| n IH]; intros l Hn.
  - destruct l; [exists []; reflexivity | simpl in Hn; lia].
  - destruct l as [| c1 l1]; [exists []; reflexivity |]. simpl in Hn.
    cbn [drop_ahead]. destruct (p1 c1).
    { destruct (IH l1 ltac:(lia)) as [pre E]. exists (c1 :: pre).
      simpl. f_equal. exact E. }
    destruct l1 as [| c2 l2]; [exists []; reflexivity |]. simpl in Hn.
    destruct (p2 c1 c2).
    { destruct (IH l2 ltac:(lia)) as [pre E]. exists (c1 :: c2 :: pre).
      simpl. do 2 f_equal. exact E. }
    destruct l2 as [| c3 l3]; [exists []; reflexivity |]. simpl in Hn.
    destruct (p3 c1 c2 c3); [| exists []; reflexivity].
    destruct (IH l3 ltac:(lia)) as [pre E]. exists (c1 :: c2 :: c3 :: pre).
    simpl. do 3 f_equal. exact E.
Qed.

Lemma drop_ahead_Forall p1 p2 p3 (P : ascii -> Prop) l :
  Forall P l -> Forall P (drop_ahead p1 p2 p3 l).
Proof.
  intros H. destruct (drop_ahead_suffix p1 p2 p3 (length l) l (le_n _)) as [pre E].
  rewrite E in H. apply Forall_app in H. tauto.
Qed.

Lemma trim_Forall (P : ascii -> Prop) l : Forall P l -> Forall P (trim l).
Proof.
  intros H. unfold trim, drop_spaces_back, drop_spaces.
  apply Forall_rev, drop_ahead_Forall, Forall_rev, drop_ahead_Forall, H.
Qed.

Lemma split_chars_pieces sep l : forall cur,
  Forall (fun c => sep c = false) cur ->
  Forall (Forall (fun c => sep c = false)) (split_chars sep cur l).
Proof.
  induction l as [| c l IH]; intros cur Hcur; simpl.
  - apply Forall_cons. split; [apply Forall_rev, Hcur | apply Forall_nil_2].
  - destruct (sep c) eqn:E.
    + apply Forall_cons. split; [apply Forall_rev, Hcur |].
      apply IH. apply Forall_nil_2.
    + apply IH. apply Forall_cons. split; assumption.
Qed.

(** X17: [parseExcludeIds] of a missing or empty option is the empty set;
    and whatever the text, every id it yields is non-empty and contains
    neither a comma nor a space. *)
Theorem X17_excluded_ids_are_clean (excludeStr : option string) :
  (truthy excludeStr = false -> parseExcludeIds excludeStr = ∅)
  /\ (forall x, x ∈ parseExcludeIds excludeStr ->
        x <> ""%string
        /\ Forall (fun c => is_separator c = false) (list_ascii_of_string x)).
Proof.
  unfold parseExcludeIds. split.
  - intros ->. reflexivity.
  - intros x. destruct (truthy excludeStr); [| intros Hx; exfalso; revert Hx; apply not_elem_of_empty].
    intros Hx. apply elem_of_list_to_set in Hx.
    apply list_elem_of_In, List.in_map_iff in Hx. destruct Hx as (piece & <- & Hp).
    apply List.filter_In in Hp. destruct Hp as [Hp Hne].
    apply List.in_map_iff in Hp. destruct Hp as (raw & <- & Hraw).
    assert (Hclean : Forall (fun c => is_separator c = false) (trim raw)).
    { apply trim_Forall.
      pose proof (split_chars_pieces is_separator
                    (list_ascii_of_string (default ""%string excludeStr)) []
                    (Forall_nil_2 _)) as Hall.
      rewrite Forall_forall in Hall. apply Hall, list_elem_of_In, Hraw. }
    split.
    + destruct (trim raw); [discriminate Hne | discriminate].
    + rewrite list_ascii_of_string_of_list_ascii. exact Hclean.
Qed.

(** The pieces [parseExcludeIds] keeps of a text. *)
Definition kept_pieces (l : list ascii) : list (list ascii) :=
  List.filter (fun piece => negb (length piece =? 0))
    (List.map trim (split_chars is_separator [] l)).

(** A non-empty id without comma or space that neither begins nor ends
    with a white-space character. *)
Definition plain_chars (p : list ascii) : Prop :=
  p <> [] /\ Forall (fun c => is_separator c = false) p
  /\ leading_space p = 0 /\ trailing_space p = 0.

Definition plain_id (s : string) : Prop := plain_chars (list_ascii_of_string s).

Lemma split_chars_piece p : forall cur rest,
  Forall (fun c => is_separator c = false) p ->
  split_chars is_separator cur (p ++ rest)
  = split_chars is_separator (rev p ++ cur) rest.
Proof.
  induction p as [| c p IH]; intros cur rest Hp; [reflexivity |].
  apply Forall_cons in Hp. destruct Hp as [Hc Hp]. simpl. rewrite Hc, IH by exact Hp.
  rewrite <- app_assoc. reflexivity.
Qed.

Lemma drop_ahead_none p1 p2 p3 l :
  space_ahead p1 p2 p3 l = 0 -> drop_ahead p1 p2 p3 l = l.
Proof.
  destruct l as [| c1 [| c2 [| c3 l]]]; cbn [space_ahead drop_ahead];
    try reflexivity;
    destruct (p1 c1); try discriminate; try reflexivity;
    destruct (p2 c1 c2); try discriminate; try reflexivity;
    destruct (p3 c1 c2 c3); try discriminate; reflexivity.
Qed.

Lemma trim_plain p : plain_chars p -> trim p = p.
Proof.
  intros (_ & _ & Hlead & Htrail).
  unfold trim, drop_spaces_back, drop_spaces.
  rewrite (drop_ahead_none _ _ _ p Hlead).
  rewrite (drop_ahead_none _ _ _ (rev p) Htrail). apply rev_involutive.
Qed.

Lemma kept_pieces_separators s rest :
  Forall (fun c => is_separator c = true) s ->
  kept_pieces (s ++ rest) = kept_pieces rest.
Proof.
  induction s as [| c s IH]; intros Hs; [reflexivity |].
  apply Forall_cons in Hs. destruct Hs as [Hc Hs].
  unfold kept_pieces. simpl. rewrite Hc. simpl. apply IH, Hs.
Qed.

Lemma kept_pieces_last p : plain_chars p -> kept_pieces p = [p].
Proof.
  intros Hp. unfold kept_pieces.
  rewrite <- (app_nil_r p) at 1. rewrite split_chars_piece.
  - simpl. rewrite app_nil_r, rev_involutive, (trim_plain p Hp).
    destruct p as [| c p]; [destruct Hp as [Hne _]; contradiction | reflexivity].
  - apply Hp.
Qed.

Lemma kept_pieces_cons p s rest :
  plain_chars p -> s <> [] -> Forall (fun c => is_separator c = true) s ->
  kept_pieces (p ++ s ++ rest) = p :: kept_pieces rest.
Proof.
  intros Hp Hne Hs. destruct s as [| c s]; [contradiction |].
  apply Forall_cons in Hs. destruct Hs as [Hc Hs].
  unfold kept_pieces. rewrite split_chars_piece.
  - simpl. rewrite Hc, app_nil_r, rev_involutive. simpl. rewrite (trim_plain p Hp).
    destruct p as [| c' p]; [destruct Hp as [Hp _]; contradiction |]. simpl.
    f_equal. apply (kept_pieces_separators s rest Hs).
  - apply Hp.
Qed.

Lemma list_ascii_of_string_app s1 s2 :
  list_ascii_of_string (s1 ++ s2)%string
  = (list_ascii_of_string s1 ++ list_ascii_of_string s2)%list.
Proof. induction s1 as [| c s1 IH]; simpl; [reflexivity | rewrite IH; reflexivity]. Qed.

Lemma kept_pieces_concat sep ids :
  sep <> ""%string ->
  Forall (fun c => is_separator c = true) (list_ascii_of_string sep) ->
  Forall plain_id ids ->
  kept_pieces (list_ascii_of_string (String.concat sep ids))
  = List.map list_ascii_of_string ids.
Proof.
  intros Hne Hsep. induction ids as [| x ids IH]; intros Hids; [reflexivity |].
  apply Forall_cons in Hids. destruct Hids as [Hx Hids].
  destruct ids as [| y ids].
  - simpl. apply kept_pieces_last, Hx.
  - change (String.concat sep (x :: y :: ids))
      with (x ++ sep ++ String.concat sep (y :: ids))%string.
    rewrite !list_ascii_of_string_app, kept_pieces_cons; [| exact Hx | | exact Hsep].
    + rewrite IH by exact Hids. reflexivity.
    + destruct sep; [contradiction | discriminate].
Qed.

(** X18: a text made of non-empty ids without comma or space that neither
    begin nor end with a white-space character (of any of the kinds that
    [trim] removes: the ASCII ones, U+00A0, U+FEFF and the other Unicode
    spaces and line terminators), joined by any non-empty run of commas
    and spaces, is parsed into exactly the set of these ids. *)
Theorem X18_exclusion_list_round_trip (sep : string) (ids : list string)
    (Hsep : sep <> ""%string)
    (Hseparators : Forall (fun c => is_separator c = true) (list_ascii_of_string sep))
    (Hids : Forall plain_id ids) :
  parseExcludeIds (Some (String.concat sep ids)) = list_to_set ids.
Proof.
  change (parseExcludeIds (Some (String.concat sep ids)))
    with (if truthy (Some (String.concat sep ids))
          then list_to_set
                 (List.map string_of_list_ascii
                    (kept_pieces (list_ascii_of_string (String.concat sep ids))))
          else (∅ : gset string)).
  rewrite (kept_pieces_concat sep ids Hsep Hseparators Hids).
  assert (Hback : List.map string_of_list_ascii (List.map list_ascii_of_string ids) = ids).
  { clear. induction ids as [| x ids IH]; [reflexivity |]. simpl.
    rewrite string_of_list_ascii_of_string, IH. reflexivity. }
  rewrite Hback.
  destruct ids as [| x ids]; [reflexivity |].
  assert (Ht : truthy (Some (String.concat sep (x :: ids))) = true).
  { apply Forall_cons in Hids. destruct Hids as [[Hx _] _].
    unfold truthy. apply negb_true_iff, String.eqb_neq. intros E.
    apply Hx. destruct x as [| c x]; [reflexivity |].
    destruct ids; simpl in E; discriminate E. }
  rewrite Ht. reflexivity.
Qed.

Lemma X18_exclusion_list_round_trip_witness :
  parseExcludeIds (Some "111, 222, 333"%string)
  = list_to_set ["111"; "222"; "333"]%string.
Proof.
  apply (X18_exclusion_list_round_trip ", "%string ["111"; "222"; "333"]%string).
  - discriminate.
  - repeat constructor.
  - repeat constructor; discriminate.
Defined.

(** An id that ends with a no-break space is not such an id: [trim] takes
    the space away. *)
Example trim_no_break_space :
  trim (list_ascii_of_string
          (String "1" (String (ascii_of_nat 194) (String (ascii_of_nat 160) EmptyString))))
  = list_ascii_of_string "1".
Proof. reflexivity. Qed.

(** ** Every command comes to an end *)

Section Completion.

Variable w : World.
Variable env : Env.
Variable h : list Message.
Variable channelId : string.
Hypothesis Halone : alone w.
Hypothesis Hserves : serves h w.
Hypothesis Hh : newest_first h = true.

Lemma discovery_finishes opts fuel r :
  length h + 3 <= fuel ->
  limit_reached (limit opts) 0 = false ->
  should_stop channelId (store r) = false ->
  exists result, (discoverMessages w fuel channelId opts r).1 = Finished result.
Proof.
  intros Hfuel Hlim Hcalm.
  pose proof (alone_uncancelled w channelId Halone) as Hquiet.
  assert (H : triple (calm channelId) (discoverMessages w fuel channelId opts)
                (fun o => exists result, o = Finished result)).
  { unfold discoverMessages.
    eapply triple_bind; [apply shouldStop_calm |]. intros b ->.
    destruct (truthy (afterId opts) || truthy (beforeId opts)).
    - unfold discoverRangeMessages. eapply triple_weaken.
      + apply (range_walk w h channelId (userId opts) (afterId opts) (beforeId opts)
                 Hserves Hquiet Hh fuel [] h).
        * reflexivity.
        * split; reflexivity.
        * reflexivity.
        * exact Hfuel.
      + intros o ->. eexists. reflexivity.
    - eapply triple_weaken.
      + apply (plain_walk w h channelId opts Hserves Hquiet Hh fuel [] h initial_DState).
        * reflexivity.
        * repeat split. exact Hlim.
        * reflexivity.
        * exact Hfuel.
      + intros o ->. eexists. reflexivity. }
  apply (H r Hcalm).
Qed.

(** No purge is in progress in the channel. *)
Definition idle (r : Run) : Prop := activePurges (store r) !! channelId = None.

Lemma idle_stable : stable w idle.
Proof.
  split.
  - intros r Hr. unfold idle. simpl. rewrite Halone. exact Hr.
  - intros e r _ Hr. exact Hr.
  - intros c r Hr. exact Hr.
Qed.

Lemma scan_all_completes fuel uid mode ex r :
  length h + 3 <= fuel ->
  should_stop channelId (store r) = false -> idle r ->
  let run := scan_all w fuel channelId uid mode ex r in
  run.1 = TaskDone /\ idle run.2.
Proof.
  intros Hfuel Hcalm Hidle run. unfold run, scan_all. rewrite bind_run.
  destruct (scan_discovery_run w fuel channelId uid r) as (scan & _ & _ & ->).
  cbn [fst snd].
  set (opts := {| userId := uid; afterId := None; beforeId := None;
                  limit := None; onProgress := true |}).
  destruct (discovery_finishes opts fuel r Hfuel eq_refl Hcalm) as [result ->].
  destruct (discoverMessages_keeps w idle fuel channelId opts idle_stable
              (fun n r0 H0 => H0) r Hidle) as [_ Hidle'].
  destruct (List.filter _ result); split; try reflexivity; exact Hidle'.
Qed.

Lemma purge_task_completes fuel opts canDeleteOthers excludeIds rangeText r :
  length h + 3 <= fuel ->
  limit_reached (limit opts) 0 = false ->
  should_stop channelId (store r) = false ->
  (purge_task w env fuel channelId opts canDeleteOthers excludeIds rangeText r).1
  = TaskDone.
Proof.
  intros Hfuel Hlim Hcalm. unfold purge_task. rewrite !bind_run.
  destruct (discovery_finishes opts fuel _ Hfuel Hlim Hcalm) as [result ->].
  destruct result; [reflexivity | rewrite bind_run; reflexivity].
Qed.

Lemma start_purge_calm r :
  should_stop channelId (store r) = false -> idle r ->
  should_stop channelId (start_purge channelId (store r)) = false.
Proof.
  intros Hcalm Hidle. revert Hcalm. unfold should_stop, start_purge. cbn.
  unfold idle in Hidle. rewrite Hidle, !lookup_insert_eq. cbn. intros H. exact H.
Qed.

End Completion.

(** X19: against a history served newest first, while no other handler
    runs, with no purge in progress and no stop flag up in the channel,
    every command is handled to its end within [length h + 3] iterations
    of a discovery loop, whatever the subcommand and its options; and then
    no purge is in progress in the channel. *)
Theorem X19_every_command_completes
    (w : World) (env : Env) (h : list Message) (channelId : string)
    (subcommand : Subcommand) (fuel : nat) (r : Run)
    (Halone : alone w) (Hserves : serves h w) (Hh : newest_first h = true)
    (Hidle : activePurges (store r) !! channelId = None)
    (Hcalm : should_stop channelId (store r) = false)
    (Hfuel : length h + 3 <= fuel) :
  let run := handle w env fuel subcommand channelId r in
  run.1 = TaskDone /\ activePurges (store run.2) !! channelId = None.
Proof.
  intros run. unfold run, handle. rewrite bind_run.
  pose proof (execute_effect env subcommand channelId r) as He.
  unfold synchronous_effect in He.
  destruct (execute env subcommand channelId r).1
    as [[confirmation | opts cdo ex rt | uid mode ex] |] eqn:E.
  - destruct He as [Hp ->]. cbn [run_task].
    set (r1 := {| clock := clock r;
                  store := start_purge channelId (delete_pending channelId (store r));
                  trace := (trace r ++ [EvSend channelId
                                          (StartingPurge (pc_count confirmation))])%list |}).
    destruct (started_purge_alive channelId (delete_pending channelId (store r)))
      as [Hrunning Hactive].
    destruct (confirmed_purge_carried_out w env h channelId confirmation Halone Hserves
                Hh fuel (next_ref (delete_pending channelId (store r))) r1 Hfuel
                (started_purge_calm channelId (store r) Hidle Hcalm)
                (conj Hactive Hrunning)) as [Hdone _].
    split; [exact Hdone |].
    pose proof (confirmed_purge_gone w env fuel channelId confirmation r1) as Hgone.
    rewrite Hdone in Hgone. exact Hgone.
  - rewrite He. cbn [run_task].
    destruct (issued_purge_well_formed env subcommand channelId r opts cdo ex rt E)
      as ([_ Hwf] & _).
    assert (Hlim : limit_reached (limit opts) 0 = false).
    { destruct Hwf as [(n & -> & Hn & _) | (-> & _)]; [| reflexivity].
      unfold limit_reached. apply andb_false_iff. right. apply Z.leb_gt. simpl. lia. }
    set (r1 := {| clock := clock r; store := start_purge channelId (store r);
                  trace := trace r |}).
    pose proof (purge_task_completes w env h channelId Halone Hserves Hh fuel opts cdo
                  (Some ex) rt r1 Hfuel Hlim
                  (start_purge_calm channelId r Hcalm Hidle)) as Hdone.
    split; [exact Hdone |].
    pose proof (purge_task_gone w env fuel channelId opts cdo (Some ex) rt r1) as Hgone.
    rewrite Hdone in Hgone. exact Hgone.
  - rewrite He. cbn [run_task].
    apply (scan_all_completes w h channelId Halone Hserves Hh fuel uid mode ex);
      [exact Hfuel | | exact Hidle].
    revert Hcalm. unfold should_stop, start_scan. cbn.
    rewrite Hidle, lookup_insert_eq. cbn. intros _. reflexivity.
  - split; [reflexivity |].
    change (activePurges (store (execute env subcommand channelId r).2) !! channelId
            = None).
    destruct He as [[_ ->] | (reply & _ & _ & _ & [-> | (_ & _ & ->)])]; exact Hidle.
Qed.

Lemma X19_every_command_completes_witness :
  let run := handle (history_world sample_history) sample_env 7
               (CmdSelf (Some "2"%string) None None None) "c"%string idle_run in
  run.1 = TaskDone /\ activePurges (store run.2) !! "c"%string = None.
Proof.
  apply (X19_every_command_completes (history_world sample_history) sample_env
           sample_history "c"%string (CmdSelf (Some "2"%string) None None None) 7
           idle_run).
  - intros t s. reflexivity.
  - apply history_world_serves.
  - reflexivity.
  - reflexivity.
  - reflexivity.
  - simpl. lia.
Defined.

(** ** A scan followed by its confirmation *)

Lemma discoverMessages_gone w fuel channelId opts :
  ensures (discoverMessages w fuel channelId opts) (finished_gone channelId).
Proof.
  unfold discoverMessages. apply ensures_then. intros [|].
  - apply (activeScans_delete_gone channelId (Finished [])).
  - destruct (truthy (afterId opts) || truthy (beforeId opts)).
    + unfold discoverRangeMessages. apply range_loop_gone.
    + apply discover_loop_gone.
Qed.

Lemma should_stop_none channelId s :
  activeScans s !! channelId = None -> activePurges s !! channelId = None ->
  should_stop channelId s = false.
Proof. unfold should_stop. intros -> ->. reflexivity. Qed.

Lemma scan_all_leaves_calm w h channelId fuel uid mode ex r :
  alone w -> serves h w -> newest_first h = true ->
  length h + 3 <= fuel ->
  should_stop channelId (store r) = false -> idle channelId r ->
  should_stop channelId (store (scan_all w fuel channelId uid mode ex r).2) = false.
Proof.
  intros Halone Hserves Hh Hfuel Hcalm Hidle. unfold scan_all. rewrite bind_run.
  destruct (scan_discovery_run w fuel channelId uid r) as (scan & _ & _ & ->).
  cbn [fst snd].
  set (opts := {| userId := uid; afterId := None; beforeId := None;
                  limit := None; onProgress := true |}).
  pose proof (discoverMessages_gone w fuel channelId opts r) as Hgone.
  destruct (discoverMessages_keeps w (idle channelId) fuel channelId opts
              (idle_stable w channelId Halone) (fun n r0 H0 => H0) r Hidle)
    as [_ Hidle'].
  destruct (discovery_finishes w h channelId Halone Hserves Hh opts fuel r Hfuel
              eq_refl Hcalm) as [result Hresult].
  rewrite Hresult in Hgone |- *.
  destruct (List.filter _ result); apply should_stop_none; assumption.
Qed.

(** What the handler does with [self all] when no purge is in progress. *)
Lemma self_all_starts_scan env channelId countStr excludeStr r :
  toLowerCase countStr = "all"%string ->
  activePurges (store r) !! channelId = None ->
  execute env (CmdSelf (Some countStr) None None excludeStr) channelId r
  = (Some (TaskScan (Some (currentUserId env)) ModeSelf (parseExcludeIds excludeStr)),
     {| clock := clock r; store := start_scan channelId (store r);
        trace := (trace r ++ [EvSend channelId ScanningStarted])%list |}).
Proof.
  intros Hall Hidle. unfold execute. rewrite bind_run. cbn [getStore fst snd].
  unfold has_purge. rewrite Hidle.
  rewrite bool_decide_eq_false_2 by (intros [x Hx]; discriminate Hx).
  unfold count_or_range. cbv zeta. cbn [truthy orb].
  assert (Ht : String.eqb countStr "" = false).
  { apply String.eqb_neq. intros ->. discriminate Hall. }
  rewrite Ht. cbn [negb]. change (default ""%string (Some countStr)) with countStr.
  rewrite Hall. reflexivity.
Qed.

(** X20: a [self all] scan followed by a confirm, each handled to its end
    while no other handler runs, against the same history served newest
    first, starting with no purge in progress and no stop flag up: when
    the scan finds records of the current user that are not excluded, the
    confirm announces their number, calls delete for exactly these
    records, in the order of the history, and reports counts that add up
    to that number (all deleted when every call succeeds). *)
Theorem X20_confirm_deletes_what_the_scan_announced
    (w : World) (env : Env) (h : list Message) (channelId : string)
    (countStr : string) (excludeStr : option string) (fuel : nat) (r : Run)
    (Hall : toLowerCase countStr = "all"%string)
    (Huser : truthy (Some (currentUserId env)) = true)
    (Halone : alone w) (Hserves : serves h w) (Hh : newest_first h = true)
    (Hidle : activePurges (store r) !! channelId = None)
    (Hcalm : should_stop channelId (store r) = false)
    (Hfuel : length h + 3 <= fuel)
    (Hsome : announced (Some (currentUserId env)) (parseExcludeIds excludeStr) h <> []) :
  let matching := announced (Some (currentUserId env)) (parseExcludeIds excludeStr) h in
  let scanned := handle w env fuel (CmdSelf (Some countStr) None None excludeStr)
                   channelId r in
  let confirmed := handle w env fuel CmdConfirm channelId scanned.2 in
  scanned.1 = TaskDone /\ confirmed.1 = TaskDone
  /\ exists scan calls deleted failed,
       trace confirmed.2
       = (trace scanned.2
          ++ [EvSend channelId (StartingPurge (length matching))]
          ++ scan ++ calls ++ [EvSend channelId (PurgeResult deleted failed)])%list
       /\ Forall (discovery_event channelId false) scan
       /\ deleted_ids calls = List.map m_id matching
       /\ deleted + failed = length matching
       /\ ((forall t x, restDel w t channelId x = true) ->
           (deleted, failed) = (length matching, 0)).
Proof.
  intros matching scanned confirmed.
  set (ex := parseExcludeIds excludeStr) in *.
  set (me := Some (currentUserId env)) in *.
  assert (Hscanned : scanned
                     = scan_all w fuel channelId me ModeSelf ex
                         {| clock := clock r; store := start_scan channelId (store r);
                            trace := (trace r ++ [EvSend channelId ScanningStarted])%list |}).
  { unfold scanned, handle. rewrite bind_run.
    rewrite (self_all_starts_scan env channelId countStr excludeStr r Hall Hidle).
    reflexivity. }
  set (r1 := {| clock := clock r; store := start_scan channelId (store r);
                trace := (trace r ++ [EvSend channelId ScanningStarted])%list |}) in *.
  assert (Hcalm1 : should_stop channelId (store r1) = false).
  { unfold should_stop, r1, start_scan. cbn. rewrite Hidle, lookup_insert_eq. reflexivity. }
  assert (Hidle1 : idle channelId r1) by exact Hidle.
  pose proof (alone_uncancelled w channelId Halone) as Hquiet.
  destruct (scan_all_announces w h channelId me ModeSelf ex fuel r1 Hh Hserves Hquiet
              Hcalm1 Hfuel) as (Hdone & _ & Hpending & _).
  fold matching in Hpending.
  assert (Hn : 0 < length matching).
  { unfold matching. clear -Hsome. revert Hsome.
    destruct (announced me ex h);
      [intros Hx; exfalso; apply Hx; reflexivity | intros _; simpl; lia]. }
  specialize (Hpending Hn).
  destruct (scan_all_completes w h channelId Halone Hserves Hh fuel me ModeSelf ex r1
              Hfuel Hcalm1 Hidle1) as [_ Hidle2].
  rewrite <- Hscanned in Hdone, Hpending, Hidle2.
  assert (Hcalm2 : should_stop channelId (store scanned.2) = false).
  { rewrite Hscanned.
    apply (scan_all_leaves_calm w h); assumption. }
  destruct (confirm_carried_out w env h channelId _ fuel scanned.2 Halone Hserves Hh
              Hpending Hidle2 Hcalm2 Hfuel) as (Hdone2 & Hcarried & _ & _ & Htodo).
  fold confirmed in Hdone2, Hcarried.
  split; [exact Hdone |]. split; [exact Hdone2 |].
  specialize (Htodo ex eq_refl (or_introl (conj eq_refl Huser))).
  cbn [pc_userId pc_count] in Htodo, Hcarried. fold matching in Htodo.
  destruct Hcarried as (scan & calls & reply & Ht & Hscan & Hids & Hreply).
  rewrite Htodo in Hids, Hreply.
  destruct Hreply as [[_ Hnone] | (deleted & failed & -> & Hsum & Hok)];
    [rewrite Hnone in Hn; simpl in Hn; lia |].
  exists scan, calls, deleted, failed.
  split; [rewrite Ht, <- app_assoc; reflexivity |].
  repeat split; assumption.
Qed.

Lemma X20_confirm_deletes_what_the_scan_announced_witness :
  let scanned := handle (history_world sample_history) sample_env 7
                   (CmdSelf (Some "ALL"%string) None None (Some "20"%string))
                   "c"%string idle_run in
  let confirmed := handle (history_world sample_history) sample_env 7 CmdConfirm
                     "c"%string scanned.2 in
  scanned.1 = TaskDone /\ confirmed.1 = TaskDone.
Proof.
  pose proof (X20_confirm_deletes_what_the_scan_announced
                (history_world sample_history) sample_env sample_history "c"%string
                "ALL"%string (Some "20"%string) 7 idle_run eq_refl eq_refl
                (fun t s => eq_refl) (history_world_serves sample_history) eq_refl
                eq_refl eq_refl ltac:(simpl; lia)
                ltac:(vm_compute; discriminate)) as H.
  cbv zeta in H. destruct H as (H1 & H2 & _). split; assumption.
Defined.

(** ** The delay between retries *)

(** X21: the delay slept after a failed fetch is at least one second, never
    shrinks from one retry to the next for the same error, and after a
    rate-limit answer is at least the time the server asked for (its
    [retry_after], times 1000) and at least 2000 ms per attempt made. *)
Theorem X21_retry_delay_grows_and_honours_the_server (error : Thrown) (retry : nat) :
  (1000 <= retry_delay error retry)%Q
  /\ (retry_delay error retry <= retry_delay error (S retry))%Q
  /\ (isRateLimit error = true ->
      (retryAfter error * 1000 <= retry_delay error retry)%Q
      /\ (inject_Z (2000 * (Z.of_nat retry + 1)) <= retry_delay error retry)%Q).
Proof.
  unfold retry_delay. destruct (isRateLimit error).
  - split; [| split; [| intros _; split]].
    + eapply Qle_trans; [| apply Q.le_max_r].
      change 1000%Q with (inject_Z 1000). rewrite <- Zle_Qle. lia.
    + apply Q.max_le_compat_l. rewrite <- Zle_Qle. lia.
    + apply Q.le_max_l.
    + apply Q.le_max_r.
  - assert (Hpow : (0 < 2 ^ Z.of_nat retry)%Z) by (apply Z.pow_pos_nonneg; lia).
    split; [| split; [| discriminate]].
    + change 1000%Q with (inject_Z 1000). rewrite <- Zle_Qle. lia.
    + rewrite <- Zle_Qle, Nat2Z.inj_succ, Z.pow_succ_r by lia. lia.
Qed.

(** ** Both boundaries *)

Lemma both_visit_excludes uid A B st msg :
  truthy (Some A) = true -> truthy (Some B) = true ->
  (A ∉ ids (r_messages st)) /\ (B ∉ ids (r_messages st)) ->
  match range_visit uid (Some A) (Some B) msg (r_see st (m_id msg)) with
  | inl st' | inr st' => (A ∉ ids (r_messages st')) /\ (B ∉ ids (r_messages st'))
  end.
Proof.
  intros HA HB [HoutA HoutB]. unfold range_visit. rewrite HA, HB. rstate_simpl.
  cbn [id_is andb negb].
  destruct (String.eqb_spec (m_id msg) B) as [EB | HneB]; [split; assumption |].
  destruct (String.eqb_spec (m_id msg) A) as [EA | HneA]; [split; assumption |].
  destruct (collecting st && author_matches uid msg); rstate_simpl;
    [| split; assumption].
  unfold ids. rewrite map_app.
  split; intros Hin; apply elem_of_app in Hin; destruct Hin as [Hin | Hin];
    try (apply list_elem_of_singleton in Hin; congruence).
  - exact (HoutA Hin).
  - exact (HoutB Hin).
Qed.

(** X22: with both boundaries given, neither boundary record is ever
    collected, whatever the transport, the stop flags and the order in
    which the records arrive. *)
Theorem X22_two_boundaries_are_excluded
    (w : World) (fuel : nat) (channelId : string) (uid : option string)
    (A B : string) (r : Run)
    (HA : truthy (Some A) = true) (HB : truthy (Some B) = true) :
  let result := outcome_messages
                  (discoverRangeMessages w fuel channelId uid (Some A) (Some B) r).1 in
  ~ (A ∈ ids result) /\ ~ (B ∈ ids result).
Proof.
  intros result.
  assert (H : triple any_run
                (discoverRangeMessages w fuel channelId uid (Some A) (Some B))
                (fun o => (A ∉ ids (outcome_messages o))
                           /\ (B ∉ ids (outcome_messages o)))).
  { unfold discoverRangeMessages. eapply triple_weaken.
    - apply (range_loop_inv w any_run (stable_any_run w) any_message (any_response w)
               channelId uid (Some A) (Some B)
               (fun st => (A ∉ ids (r_messages st)) /\ (B ∉ ids (r_messages st)))).
      + intros st n Hst. exact Hst.
      + intros st msg Hst _ _. apply both_visit_excludes; assumption.
      + split; simpl; inversion 1.
    - intros o (st' & Hst' & ->). exact Hst'. }
  apply (H r I).
Qed.

Lemma X22_two_boundaries_are_excluded_witness :
  let result := outcome_messages
                  (discoverRangeMessages (history_world sample_history) 7 "c"%string
                     None (Some "10"%string) (Some "40"%string) idle_run).1 in
  result = [message "30" "u2"; message "20" "u1"]%string
  /\ (~ ("10"%string ∈ ids result) /\ ~ ("40"%string ∈ ids result)).
Proof.
  split; [vm_compute; reflexivity |].
  apply (X22_two_boundaries_are_excluded (history_world sample_history) 7 "c"%string
           None "10"%string "40"%string idle_run); reflexivity.
Defined.

(** ** Progress reports *)

(** [hoare P c Q]: from a run satisfying [P], [c] returns a value and
    leaves a run that together satisfy [Q]. *)
Definition hoare {A} (P : Run -> Prop) (c : M A) (Q : A -> Run -> Prop) : Prop :=
  forall r, P r -> Q (c r).1 (c r).2.

Lemma hoare_ret {A} (P : Run -> Prop) (a : A) (Q : A -> Run -> Prop) :
  (forall r, P r -> Q a r) -> hoare P (mret a) Q.
Proof. intros H r Hr. apply H, Hr. Qed.

Lemma hoare_bind {A B} (P : Run -> Prop) (c : M A) (k : A -> M B)
    (R : A -> Run -> Prop) (Q : B -> Run -> Prop) :
  hoare P c R -> (forall a, hoare (R a) (k a) Q) -> hoare P (c ≫= k) Q.
Proof. intros Hc Hk r Hr. rewrite bind_run. apply Hk, Hc, Hr. Qed.

Lemma hoare_triple {A} (I : Run -> Prop) (c : M A) (Q : A -> Prop) :
  triple I c Q -> hoare I c (fun a r => Q a /\ I r).
Proof. intros H r Hr. apply H, Hr. Qed.

Lemma hoare_weaken {A} (P P' : Run -> Prop) (c : M A) (Q Q' : A -> Run -> Prop) :
  hoare P c Q -> (forall r, P' r -> P r) -> (forall a r, Q a r -> Q' a r) ->
  hoare P' c Q'.
Proof. intros H HP HQ r Hr. apply HQ, H, HP, Hr. Qed.

(** [l] climbs strictly from above [lo] up to [hi], which is [lo] when [l]
    is empty. *)
Fixpoint steps (lo : nat) (l : list nat) (hi : nat) : Prop :=
  match l with
  | [] => hi = lo
  | n :: l' => lo < n /\ steps n l' hi
  end.

Lemma steps_snoc l : forall lo mid n,
  steps lo l mid -> mid < n -> steps lo (l ++ [n]) n.
Proof.
  induction l as [| m l IH]; intros lo mid n Hs Hlt; simpl in *.
  - subst mid. split; [exact Hlt | reflexivity].
  - destruct Hs as [Hm Hs]. split; [exact Hm | apply (IH m mid n Hs Hlt)].
Qed.

Lemma steps_bounds l : forall lo hi,
  steps lo l hi -> lo <= hi /\ Forall (fun n => lo < n /\ n <= hi) l.
Proof.
  induction l as [| m l IH]; intros lo hi Hs; simpl in *.
  - subst hi. split; [lia | apply Forall_nil_2].
  - destruct Hs as [Hm Hs]. destruct (IH m hi Hs) as [Hle Hall].
    split; [lia |]. apply Forall_cons. split; [lia |].
    eapply Forall_impl; [exact Hall |]. intros n Hn. simpl in Hn. lia.
Qed.

Lemma progress_reports_snoc t e :
  progress_reports (t ++ [e])
  = (progress_reports t
     ++ match e with EvProgress n => [n] | _ => [] end)%list.
Proof.
  unfold progress_reports. rewrite omap_app. destruct e; reflexivity.
Qed.

Section ProgressLadder.

Variable w : World.
Variable channelId : string.
Variable opts : DiscoverOptions.
Variable base : list nat.

(** The reports made since the start climb up to [top]. *)
Definition reported_upto (top : nat) : Run -> Prop :=
  fun r => exists counts,
    progress_reports (trace r) = (base ++ counts)%list /\ steps 0 counts top.

Lemma reported_stable top : stable w (reported_upto top).
Proof.
  split.
  - intros r Hr. exact Hr.
  - intros e r He (counts & Ht & Hs). exists counts. split; [| exact Hs].
    simpl. rewrite progress_reports_snoc, Ht. destruct e; try apply app_nil_r.
    destruct He.
  - intros c r Hr. exact Hr.
Qed.

(** The last reported count is not ahead of the collection. *)
Definition in_step (st : DState) : Prop :=
  lastReportedCount st <= length (messages st).

Definition ctl_tracked (c : Ctl DState) (r : Run) : Prop :=
  match c with
  | Continue st | Break st => in_step st /\ reported_upto (lastReportedCount st) r
  | Return result => exists top, top <= length result /\ reported_upto top r
  end.

Definition scanned_in_step (top : nat) (c : Ctl DState) : Prop :=
  match c with
  | Continue st | Break st => lastReportedCount st = top /\ in_step st
  | Return result => top <= length result
  end.

Lemma scan_batch_in_step uid lim batch : forall st,
  in_step st ->
  triple (reported_upto (lastReportedCount st))
    (scan_batch channelId uid lim batch st) (scanned_in_step (lastReportedCount st)).
Proof.
  induction batch as [| msg rest IH]; intros st Hst; simpl.
  - apply triple_ret. split; [reflexivity | exact Hst].
  - apply triple_seq; [apply shouldStop_keeps |]. intros [|].
    + apply triple_seq;
        [apply (activeScans_delete_keeps w _ (reported_stable _)) |].
      intros _. apply triple_ret. exact Hst.
    + destruct (bool_decide (m_id msg ∈ seenMessageIds st)); [apply IH, Hst |].
      destruct (author_matches uid msg).
      * cbv zeta.
        assert (Hgrown : in_step (set_messages
                                    (set_messages st (messages st)
                                       ({[ m_id msg ]} ∪ seenMessageIds st))
                                    (messages st ++ [msg])
                                    ({[ m_id msg ]} ∪ seenMessageIds st))).
        { unfold in_step in *. dstate_simpl. rewrite length_app. simpl. lia. }
        dstate_simpl. destruct (limit_reached lim _).
        -- apply triple_ret. split; [reflexivity | exact Hgrown].
        -- apply (IH _ Hgrown).
      * apply (IH (set_messages st (messages st) ({[ m_id msg ]} ∪ seenMessageIds st))
                 Hst).
Qed.

Lemma report_progress_tracked st :
  in_step st ->
  hoare (reported_upto (lastReportedCount st)) (report_progress opts st)
    (fun st1 r => messages st1 = messages st /\ lastMessageId st1 = lastMessageId st
                  /\ in_step st1 /\ reported_upto (lastReportedCount st1) r).
Proof.
  intros Hst. unfold report_progress.
  destruct (onProgress opts && negb (length (messages st) =? lastReportedCount st))
    eqn:E.
  - apply andb_prop in E. destruct E as [_ Hne].
    apply negb_true_iff, Nat.eqb_neq in Hne.
    intros r (counts & Ht & Hs). rewrite bind_run. cbn [mret M_ret fst snd].
    split; [reflexivity |]. split; [reflexivity |]. split.
    + unfold in_step. simpl. lia.
    + exists (counts ++ [length (messages st)])%list. split.
      * change (trace (emit (EvProgress (length (messages st))) r).2)
          with (trace r ++ [EvProgress (length (messages st))])%list.
        rewrite progress_reports_snoc, Ht, <- app_assoc. reflexivity.
      * apply (steps_snoc counts 0 (lastReportedCount st)); [exact Hs |].
        unfold in_step in Hst. simpl. lia.
  - apply hoare_ret. intros r Hr.
    split; [reflexivity |]. split; [reflexivity |]. split; assumption.
Qed.

Lemma after_scan_tracked batch st :
  in_step st ->
  hoare (reported_upto (lastReportedCount st)) (after_scan w channelId opts batch st)
    ctl_tracked.
Proof.
  intros Hst. unfold after_scan.
  eapply hoare_bind; [apply report_progress_tracked, Hst |].
  intros st1. cbv beta.
  assert (Hkeep : forall (c : M (Ctl DState)) st2,
            lastReportedCount st2 = lastReportedCount st1 -> in_step st2 ->
            triple (reported_upto (lastReportedCount st1)) c
              (fun v => v = Continue st2 \/ v = Break st2) ->
            hoare (fun r => messages st1 = messages st
                            /\ lastMessageId st1 = lastMessageId st
                            /\ in_step st1 /\ reported_upto (lastReportedCount st1) r)
              c ctl_tracked).
  { intros c st2 Hl H2 Hc r (_ & _ & _ & Hr). destruct (Hc r Hr) as [Hv Hr'].
    destruct Hv as [-> | ->]; (split; [exact H2 | rewrite Hl; exact Hr']). }
  unfold advance_cursor. destruct (last batch) as [oldest |].
  - destruct (truthy (lastMessageId st1) && id_is (lastMessageId st1) (m_id oldest)).
    + intros r (_ & _ & H1 & Hr). split; assumption.
    + intros r Hpre. assert (H1 : in_step st1) by tauto.
      apply (Hkeep _ (set_lastMessageId st1 (Some (m_id oldest))) eq_refl H1);
        [| exact Hpre].
      apply triple_seq;
        [apply (verify_short_keeps w _ (reported_stable _) any_message (any_response w)) |].
      intros [|]; [apply triple_ret; right; reflexivity |].
      match goal with |- context [if ?b then _ else _] => destruct b end;
        [apply triple_ret; right; reflexivity |].
      apply triple_seq; [apply (sleep_keeps w _ (reported_stable _)) |].
      intros _. apply triple_ret. left. reflexivity.
  - intros r Hpre. assert (H1 : in_step st1) by tauto.
    apply (Hkeep _ st1 eq_refl H1); [| exact Hpre].
    apply triple_seq;
      [apply (verify_short_keeps w _ (reported_stable _) any_message (any_response w)) |].
    intros [|]; [apply triple_ret; right; reflexivity |].
    match goal with |- context [if ?b then _ else _] => destruct b end;
      [apply triple_ret; right; reflexivity |].
    apply triple_seq; [apply (sleep_keeps w _ (reported_stable _)) |].
    intros _. apply triple_ret. left. reflexivity.
Qed.

Lemma discover_iteration_tracked st :
  in_step st ->
  hoare (reported_upto (lastReportedCount st)) (discover_iteration w channelId opts st)
    ctl_tracked.
Proof.
  intros Hst. unfold discover_iteration.
  assert (HI : stable w (reported_upto (lastReportedCount st)))
    by apply reported_stable.
  assert (Hsame : forall (c : M (Ctl DState)) st',
            lastReportedCount st' = lastReportedCount st -> in_step st' ->
            triple (reported_upto (lastReportedCount st)) c
              (fun v => v = Continue st' \/ v = Break st') ->
            hoare (reported_upto (lastReportedCount st)) c ctl_tracked).
  { intros c st' Hl H' Hc r Hr. destruct (Hc r Hr) as [Hv Hr'].
    destruct Hv as [-> | ->]; (split; [exact H' | rewrite Hl; exact Hr']). }
  eapply hoare_bind; [apply hoare_triple, shouldStop_keeps |].
  intros [|].
  { eapply hoare_weaken with (P := reported_upto (lastReportedCount st));
      [apply (Hsame _ st eq_refl Hst) | tauto | auto].
    apply triple_seq; [apply (activeScans_delete_keeps w _ HI) |].
    intros _. apply triple_ret. right. reflexivity. }
  eapply hoare_weaken with (P := reported_upto (lastReportedCount st))
                           (Q := ctl_tracked); [| tauto | auto].
  destruct (limit_reached (limit opts) (length (messages st))).
  { apply (Hsame _ st eq_refl Hst). apply triple_ret. right. reflexivity. }
  eapply hoare_bind;
    [apply hoare_triple, (fetch_with_retry_keeps w _ HI any_message (any_response w)) |].
  intros [batch |]; cbv zeta.
  - eapply hoare_weaken with (P := reported_upto (lastReportedCount st))
                             (Q := ctl_tracked); [| tauto | auto].
    eapply hoare_bind;
      [apply hoare_triple,
         (settle_batch_keeps w _ HI any_message (any_response w));
       apply Forall_forall; intros m _; exact I |].
    intros [n batch1 | n | n];
      (eapply hoare_weaken with (P := reported_upto (lastReportedCount st))
                                (Q := ctl_tracked); [| tauto | auto]).
    + unfold consume_batch. cbv zeta.
      set (st1 := set_lastSuccessfulBatchSize
                    (set_emptyBatchCount (set_consecutiveErrors st 0) n)
                    (length batch1)).
      assert (H1 : in_step st1) by exact Hst.
      eapply hoare_bind;
        [apply hoare_triple, (scan_batch_in_step (userId opts) (limit opts) batch1 st1 H1) |].
      intros [st2 | st2 | result].
      * intros r [[Hl H2] Hr]. apply (after_scan_tracked batch1 st2 H2).
        rewrite Hl. exact Hr.
      * intros r [[Hl H2] Hr]. apply (after_scan_tracked batch1 st2 H2).
        rewrite Hl. exact Hr.
      * apply hoare_ret. intros r [Hle Hr]. eexists. split; [exact Hle | exact Hr].
    + apply (Hsame _ (set_emptyBatchCount (set_consecutiveErrors st 0) n) eq_refl Hst).
      apply triple_ret. left. reflexivity.
    + apply (Hsame _ (set_emptyBatchCount (set_consecutiveErrors st 0) n) eq_refl Hst).
      apply triple_ret. right. reflexivity.
  - eapply hoare_weaken with (P := reported_upto (lastReportedCount st))
                             (Q := ctl_tracked); [| tauto | auto].
    apply (Hsame _ (set_consecutiveErrors st (S (consecutiveErrors st))) eq_refl Hst).
    match goal with |- context [if ?b then _ else _] => destruct b end;
      [apply triple_ret; right; reflexivity |].
    apply triple_seq; [apply (sleep_keeps w _ HI) |].
    intros _. apply triple_ret. left. reflexivity.
Qed.

Definition outcome_tracked (o : Outcome) (r : Run) : Prop :=
  exists top, top <= length (outcome_messages o) /\ reported_upto top r.

Lemma discover_loop_tracked fuel : forall st,
  in_step st ->
  hoare (reported_upto (lastReportedCount st)) (discover_loop w fuel channelId opts st)
    outcome_tracked.
Proof.
  induction fuel as [| fuel IH]; intros st Hst; cbn [discover_loop].
  - apply hoare_ret. intros r Hr. exists (lastReportedCount st). split; assumption.
  - eapply hoare_bind; [apply discover_iteration_tracked, Hst |].
    intros [st' | st' | result].
    + intros r [H' Hr]. apply (IH st' H'), Hr.
    + intros r [H' Hr]. exists (lastReportedCount st'). split; [exact H' | exact Hr].
    + apply hoare_ret. intros r Hr. exact Hr.
Qed.

Lemma discoverMessages_tracked fuel :
  hoare (reported_upto 0) (discoverMessages w fuel channelId opts) outcome_tracked.
Proof.
  unfold discoverMessages.
  eapply hoare_bind;
    [apply (hoare_triple (reported_upto 0)), shouldStop_keeps |].
  intros [|]; (eapply hoare_weaken with (P := reported_upto 0) (Q := outcome_tracked);
               [| tauto | auto]).
  - intros r Hr. exists 0. split; [simpl; lia | exact Hr].
  - destruct (truthy (afterId opts) || truthy (beforeId opts)).
    + unfold discoverRangeMessages. intros r Hr. exists 0. split; [lia |].
      apply (range_loop_inv w _ (reported_stable 0) any_message (any_response w)
               channelId (userId opts) (afterId opts) (beforeId opts) (fun _ => True));
        trivial.
      intros st msg _ _ _. destruct (range_visit _ _ _ _ _); exact I.
    + apply (discover_loop_tracked fuel initial_DState). unfold in_step. simpl. lia.
Qed.

End ProgressLadder.

(** X23: in any world and whenever it stops, the progress counts that a
    discovery reports climb strictly, starting above 0, and none exceeds
    the number of records it finally returns. *)
Theorem X23_progress_reports_climb
    (w : World) (fuel : nat) (channelId : string) (opts : DiscoverOptions) (r : Run) :
  let run := discoverMessages w fuel channelId opts r in
  exists counts top,
    progress_reports (trace run.2) = (progress_reports (trace r) ++ counts)%list
    /\ steps 0 counts top
    /\ top <= length (outcome_messages run.1)
    /\ Forall (fun n => 0 < n /\ n <= length (outcome_messages run.1)) counts.
Proof.
  intros run.
  destruct (discoverMessages_tracked w channelId opts (progress_reports (trace r))
              fuel r) as (top & Hle & counts & Ht & Hs).
  { exists []. split; [symmetry; apply app_nil_r | reflexivity]. }
  exists counts, top. split; [exact Ht |]. split; [exact Hs |]. split; [exact Hle |].
  destruct (steps_bounds counts 0 top Hs) as [_ Hall].
  eapply Forall_impl; [exact Hall |]. intros n Hn. subst run. cbv beta in Hn |- *. lia.
Qed.

(** ** Stop flags *)

(** No stop flag is up: neither in a [PurgeState] object nor in a scan
    state. *)
Definition flags_down (s : Store) : Prop :=
  map_Forall (fun _ p => stop p = false) (heap s)
  /\ map_Forall (fun _ sc => scan_stop sc = false) (activeScans s).

Definition unflagged : Run -> Prop := fun r => flags_down (store r).

Lemma flags_down_calm channelId s : flags_down s -> should_stop channelId s = false.
Proof.
  intros [Hheap Hscans]. unfold should_stop.
  destruct (activeScans s !! channelId) as [sc |] eqn:Es.
  - rewrite (Hscans _ _ Es). cbn.
    destruct (activePurges s !! channelId) as [ref |]; [| reflexivity].
    destruct (heap s !! ref) as [p |] eqn:Ep; [apply (Hheap _ _ Ep) | reflexivity].
  - cbn. destruct (activePurges s !! channelId) as [ref |]; [| reflexivity].
    destruct (heap s !! ref) as [p |] eqn:Ep; [apply (Hheap _ _ Ep) | reflexivity].
Qed.

Lemma flags_down_start_purge channelId s :
  flags_down s -> flags_down (start_purge channelId s).
Proof.
  intros [Hheap Hscans]. split; [| exact Hscans]. cbn.
  apply map_Forall_insert_2; [reflexivity | exact Hheap].
Qed.

Lemma flags_down_start_scan channelId s :
  flags_down s -> flags_down (start_scan channelId s).
Proof.
  intros [Hheap Hscans]. split; [exact Hheap |]. cbn.
  apply map_Forall_insert_2; [reflexivity | exact Hscans].
Qed.

Lemma flags_down_delete_scan channelId s :
  flags_down s -> flags_down (delete_scan channelId s).
Proof.
  intros [Hheap Hscans]. split; [exact Hheap |]. cbn.
  apply map_Forall_delete, Hscans.
Qed.

Lemma flags_down_update_purge purge f s :
  (forall p, stop (f p) = stop p) ->
  flags_down s -> flags_down (update_purge purge f s).
Proof.
  intros Hf [Hheap Hscans]. split; [| exact Hscans]. cbn.
  intros ref p Hp. destruct (decide (ref = purge)) as [-> | Hne].
  - rewrite lookup_alter_eq in Hp.
    destruct (heap s !! purge) as [p0 |] eqn:E; [| discriminate Hp].
    injection Hp as <-. rewrite Hf. apply (Hheap _ _ E).
  - rewrite lookup_alter_ne in Hp by congruence. apply (Hheap _ _ Hp).
Qed.

Section FlagsStayDown.

Variable w : World.
Variable env : Env.
Variable channelId : string.
Hypothesis Halone : alone w.

Lemma unflagged_stable : stable w unflagged.
Proof.
  split.
  - intros r Hr. unfold unflagged. simpl. rewrite Halone. exact Hr.
  - intros e r _ Hr. exact Hr.
  - intros c r Hr. apply flags_down_delete_scan, Hr.
Qed.

Lemma unflagged_modify (f : Store -> Store) :
  (forall s, flags_down s -> flags_down (f s)) ->
  triple unflagged (modifyStore f) (fun _ => True).
Proof. intros Hf r Hr. split; [exact I | apply Hf, Hr]. Qed.

Lemma unflagged_same {A} (c : M A) :
  (forall r, store (c r).2 = store r) -> triple unflagged c (fun _ => True).
Proof. intros H r Hr. split; [exact I |]. unfold unflagged. rewrite H. exact Hr. Qed.

Lemma unflagged_purge_loop purge canDeleteOthers excludeIds total rest :
  forall i deleted failed,
  triple unflagged
    (purge_loop w env channelId purge canDeleteOthers excludeIds total rest
       i deleted failed)
    (fun _ => True).
Proof.
  induction rest as [| msg rest IH]; intros i deleted failed; cbn [purge_loop].
  - apply triple_ret. exact I.
  - apply triple_seq; [apply unflagged_same; reflexivity |]. intros s.
    destruct (purge_stopped purge s); [apply triple_ret; exact I |].
    destruct (excluded excludeIds (m_id msg)); [apply IH |].
    match goal with |- context [if ?b then _ else _] => destruct b end; [apply IH |].
    apply triple_seq.
    { intros r Hr. split; [exact I |]. unfold unflagged, RestAPI_del.
      unfold mbind, M_bind, now, mret, M_ret. simpl. rewrite Halone. exact Hr. }
    intros [|].
    + apply triple_seq;
        [apply unflagged_modify; intros s0; apply flags_down_update_purge; reflexivity |].
      intros _. apply triple_seq.
      { destruct (i <? total - 1); [apply (sleep_keeps w _ unflagged_stable) |].
        apply triple_ret. exact I. }
      intros _. apply IH.
    + apply triple_seq;
        [apply unflagged_modify; intros s0; apply flags_down_update_purge; reflexivity |].
      intros _. apply IH.
Qed.

Lemma unflagged_executePurge records canDeleteOthers excludeIds :
  triple unflagged (executePurge w env channelId records canDeleteOthers excludeIds)
    (fun _ => True).
Proof.
  unfold executePurge. apply triple_seq; [apply unflagged_same; reflexivity |].
  intros s. destruct (activePurges s !! channelId); [apply unflagged_purge_loop |].
  apply triple_ret. exact I.
Qed.

Lemma unflagged_end_purge reply :
  triple unflagged
    (modifyStore (end_purge channelId);; sendBotMessage channelId reply;; mret TaskDone)
    (fun _ => True).
Proof.
  apply triple_seq; [apply unflagged_modify; intros s Hs; exact Hs |]. intros _.
  apply triple_seq; [apply unflagged_same; reflexivity |]. intros _.
  apply triple_ret. exact I.
Qed.

Lemma unflagged_discovery fuel opts :
  triple unflagged (discoverMessages w fuel channelId opts) (fun _ => True).
Proof.
  apply discoverMessages_keeps; [apply unflagged_stable | intros n r Hr; exact Hr].
Qed.

Lemma unflagged_run_task fuel task :
  triple unflagged (run_task w env fuel channelId task) (fun _ => True).
Proof.
  destruct task as [confirmation | opts cdo ex rt | uid mode ex]; cbn [run_task].
  - unfold confirmed_purge. apply triple_seq; [apply unflagged_discovery |].
    intros [records | sofar]; [| apply triple_ret; exact I].
    destruct (filter_excluded (pc_excludeIds confirmation) records);
      [apply unflagged_end_purge |].
    apply triple_seq; [apply unflagged_executePurge |].
    intros result. apply unflagged_end_purge.
  - unfold purge_task. apply triple_seq; [apply unflagged_discovery |].
    intros [[| m records] | sofar];
      [apply unflagged_end_purge | | apply triple_ret; exact I].
    apply triple_seq; [apply unflagged_executePurge |].
    intros result. apply unflagged_end_purge.
  - unfold scan_all. apply triple_seq.
    { intros r Hr. split; [exact I |].
      exact (proj2 (unflagged_discovery fuel
                      {| userId := uid; afterId := None; beforeId := None;
                         limit := None; onProgress := true |} r Hr)). }
    intros [records | sofar]; [| apply triple_ret; exact I].
    destruct (List.filter _ records).
    + apply triple_seq; [apply unflagged_same; reflexivity |]. intros _.
      apply triple_ret. exact I.
    + apply triple_seq; [apply unflagged_modify; intros s Hs; exact Hs |]. intros _.
      apply triple_seq; [apply unflagged_same; reflexivity |]. intros _.
      apply triple_ret. exact I.
Qed.

Lemma unflagged_execute subcommand :
  triple unflagged (execute env subcommand channelId) (fun _ => True).
Proof.
  intros r Hr. split; [exact I |].
  pose proof (execute_effect env subcommand channelId r) as He.
  unfold synchronous_effect in He. unfold unflagged.
  destruct (execute env subcommand channelId r).1
    as [[confirmation | opts cdo ex rt | uid mode ex] |].
  - destruct He as [_ ->]. cbn. apply flags_down_start_purge. exact Hr.
  - rewrite He. cbn. apply flags_down_start_purge. exact Hr.
  - rewrite He. cbn. apply flags_down_start_scan, Hr.
  - destruct He as [[_ ->] | (reply & _ & _ & _ & [-> | (_ & _ & ->)])]; exact Hr.
Qed.

End FlagsStayDown.

(** X24: no command raises a stop flag.  While no other handler runs, if
    no stop flag is up in any [PurgeState] object or scan state when a
    command is handled, then none is up afterwards, whatever the command
    and however long its task has run; so [shouldStop] answers [false] for
    every channel. *)
Theorem X24_no_command_raises_a_stop_flag
    (w : World) (env : Env) (fuel : nat) (subcommand : Subcommand)
    (channelId : string) (r : Run)
    (Halone : alone w) (Hdown : flags_down (store r)) :
  let run := handle w env fuel subcommand channelId r in
  flags_down (store run.2)
  /\ forall c, should_stop c (store run.2) = false.
Proof.
  intros run.
  assert (H : triple unflagged (handle w env fuel subcommand channelId) (fun _ => True)).
  { unfold handle. apply triple_seq; [apply unflagged_execute |].
    intros [task |]; [apply (unflagged_run_task w env channelId Halone) |].
    apply triple_ret. exact I. }
  destruct (H r Hdown) as [_ Hrun]. split; [exact Hrun |].
  intros c. apply flags_down_calm, Hrun.
Qed.

Lemma X24_no_command_raises_a_stop_flag_witness :
  let run := handle (history_world sample_history) sample_env 7
               (CmdSelf (Some "all"%string) None None None) "c"%string idle_run in
  flags_down (store run.2) /\ should_stop "c"%string (store run.2) = false.
Proof.
  pose proof (X24_no_command_raises_a_stop_flag (history_world sample_history)
                sample_env 7 (CmdSelf (Some "all"%string) None None None) "c"%string
                idle_run (fun t s => eq_refl)
                (conj (map_Forall_empty _) (map_Forall_empty _))) as H.
  cbv zeta in H. destruct H as [Hdown Hcalm]. split; [exact Hdown | apply Hcalm].
Defined.

(** ** Short pages *)

(** X25: the verification of a short page never ends a discovery by
    itself: on a non-empty batch the verification step, which both loops
    share, answers "go on" whatever its up to three extra fetches return,
    and every batch that the empty-batch handling hands on to the scan is
    non-empty.  The one exit on a short page is the range extractor's
    own, taken before the verification when only a before boundary is
    given and it has not been met: against the history of four records
    and the boundary 99, one request is made and nothing is returned. *)
Theorem X25_short_page_verification_goes_on
    (w : World) (channelId : string) (cursor : option string) (n : nat)
    (batch : list Message) (r : Run) :
  (batch <> [] -> (verify_short w channelId cursor batch r).1 = false)
  /\ match (settle_batch w channelId cursor n batch r).1 with
     | SettledBatch _ settled => settled <> []
     | _ => True
     end
  /\ (let run := discoverRangeMessages (history_world sample_history) 7 "c"%string
                   None None (Some "99"%string) idle_run in
      run.1 = Finished [] /\ count_gets (trace run.2) = 1).
Proof.
  split; [apply verify_short_nonempty |]. split.
  - destruct (settle_batch_keeps w any_run (stable_any_run w) any_message
                (any_response w) channelId cursor n batch) with (r := r) as [Hs _].
    + apply Forall_forall. intros m _. exact I.
    + exact I.
    + destruct (settle_batch w channelId cursor n batch r).1; [apply Hs | exact I | exact I].
  - split; vm_compute; reflexivity.
Qed.

(** ** Timestamps of ids *)

(** [getSnowflakeTimestamp]: [Number((BigInt(snowflake) >> 22n) +
    1420070400000n)] for a non-empty string of decimal digits; [None]
    stands for the other strings, which [BigInt] rejects or reads in
    another notation. *)
Definition getSnowflakeTimestamp (s : string) : option N :=
  match snowflake s with
  | Some n => Some (N.shiftr n 22 + 1420070400000)%N
  | None => None
  end.

(** X26: for ids that are decimal numbers below 2^64, the timestamp read
    off an id is at least the epoch 1420070400000, is below 2^53 (so the
    conversion to a number is exact), and is monotone in the id: an id that
    sorts newer never has an earlier timestamp. *)
Theorem X26_timestamp_is_monotone_in_the_id
    (a b : string) (x y : N)
    (Ha : snowflake a = Some x) (Hb : snowflake b = Some y)
    (Hx : (x < 2 ^ 64)%N) (Hy : (y < 2 ^ 64)%N) :
  exists ta tb,
    getSnowflakeTimestamp a = Some ta /\ getSnowflakeTimestamp b = Some tb
    /\ (1420070400000 <= ta)%N /\ (ta < 2 ^ 53)%N
    /\ ((x <= y)%N -> (ta <= tb)%N)
    /\ (newerb a b = true -> (tb <= ta)%N).
Proof.
  unfold getSnowflakeTimestamp, newerb. rewrite Ha, Hb.
  eexists _, _. split; [reflexivity |]. split; [reflexivity |].
  rewrite !N.shiftr_div_pow2.
  assert (Hdiv : forall u v, (u <= v)%N -> (u / 2 ^ 22 <= v / 2 ^ 22)%N).
  { intros u v Huv. apply N.Div0.div_le_mono. exact Huv. }
  assert (Hsmall : (x / 2 ^ 22 < 4398046511104)%N).
  { apply N.Div0.div_lt_upper_bound. exact Hx. }
  pose proof (Hdiv x y) as Hxy. pose proof (Hdiv y x) as Hyx. clear Hdiv.
  set (qx := (x / 2 ^ 22)%N) in *. set (qy := (y / 2 ^ 22)%N) in *.
  change (2 ^ 53)%N with 9007199254740992%N.
  split; [lia |]. split; [lia |]. split.
  - intros H. specialize (Hxy H). lia.
  - intros Hnew. apply N.ltb_lt in Hnew. assert (H : (y <= x)%N) by lia.
    specialize (Hyx H). lia.
Qed.

Lemma X26_timestamp_is_monotone_in_the_id_witness :
  getSnowflakeTimestamp "175928847299117063"
  = Some 1462015105796%N
  /\ getSnowflakeTimestamp "0" = Some 1420070400000%N.
Proof.
  destruct (X26_timestamp_is_monotone_in_the_id "175928847299117063" "0"
              175928847299117063%N 0%N eq_refl eq_refl
              ltac:(vm_compute; reflexivity) ltac:(vm_compute; reflexivity))
    as (ta & tb & Hta & Htb & _).
  split; vm_compute; reflexivity.
Defined.
